(** * v-Attachments: the attachment manager plugin (src/main.ts)

  A shallow embedding of the plugin's string helpers, rule resolver,
  collision resolver, reconciliation pass and debounce scheduler, with the
  properties of the specification stated and settled against it.

  Strings are sequences of code units; the development keeps to code units
  below 256, so a JavaScript string is a [list ascii].  The host
  application (obsidian) is not part of the repository: the few host
  primitives the plugin calls are modelled in [Module Host], each with the
  contract it is used under. *)

From Stdlib Require Import Ascii String List Arith Lia Bool DecimalString.
From stdpp Require Import base decidable option list gmap strings.

Set Default Proof Using "Type".
Local Open Scope list_scope.

(** A JavaScript string, as its code units. *)
Abbreviation jsstring := (list ascii).

(** String literals: [str "abc"] is the code-unit list of the literal. *)
Definition str (s : string) : jsstring := list_ascii_of_string s.
Arguments str : simpl never.

(** * Code-unit classes *)

Module Chars.
Local Open Scope char_scope.

Definition is_char (a c : ascii) : bool := Ascii.eqb c a.

(** The class [\s] of a regular expression, and the characters [trim]
    strips, restricted to code units below 256: TAB, LF, VT, FF, CR,
    SPACE and NO-BREAK SPACE. *)
Definition is_space (c : ascii) : bool :=
  is_char "009" c || is_char "010" c || is_char "011" c || is_char "012" c || is_char "013" c
  || is_char " " c || is_char "160" c.

(** The class of [sanitizeName]: backslash, slash, colon, double quote,
    star, question mark, less-than, greater-than and bar. *)
Definition is_illegal (c : ascii) : bool :=
  is_char "\" c || is_char "/" c || is_char ":" c || is_char "034" c || is_char "*" c
  || is_char "?" c || is_char "<" c || is_char ">" c || is_char "|" c.

(** The class [[\s-_]] of [getCleanOriginalName]: without the [u] flag a
    class escape next to a dash is the union of the escape, the dash and
    the other end. *)
Definition is_separator (c : ascii) : bool :=
  is_space c || is_char "-" c || is_char "_" c.

(** The class [[\\/]], the path separators [normalizePath] collapses. *)
Definition is_slash (c : ascii) : bool := is_char "/" c || is_char "\" c.

(** [String.prototype.toLowerCase] on one code unit below 256. *)
Definition to_lower (c : ascii) : ascii :=
  let n := nat_of_ascii c in
  if ((65 <=? n)%nat && (n <=? 90)%nat)
     || ((192 <=? n)%nat && (n <=? 222)%nat && negb (n =? 215)%nat)
  then ascii_of_nat (n + 32) else c.

End Chars.

(** * JavaScript string primitives used by the plugin *)

Module JS.
Import Chars.
Local Open Scope char_scope.

Fixpoint drop_while (p : ascii -> bool) (s : jsstring) : jsstring :=
  match s with
  | [] => []
  | c :: s' => if p c then drop_while p s' else s
  end.

Fixpoint take_while (p : ascii -> bool) (s : jsstring) : jsstring :=
  match s with
  | [] => []
  | c :: s' => if p c then c :: take_while p s' else []
  end.

(** [s.trim()] *)
Definition trim (s : jsstring) : jsstring :=
  rev (drop_while is_space (rev (drop_while is_space s))).

(** [s.toLowerCase()] *)
Definition toLowerCase (s : jsstring) : jsstring := map to_lower s.

(** [s.startsWith(t)] *)
Fixpoint startsWith (t s : jsstring) : bool :=
  match t, s with
  | [], _ => true
  | _ :: _, [] => false
  | a :: t', b :: s' => Ascii.eqb a b && startsWith t' s'
  end.

(** [s.includes(t)] *)
Fixpoint includes (t s : jsstring) : bool :=
  startsWith t s ||
  match s with
  | [] => false
  | _ :: s' => includes t s'
  end.

(** [s === t] *)
Definition eqb (s t : jsstring) : bool := bool_decide (s = t).

(** [n.toString()] for a natural number. *)
Definition toString (n : nat) : jsstring :=
  str (NilEmpty.string_of_uint (Nat.to_uint n)).

(** [s.padStart(2, '0')] *)
Definition padStart2 (s : jsstring) : jsstring :=
  repeat "0" (2 - length s) ++ s.

(** [s.split(c)[0]]: the text before the first [c]. *)
Definition before_first (c : ascii) (s : jsstring) : jsstring :=
  take_while (fun x => negb (is_char c x)) s.

(** [s.replace(/[cls]+/g, r)] for a class [cls] and a replacement [r]
    without dollar signs: the scanner emits [r] once when it enters a
    run of class characters and nothing for the rest of the run. *)
Fixpoint replace_runs_from (cls : ascii -> bool) (r : jsstring)
    (in_run : bool) (s : jsstring) : jsstring :=
  match s with
  | [] => []
  | c :: s' =>
      if cls c
      then (if in_run then [] else r) ++ replace_runs_from cls r true s'
      else c :: replace_runs_from cls r false s'
  end.

Definition replace_runs (cls : ascii -> bool) (r s : jsstring) : jsstring :=
  replace_runs_from cls r false s.

(** GetSubstitution of ECMAScript for a regular expression without
    capture groups: in the replacement text [$$] is a dollar sign, [$&]
    the matched text, [$`] the text before the match and [$'] the text
    after it; every other character, a dollar sign before anything else
    included, stands for itself. *)
Fixpoint get_substitution (matched before after repl : jsstring) : jsstring :=
  match repl with
  | [] => []
  | c :: r =>
      if is_char "$" c then
        match r with
        | [] => [c]
        | d :: r' =>
            if is_char "$" d then "$" :: get_substitution matched before after r'
            else if is_char "&" d then matched ++ get_substitution matched before after r'
            else if is_char "`" d then before ++ get_substitution matched before after r'
            else if is_char "'" d then after ++ get_substitution matched before after r'
            else c :: get_substitution matched before after r
        end
      else c :: get_substitution matched before after r
  end.

(** [s.replace(/tok/g, repl)] for a regular expression that matches the
    literal text [tok] (not empty): scanning from the left, [skip] counts
    the code units of a match still to be passed over and [before] is the
    text already scanned. *)
Fixpoint replace_token_from (tok repl : jsstring) (skip : nat)
    (before s : jsstring) : jsstring :=
  match s with
  | [] => []
  | c :: s' =>
      match skip with
      | S n => replace_token_from tok repl n (before ++ [c]) s'
      | O =>
          if startsWith tok s
          then get_substitution tok before (drop (length tok) s) repl
               ++ replace_token_from tok repl (length tok - 1) (before ++ [c]) s'
          else c :: replace_token_from tok repl 0 (before ++ [c]) s'
      end
  end.

Definition replace_token (tok repl s : jsstring) : jsstring :=
  replace_token_from tok repl 0 [] s.

(** One attempt of [/[\s-_]*old[\s-_]*/] at the head of [s]: the first
    star is greedy and gives separators back one at a time, so the
    attempts run from the whole separator run ([k] separators kept) down
    to none; the last star takes every separator after [old].  The
    result is the length of the match. *)
Fixpoint match_padded_keep (old s : jsstring) (k : nat) : option nat :=
  if startsWith old (drop k s)
  then Some (k + length old
             + length (take_while is_separator (drop (k + length old) s)))
  else match k with
       | O => None
       | S k' => match_padded_keep old s k'
       end.

Definition match_padded (old s : jsstring) : option nat :=
  match_padded_keep old s (length (take_while is_separator s)).

(** [s.replace(/[\s-_]*old[\s-_]*/g, r)] for a literal [old] (not empty)
    and a replacement [r] without dollar signs. *)
Fixpoint replace_padded_from (old r : jsstring) (skip : nat)
    (s : jsstring) : jsstring :=
  match s with
  | [] => []
  | c :: s' =>
      match skip with
      | S n => replace_padded_from old r n s'
      | O =>
          match match_padded old s with
          | Some len => r ++ replace_padded_from old r (len - 1) s'
          | None => c :: replace_padded_from old r 0 s'
          end
      end
  end.

Definition replace_padded (old r s : jsstring) : jsstring :=
  replace_padded_from old r 0 s.

(** [s.split(c)] for a separator of one character: the pieces of [s]
    between the occurrences of [c], the empty ones included; [cur] is the
    piece being read. *)
Fixpoint split_from (c : ascii) (cur s : jsstring) : list jsstring :=
  match s with
  | [] => [cur]
  | x :: s' =>
      if is_char c x then cur :: split_from c [] s'
      else split_from c (cur ++ [x]) s'
  end.

Definition split (c : ascii) (s : jsstring) : list jsstring :=
  split_from c [] s.

(** [l.join(sep)] *)
Fixpoint join_with (sep : jsstring) (l : list jsstring) : jsstring :=
  match l with
  | [] => []
  | [x] => x
  | x :: rest => x ++ sep ++ join_with sep rest
  end.

(** [s.endsWith(t)] *)
Definition endsWith (t s : jsstring) : bool := startsWith (rev t) (rev s).

(** [s.replace(/t$/, '')] for a literal text [t]: without the flag [m]
    the dollar sign of the pattern stands for the end of [s], so the one
    match there can be is [t] at the end. *)
Definition remove_suffix (t s : jsstring) : jsstring :=
  if endsWith t s then take (length s - length t) s else s.

End JS.

(** * The host application

  The plugin runs inside obsidian and calls its API.  The API is not part
  of the repository; what the plugin relies on is modelled here.  A file
  object ([TFile], [TFolder]) is a mutable object of the host: the vault
  is the list of these objects, an object is named by its position, and
  renaming a file updates its object in place, so every reference held
  to it sees the new path. *)

Module Host.
Import Chars JS.

(** ** Paths *)

(** The segments of a path: the maximal pieces without a slash or a
    backslash, the empty ones dropped. *)
Fixpoint segments_from (cur s : jsstring) : list jsstring :=
  match s with
  | [] => match cur with [] => [] | _ => [cur] end
  | c :: s' =>
      if is_slash c
      then match cur with [] => [] | _ => [cur] end ++ segments_from [] s'
      else segments_from (cur ++ [c]) s'
  end.

Definition segments (p : jsstring) : list jsstring := segments_from [] p.

Fixpoint join (segs : list jsstring) : jsstring :=
  match segs with
  | [] => []
  | [x] => x
  | x :: rest => x ++ "/"%char :: join rest
  end.

Definition root : jsstring := str "/".

(** [normalizePath]: runs of slashes and backslashes become one slash,
    leading and trailing slashes go, and the empty path is the root. *)
Definition normalizePath (p : jsstring) : jsstring :=
  match segments p with
  | [] => root
  | segs => join segs
  end.

(** [file.name]: the last segment of the path. *)
Definition name (p : jsstring) : jsstring := List.last (segments p) [].

(** [file.parent.path]: the path of the folder the file is in; the root
    folder has path [/]. *)
Definition parentPath (p : jsstring) : jsstring :=
  match removelast (segments p) with
  | [] => root
  | segs => join segs
  end.

(** A file name is split at its last dot, unless the name has no dot or
    the dot is its first or last character. *)
Definition split_name (n : jsstring) : jsstring * jsstring :=
  let not_dot := fun c => negb (is_char "."%char c) in
  let r := rev n in
  match take_while not_dot r, drop_while not_dot r with
  | (_ :: _) as e, _ :: ((_ :: _) as b) => (rev b, rev e)
  | _, _ => (n, [])
  end.

(** [file.basename] and [file.extension] *)
Definition basename (p : jsstring) : jsstring := fst (split_name (name p)).
Definition extension (p : jsstring) : jsstring := snd (split_name (name p)).

(** ** The vault *)

Inductive Kind := TFile | TFolder.

Record TAbstractFile := { path : jsstring; kind : Kind }.

Definition is_file (f : TAbstractFile) : bool :=
  match kind f with TFile => true | TFolder => false end.

(** ** The metadata cache *)

(** A reference of a document: an embed or a link, with its link text. *)
Record Reference := { link : jsstring }.

Record CachedMetadata := {
  embeds : option (list Reference);
  links : option (list Reference)
}.

(** What [getFileCache] answers: the index of the document, nothing yet,
    or an exception. *)
Inductive CacheAnswer :=
| Indexed (c : CachedMetadata)
| NotIndexed
| Fails (e : jsstring).

(** The calendar date of [new Date()]; [month] counts from 0. *)
Record Date := { fullYear : nat; month : nat; date : nat }.

(** The state of the host.  [fileCache f n] is the answer to poll number
    [n] of one pass for the document [f].  [linkpathDest l src] is the
    file the link text [l] written in [src] leads to: the host rewrites
    the links to a file it renames, so the destination of a reference is
    the same object before and after. *)
Record App := {
  vault : list TAbstractFile;
  fileCache : nat -> nat -> CacheAnswer;
  linkpathDest : jsstring -> jsstring -> option nat;
  today : Date
}.

Definition with_vault (a : App) (v : list TAbstractFile) : App :=
  {| vault := v; fileCache := fileCache a;
     linkpathDest := linkpathDest a; today := today a |}.

(** The result of a call that may throw. *)
Inductive outcome (A : Type) :=
| Return (a : A)
| Throw (e : jsstring).
Arguments Return {A} a.
Arguments Throw {A} e.

(** [file.path] of the object [f]. *)
Definition path_of (a : App) (f : nat) : jsstring :=
  from_option path [] (vault a !! f).

(** [vault.getAbstractFileByPath(p)]: the object at [p], if any. *)
Definition getAbstractFileByPath (a : App) (p : jsstring)
    : option TAbstractFile :=
  List.find (fun f => JS.eqb (path f) p) (vault a).

(** [vault.createFolder(p)] *)
Definition createFolder (a : App) (p : jsstring) : outcome App :=
  Return (with_vault a (vault a ++ [{| path := p; kind := TFolder |}])).

(** [fileManager.renameFile(f, p)]: refuses an occupied destination,
    otherwise the object [f] gets the path [p]. *)
Definition renameFile (a : App) (f : nat) (p : jsstring) : outcome App :=
  match getAbstractFileByPath a p with
  | Some _ => Throw (str "Destination file already exists!")
  | None =>
      Return (with_vault a (<[f := {| path := p; kind := TFile |}]> (vault a)))
  end.

(** [vault.getMarkdownFiles()]: the files of the vault with the extension
    [md], here in the order of the vault. *)
Definition getMarkdownFiles (a : App) : list nat :=
  List.filter
    (fun i => match vault a !! i with
              | Some f => is_file f && JS.eqb (extension (path f)) (str "md")
              | None => false
              end)
    (seq 0 (length (vault a))).

End Host.

(** * The plugin (src/main.ts) *)

Module Plugin.
Import Chars JS Host.

(** ** Settings, src/main.ts 17-64 *)

Inductive ScopeMode := ScopeVault | ScopeInclude | ScopeExclude.
Inductive LocationMode := LocPattern | LocOriginal.

(** [locationMode] is absent from rules saved by older versions. *)
Record AttachmentRule := {
  id : jsstring;
  label : jsstring;
  extensions : list jsstring;
  namePattern : jsstring;
  pathPattern : jsstring;
  locationMode : option LocationMode
}.

Record PluginSettings := {
  scopeMode : ScopeMode;
  watchedPaths : list jsstring;
  rules : list AttachmentRule;
  defaultNamePattern : jsstring;
  defaultPathPattern : jsstring;
  enableAutoRename : bool;
  debounceDelay : nat
}.

Definition DEFAULT_SETTINGS : PluginSettings := {|
  scopeMode := ScopeVault;
  watchedPaths := [str "Projects/Active"];
  defaultNamePattern := str "${filename} ${original}";
  defaultPathPattern := str "./attachments";
  enableAutoRename := true;
  debounceDelay := 2000;
  rules := [
    {| id := str "default-image"; label := str "Images";
       extensions := map str ["png"; "jpg"; "jpeg"; "gif"; "webp"; "svg"; "bmp"]%string;
       namePattern := str "${filename} ${original}";
       pathPattern := str "./assets";
       locationMode := Some LocPattern |};
    {| id := str "default-pdf"; label := str "PDFs";
       extensions := [str "pdf"];
       namePattern := str "${filename} ${original}";
       pathPattern := str "Documents/Attachments";
       locationMode := Some LocPattern |}
  ]
|}.

(** [AttachmentInfo], src/main.ts 66-70: [file] is the file object. *)
Record AttachmentInfo := {
  file : nat;
  originalPath : jsstring;
  index : nat
}.

(** The plugin object: the host, the settings, the set of documents being
    processed and the registry of debouncers, which holds for a document
    path the debouncer object made for it. *)
Record Plugin := {
  app : App;
  settings : PluginSettings;
  isProcessing : gset jsstring;
  debouncers : gmap jsstring nat
}.

Definition with_app (p : Plugin) (a : App) : Plugin :=
  {| app := a; settings := settings p;
     isProcessing := isProcessing p; debouncers := debouncers p |}.

Definition with_isProcessing (p : Plugin) (s : gset jsstring) : Plugin :=
  {| app := app p; settings := settings p;
     isProcessing := s; debouncers := debouncers p |}.

Definition with_debouncers (p : Plugin) (d : gmap jsstring nat) : Plugin :=
  {| app := app p; settings := settings p;
     isProcessing := isProcessing p; debouncers := d |}.

(** ** Pure helpers *)

(** [isScopeValid], src/main.ts 379-393. *)
Definition isScopeValid (s : PluginSettings) (filePath : jsstring) : bool :=
  match scopeMode s with
  | ScopeVault => true
  | mode =>
      let normalizedFilePath := normalizePath filePath in
      let validWatchedPaths :=
        List.filter (fun p => negb (JS.eqb p []) && negb (JS.eqb p root))
                    (map normalizePath (watchedPaths s)) in
      match validWatchedPaths with
      | [] => true
      | _ =>
          let isMatch :=
            existsb (fun folder =>
                       JS.eqb normalizedFilePath folder
                       || startsWith (folder ++ str "/") normalizedFilePath)
                    validWatchedPaths in
          match mode with
          | ScopeInclude => isMatch
          | ScopeExclude => negb isMatch
          | ScopeVault => true
          end
      end
  end.

(** [getRuleForExtension], src/main.ts 395-400. *)
Definition getRuleForExtension (s : PluginSettings) (ext : jsstring)
    : option AttachmentRule :=
  let lowerExt := toLowerCase ext in
  List.find (fun r => existsb (fun e => JS.eqb (toLowerCase e) lowerExt)
                              (extensions r))
            (rules s).

(** [v || d] for a string that may be missing: the empty string is falsy. *)
Definition or_else (v : option jsstring) (d : jsstring) : jsstring :=
  match v with
  | Some ((_ :: _) as x) => x
  | _ => d
  end.

(** [applyVariables], src/main.ts 402-409: five global replacements, one
    after the other. *)
Definition applyVariables (pattern : jsstring) (vars : gmap string jsstring)
    : jsstring :=
  let s1 := replace_token (str "${filename}") (or_else (vars !! "filename"%string) (str "note")) pattern in
  let s2 := replace_token (str "${original}") (or_else (vars !! "original"%string) (str "file")) s1 in
  let s3 := replace_token (str "${extension}") (or_else (vars !! "extension"%string) []) s2 in
  let s4 := replace_token (str "${date}") (or_else (vars !! "date"%string) []) s3 in
  replace_token (str "${index}") (or_else (vars !! "index"%string) (str "01")) s4.

(** [getFormattedDate], src/main.ts 411-417. *)
Definition getFormattedDate (d : Date) : jsstring :=
  toString (fullYear d)
  ++ padStart2 (toString (month d + 1))
  ++ padStart2 (toString (date d)).

(** [sanitizeName], src/main.ts 419-421. *)
Definition sanitizeName (name : jsstring) : jsstring :=
  trim (replace_runs is_space (str " ")
          (replace_runs is_illegal (str "-") name)).

(** [getCleanOriginalName], src/main.ts 334-344.  The escaping of
    [oldNoteName] makes each of its characters stand for itself in the
    regular expression. *)
Definition getCleanOriginalName (currentBase : jsstring)
    (oldNoteName : option jsstring) : jsstring :=
  match oldNoteName with
  | None | Some [] => currentBase
  | Some old =>
      let clean :=
        if includes old currentBase
        then trim (replace_padded old (str " ") currentBase)
        else currentBase in
      match clean with
      | [] => str "Attachment"
      | _ => clean
      end
  end.

(** [resolveTargetPath], src/main.ts 346-355; [notePath] is the path of
    the document. *)
Definition resolveTargetPath (pathPattern notePath : jsstring) : jsstring :=
  if startsWith (str "./") pathPattern then
    let parent := parentPath notePath in
    let cleanRel := drop 2 pathPattern in
    if JS.eqb parent root then normalizePath cleanRel
    else normalizePath (parent ++ str "/" ++ cleanRel)
  else normalizePath pathPattern.

(** ** Collision resolver, src/main.ts 357-377 *)

Definition maxRetries : nat := 500.

(** The path tried for a suffix. *)
Definition suffixedPath (targetFolder baseName ext : jsstring) (suffix : nat)
    : jsstring :=
  normalizePath (targetFolder ++ str "/" ++ baseName ++ str " "
                 ++ toString suffix ++ str "." ++ ext).

(** The loop of [resolveCollision]; [fuel] is [maxRetries - suffix], the
    number of turns the condition [suffix < maxRetries] still allows. *)
Fixpoint resolveCollision_loop (a : App)
    (currentPath ext targetFolder baseName finalPath : jsstring)
    (suffix fuel : nat) : jsstring :=
  match fuel with
  | O => currentPath
  | S fuel' =>
      match getAbstractFileByPath a finalPath with
      | None => finalPath
      | Some existing =>
          if JS.eqb (path existing) currentPath then finalPath
          else
            resolveCollision_loop a currentPath ext targetFolder baseName
              (suffixedPath targetFolder baseName ext (S suffix))
              (S suffix) fuel'
      end
  end.

Definition resolveCollision (a : App) (desiredPath : jsstring)
    (currentFile : nat) (targetFolder baseName : jsstring) : jsstring :=
  let currentPath := path_of a currentFile in
  resolveCollision_loop a currentPath (extension currentPath)
    targetFolder baseName desiredPath 0 maxRetries.

(** [ensureFolderExists], src/main.ts 423-432. *)
Definition ensureFolderExists (a : App) (p : jsstring) : outcome App :=
  if JS.eqb p [] || JS.eqb p root || JS.eqb p (str ".") then Return a
  else
    let normalized := normalizePath p in
    match getAbstractFileByPath a normalized with
    | Some existing =>
        if is_file existing
        then Throw (str "Cannot create folder " ++ ["034"%char] ++ normalized
                    ++ ["034"%char]
                    ++ str " because a file exists with that name.")
        else Return a
    | None => createFolder a normalized
    end.

(** ** The reconciliation pass, src/main.ts 188-332 *)

Definition cachePolls : nat := 10.

(** Step 1, lines 194-204: the cache is asked once and then, while it is
    missing, up to [maxRetries = 10] more times; [fuel] is
    [maxRetries - retries]. *)
Fixpoint waitForCache (answers : nat -> CacheAnswer) (retries fuel : nat)
    : outcome (option CachedMetadata) :=
  match answers retries with
  | Fails e => Throw e
  | Indexed c => Return (Some c)
  | NotIndexed =>
      match fuel with
      | O => Return None
      | S fuel' => waitForCache answers (S retries) fuel'
      end
  end.

(** Lines 206-209. *)
Definition combinedReferences (c : CachedMetadata) : list Reference :=
  default [] (embeds c) ++ default [] (links c).

(** Step 2, lines 214-231: the targets among the references, from
    position [i] on. *)
Fixpoint gatherTargets (a : App) (notePath : jsstring)
    (refs : list Reference) (i : nat) : list AttachmentInfo :=
  match refs with
  | [] => []
  | ref :: rest =>
      let cleanLink := before_first "^"%char (before_first "#"%char (link ref)) in
      let found :=
        match linkpathDest a cleanLink notePath with
        | Some f =>
            match vault a !! f with
            | Some attachmentFile =>
                if is_file attachmentFile
                   && negb (JS.eqb (extension (path attachmentFile)) (str "md"))
                   && negb (JS.eqb (path attachmentFile) notePath)
                then [{| file := f; originalPath := path attachmentFile;
                         index := i |}]
                else []
            | None => []
            end
        | None => []
        end in
      found ++ gatherTargets a notePath rest (S i)
  end.

(** The state of the loop of step 3: the two sets of the pass, the
    counter and the plugin object (the loop renames files through it). *)
Record Pass := {
  processedPaths : gset jsstring;
  checkedFolders : gset jsstring;
  renameCount : nat;
  plugin : Plugin
}.

(** What the loop body decides for a target before it touches the vault:
    [continue] without a mark, [continue] after marking the path as
    processed, or a rename to [finalPath]. *)
Inductive Plan :=
| Skip
| InPlace
| Move (finalPath targetFolderPath : jsstring) (mode : LocationMode).

(** Lines 258-266: the variables of the name pattern. *)
Definition variables (a : App) (notePath attachmentPath : jsstring)
    (oldNoteName : option jsstring) (index : nat) : gmap string jsstring :=
  let cleanOriginalBase :=
    getCleanOriginalName (basename attachmentPath) oldNoteName in
  <["filename"%string := basename notePath]>
  (<["original"%string := cleanOriginalBase]>
  (<["extension"%string := extension attachmentPath]>
  (<["date"%string := getFormattedDate (today a)]>
  (<["index"%string := padStart2 (toString (index + 1))]> ∅)))).

(** Lines 268-269. *)
Definition newBaseName (namePattern : jsstring) (vars : gmap string jsstring)
    : jsstring :=
  match sanitizeName (applyVariables namePattern vars) with
  | [] => str "attachment"
  | b => b
  end.

(** Lines 273-282. *)
Definition targetFolderPath (mode : LocationMode)
    (pathPattern notePath attachmentPath : jsstring) : jsstring :=
  match mode with
  | LocOriginal => parentPath attachmentPath
  | LocPattern => resolveTargetPath pathPattern notePath
  end.

(** Lines 258-301, for the patterns and the mode in force. *)
Definition planWith (a : App) (noteFile : nat) (oldNoteName : option jsstring)
    (t : AttachmentInfo) (namePattern pathPattern : jsstring)
    (mode : LocationMode) : Plan :=
  let notePath := path_of a noteFile in
  let attachmentPath := path_of a (file t) in
  let base :=
    newBaseName namePattern
      (variables a notePath attachmentPath oldNoteName (index t)) in
  let newFileName := base ++ str "." ++ extension attachmentPath in
  let folder := targetFolderPath mode pathPattern notePath attachmentPath in
  let desiredPath := normalizePath (folder ++ str "/" ++ newFileName) in
  if JS.eqb desiredPath attachmentPath then InPlace
  else
    let finalPath := resolveCollision a desiredPath (file t) folder base in
    if JS.eqb finalPath attachmentPath then InPlace
    else Move finalPath folder mode.

(** Lines 244-256: the target must still be in the vault; a rule for its
    extension gives the patterns and the mode, and without one the
    defaults apply only when no rule is configured at all. *)
Definition planTarget (p : Plugin) (noteFile : nat)
    (oldNoteName : option jsstring) (t : AttachmentInfo) : Plan :=
  let attachmentPath := path_of (app p) (file t) in
  match getAbstractFileByPath (app p) attachmentPath with
  | None => Skip
  | Some _ =>
      match getRuleForExtension (settings p) (extension attachmentPath) with
      | Some rule =>
          planWith (app p) noteFile oldNoteName t
            (namePattern rule) (pathPattern rule)
            (default LocPattern (locationMode rule))
      | None =>
          match rules (settings p) with
          | _ :: _ => Skip
          | [] =>
              planWith (app p) noteFile oldNoteName t
                (defaultNamePattern (settings p))
                (defaultPathPattern (settings p)) LocPattern
          end
      end
  end.

(** Lines 303-318: the guarded rename.  A failure leaves the counter and
    the processed paths alone; what was done before it stays done. *)
Definition renameTarget (st : Pass) (t : AttachmentInfo)
    (finalPath folder : jsstring) (mode : LocationMode) : Pass :=
  let p := plugin st in
  let unchecked :=
    bool_decide (folder ∉ checkedFolders st)
    && match mode with LocOriginal => false | LocPattern => true end in
  match (if unchecked then ensureFolderExists (app p) folder
         else Return (app p)) with
  | Throw _ => st
  | Return a1 =>
      let checked :=
        if unchecked then {[folder]} ∪ checkedFolders st
        else checkedFolders st in
      match renameFile a1 (file t) finalPath with
      | Throw _ =>
          {| processedPaths := processedPaths st; checkedFolders := checked;
             renameCount := renameCount st; plugin := with_app p a1 |}
      | Return a2 =>
          {| processedPaths := {[finalPath]} ∪ processedPaths st;
             checkedFolders := checked;
             renameCount := S (renameCount st); plugin := with_app p a2 |}
      end
  end.

(** One turn of the loop of step 3, lines 241-319. *)
Definition processTarget (noteFile : nat) (oldNoteName : option jsstring)
    (st : Pass) (t : AttachmentInfo) : Pass :=
  let attachmentPath := path_of (app (plugin st)) (file t) in
  if bool_decide (attachmentPath ∈ processedPaths st) then st
  else
    match planTarget (plugin st) noteFile oldNoteName t with
    | Skip => st
    | InPlace =>
        {| processedPaths := {[attachmentPath]} ∪ processedPaths st;
           checkedFolders := checkedFolders st;
           renameCount := renameCount st; plugin := plugin st |}
    | Move finalPath folder mode => renameTarget st t finalPath folder mode
    end.

(** The states the loop goes through, the first one included. *)
Fixpoint passStates (noteFile : nat) (oldNoteName : option jsstring)
    (st : Pass) (targets : list AttachmentInfo) : list Pass :=
  st :: match targets with
        | [] => []
        | t :: rest =>
            passStates noteFile oldNoteName
              (processTarget noteFile oldNoteName st t) rest
        end.

Definition processTargets (noteFile : nat) (oldNoteName : option jsstring)
    (st : Pass) (targets : list AttachmentInfo) : Pass :=
  fold_left (processTarget noteFile oldNoteName) targets st.

Definition startPass (p : Plugin) : Pass :=
  {| processedPaths := ∅; checkedFolders := ∅; renameCount := 0;
     plugin := p |}.

(** The targets of a document whose cache is [c]. *)
Definition targetsOf (p : Plugin) (noteFile : nat) (c : CachedMetadata)
    : list AttachmentInfo :=
  gatherTargets (app p) (path_of (app p) noteFile) (combinedReferences c) 0.

(** The body of the [try] block, lines 193-324: the count, or the
    exception that leaves the block, and the plugin after it. *)
Definition tryBlock (p : Plugin) (noteFile : nat)
    (oldNoteName : option jsstring) : outcome nat * Plugin :=
  match waitForCache (fileCache (app p) noteFile) 0 cachePolls with
  | Throw e => (Throw e, p)
  | Return None => (Return 0, p)
  | Return (Some cache) =>
      match combinedReferences cache with
      | [] => (Return 0, p)
      | _ =>
          match targetsOf p noteFile cache with
          | [] => (Return 0, p)
          | targets =>
              let st := processTargets noteFile oldNoteName (startPass p) targets in
              (Return (renameCount st), plugin st)
          end
      end
  end.

(** [processNoteAttachments], lines 188-332: the guard, the [try] block,
    the [catch] that turns an exception into 0 and the [finally] that
    takes the document path out of the set. *)
Definition processNoteAttachments (p : Plugin) (noteFile : nat)
    (oldNoteName : option jsstring) : nat * Plugin :=
  let notePath := path_of (app p) noteFile in
  if bool_decide (notePath ∈ isProcessing p) then (0, p)
  else
    let p1 := with_isProcessing p ({[notePath]} ∪ isProcessing p) in
    let '(r, p2) := tryBlock p1 noteFile oldNoteName in
    let count := match r with Return n => n | Throw _ => 0 end in
    (count,
     with_isProcessing p2 (isProcessing p2 ∖ {[path_of (app p2) noteFile]})).

(** ** The pass among the other events, src/main.ts 188-332

    [processNoteAttachments] is an async function: while it waits at an
    [await] the application goes on, and the user can rename a file.  The
    definitions above take a pass during which nothing else happens.  The
    ones below let the rest of the application work during the waits of
    step 1 (line 199, a timer of 100 ms): [others n] is what happens to
    the plugin object, the vault included, during the wait that follows
    poll number [n].  Step 3 is taken without a break, as above. *)

(** Lines 194-204, with the waits. *)
Fixpoint waitForCacheAmid (others : nat -> Plugin -> Plugin) (noteFile : nat)
    (p : Plugin) (retries fuel : nat)
    : outcome (option CachedMetadata) * Plugin :=
  match fileCache (app p) noteFile retries with
  | Fails e => (Throw e, p)
  | Indexed c => (Return (Some c), p)
  | NotIndexed =>
      match fuel with
      | O => (Return None, p)
      | S fuel' =>
          waitForCacheAmid others noteFile (others retries p) (S retries) fuel'
      end
  end.

(** Lines 193-324: the [try] block, on the plugin the waits have left. *)
Definition tryBlockAmid (others : nat -> Plugin -> Plugin) (p : Plugin)
    (noteFile : nat) (oldNoteName : option jsstring) : outcome nat * Plugin :=
  match waitForCacheAmid others noteFile p 0 cachePolls with
  | (Throw e, q) => (Throw e, q)
  | (Return None, q) => (Return 0, q)
  | (Return (Some cache), q) =>
      match combinedReferences cache with
      | [] => (Return 0, q)
      | _ =>
          match targetsOf q noteFile cache with
          | [] => (Return 0, q)
          | targets =>
              let st := processTargets noteFile oldNoteName (startPass q) targets in
              (Return (renameCount st), plugin st)
          end
      end
  end.

(** Lines 188-332: line 190 puts the path the document has at the call
    into the set, and line 330 takes out the path the document has at
    the end. *)
Definition processNoteAttachmentsAmid (others : nat -> Plugin -> Plugin)
    (p : Plugin) (noteFile : nat) (oldNoteName : option jsstring)
    : nat * Plugin :=
  let notePath := path_of (app p) noteFile in
  if bool_decide (notePath ∈ isProcessing p) then (0, p)
  else
    let p1 := with_isProcessing p ({[notePath]} ∪ isProcessing p) in
    let '(r, p2) := tryBlockAmid others p1 noteFile oldNoteName in
    let count := match r with Return n => n | Throw _ => 0 end in
    (count,
     with_isProcessing p2 (isProcessing p2 ∖ {[path_of (app p2) noteFile]})).

(** The user renames the object [f] to [newPath]; the host refuses a
    path that is occupied. *)
Definition renamedMeanwhile (f : nat) (newPath : jsstring) (p : Plugin)
    : Plugin :=
  match renameFile (app p) f newPath with
  | Return a => with_app p a
  | Throw _ => p
  end.

(** ** The debounce scheduler, src/main.ts 147-163

    [debounce(cb, timeout, true)] of the host makes a debouncer object:
    a call stores its arguments and (re)starts the timer, so the
    callback runs once, [timeout] after the last call, with the last
    arguments.  The objects live in the runtime, named by position; the
    registry of the plugin holds one per document path. *)

Record Debouncer := {
  timeout : nat;
  pending : option (nat * (nat * option jsstring))
}.

Record Runtime := {
  this : Plugin;
  objects : list Debouncer;
  now : nat
}.

(** A call [debouncer(file, oldNoteName)] of the object [d]. *)
Definition callDebouncer (d : nat) (f : nat) (oldName : option jsstring)
    (rt : Runtime) : Runtime :=
  match objects rt !! d with
  | None => rt
  | Some o =>
      {| this := this rt;
         objects := <[d := {| timeout := timeout o;
                              pending := Some (now rt + timeout o, (f, oldName)) |}]>
                      (objects rt);
         now := now rt |}
  end.

(** [triggerDebouncedProcessing], lines 147-163. *)
Definition triggerDebouncedProcessing (f : nat) (oldNoteName : jsstring)
    (rt : Runtime) : Runtime :=
  let key := path_of (app (this rt)) f in
  match debouncers (this rt) !! key with
  | Some d => callDebouncer d f (Some oldNoteName) rt
  | None =>
      let d := length (objects rt) in
      callDebouncer d f (Some oldNoteName)
        {| this := with_debouncers (this rt) (<[key := d]> (debouncers (this rt)));
           objects := objects rt
                      ++ [{| timeout := debounceDelay (settings (this rt));
                             pending := None |}];
           now := now rt |}
  end.

(** The callback of a debouncer, lines 152-155: the pass, then the entry
    of the document path leaves the registry.  The pass is not awaited:
    the path is read before the pass renames anything. *)
Definition debouncedCallback (f : nat) (oldName : option jsstring)
    (p : Plugin) : Plugin :=
  let key := path_of (app p) f in
  let p' := snd (processNoteAttachments p f oldName) in
  with_debouncers p' (delete key (debouncers p')).

(** The object whose timer is due first, among the objects from
    position [i] on: the earliest deadline, the first object on a tie. *)
Fixpoint nextDue (now : nat) (objs : list Debouncer) (i : nat)
    : option (nat * nat) :=
  match objs with
  | [] => None
  | o :: rest =>
      let later := nextDue now rest (S i) in
      match pending o with
      | Some (deadline, _) =>
          if deadline <=? now then
            match later with
            | Some (deadline', j) =>
                if deadline' <? deadline then later else Some (deadline, i)
            | None => Some (deadline, i)
            end
          else later
      | None => later
      end
  end.

(** The timer of the object [d] fires: the object is idle again and its
    callback runs with the stored arguments. *)
Definition fire (d : nat) (rt : Runtime) : option (nat * option jsstring) * Runtime :=
  match objects rt !! d with
  | Some {| timeout := t; pending := Some (_, (f, oldName)) |} =>
      (Some (f, oldName),
       {| this := debouncedCallback f oldName (this rt);
          objects := <[d := {| timeout := t; pending := None |}]> (objects rt);
          now := now rt |})
  | _ => (None, rt)
  end.

(** The timers that are due fire, one after the other; a pass starts no
    timer, so [fuel], the number of objects, is enough.  The result
    lists the calls of the callback. *)
Fixpoint runDue (fuel : nat) (rt : Runtime)
    : list (nat * option jsstring) * Runtime :=
  match fuel with
  | O => ([], rt)
  | S fuel' =>
      match nextDue (now rt) (objects rt) 0 with
      | None => ([], rt)
      | Some (_, d) =>
          let '(call, rt1) := fire d rt in
          let '(calls, rt2) := runDue fuel' rt1 in
          (match call with Some c => [c] | None => [] end ++ calls, rt2)
      end
  end.

(** [dt] milliseconds pass. *)
Definition advance (dt : nat) (rt : Runtime)
    : list (nat * option jsstring) * Runtime :=
  runDue (length (objects rt))
    {| this := this rt; objects := objects rt; now := now rt + dt |}.

(** A burst of rename events for the document [f]: each event comes
    [gap] milliseconds after the one before it. *)
Fixpoint burst (f : nat) (events : list (nat * jsstring)) (rt : Runtime)
    : list (nat * option jsstring) * Runtime :=
  match events with
  | [] => ([], rt)
  | (gap, oldName) :: rest =>
      let '(calls1, rt1) := advance gap rt in
      let '(calls2, rt2) := burst f rest (triggerDebouncedProcessing f oldName rt1) in
      (calls1 ++ calls2, rt2)
  end.

(** ** The rename event and the commands, src/main.ts 81-183 *)

(** [getFileNameFromPath], src/main.ts 141-145. *)
Definition getFileNameFromPath (p : jsstring) : jsstring :=
  let parts := split "/"%char p in
  let fileNameWithExt := List.last parts [] in
  remove_suffix (str ".md") fileNameWithExt.

(** The handler of the [rename] event of the vault, lines 118-127.  The
    host has renamed the object [f] when the event comes: [f] has its new
    path, and [oldPath] is the path it had. *)
Definition onRename (f : nat) (oldPath : jsstring) (rt : Runtime) : Runtime :=
  if negb (enableAutoRename (settings (this rt))) then rt
  else
    match vault (app (this rt)) !! f with
    | Some x =>
        if is_file x && JS.eqb (extension (path x)) (str "md") then
          if isScopeValid (settings (this rt)) (path x) then
            let oldNoteName := getFileNameFromPath oldPath in
            triggerDebouncedProcessing f oldNoteName rt
          else rt
        else rt
    | None => rt
    end.

(** [debouncer.cancel()]: the pending call, if any, is dropped. *)
Definition cancel (o : Debouncer) : Debouncer :=
  {| timeout := timeout o; pending := None |}.

(** [onunload], lines 133-139: every debouncer of the registry is
    cancelled, and the registry and the set of documents being processed
    are emptied. *)
Definition onunload (rt : Runtime) : Runtime :=
  {| this := {| app := app (this rt); settings := settings (this rt);
                isProcessing := ∅; debouncers := ∅ |};
     objects := map_fold (fun _ d objs => alter cancel d objs)
                  (objects rt) (debouncers (this rt));
     now := now rt |}.

(** The notices of [processAllNotesInScope], by their text: the one of
    line 170, the one of line 174 with the number of documents, and the
    one of line 182 with the number of documents and of renames. *)
Inductive Notice :=
| NoNotesFound
| ProcessingNotes (notes : nat)
| ProcessedNotes (notes totalRenamed : nat).

(** [processAllNotesInScope], lines 165-183: the notices shown and the
    plugin afterwards.  Each pass is awaited before the next starts. *)
Definition processAllNotesInScope (p : Plugin) : list Notice * Plugin :=
  let allFiles := getMarkdownFiles (app p) in
  let filesInScope :=
    List.filter (fun f => isScopeValid (settings p) (path_of (app p) f))
                allFiles in
  match filesInScope with
  | [] => ([NoNotesFound], p)
  | _ =>
      let '(totalRenamed, p') :=
        fold_left
          (fun (acc : nat * Plugin) f =>
             let '(count, q) := processNoteAttachments (snd acc) f None in
             (fst acc + count, q))
          filesInScope (0, p) in
      ([ProcessingNotes (length filesInScope);
        ProcessedNotes (length filesInScope) totalRenamed], p')
  end.

(** ** Settings, src/main.ts 434-449 *)

(** The data of the plugin as the host keeps them: an object with the
    fields of the settings that were saved, or nothing at all. *)
Record SettingsData := {
  savedScopeMode : option ScopeMode;
  savedWatchedPaths : option (list jsstring);
  savedRules : option (list AttachmentRule);
  savedDefaultNamePattern : option jsstring;
  savedDefaultPathPattern : option jsstring;
  savedEnableAutoRename : option bool;
  savedDebounceDelay : option nat
}.

(** Lines 439-442: a rule loaded without a location mode gets
    [pattern]. *)
Definition withLocationMode (r : AttachmentRule) : AttachmentRule :=
  {| id := id r; label := label r; extensions := extensions r;
     namePattern := namePattern r; pathPattern := pathPattern r;
     locationMode := Some (default LocPattern (locationMode r)) |}.

(** [loadSettings], lines 434-445: the settings for the data [loaded]
    that [loadData] gives. *)
Definition loadSettings (loaded : option SettingsData) : PluginSettings :=
  let field {A} (get : SettingsData -> option A) (d : PluginSettings -> A) : A :=
    default (d DEFAULT_SETTINGS) (loaded ≫= get) in
  {| scopeMode := field savedScopeMode scopeMode;
     watchedPaths := field savedWatchedPaths watchedPaths;
     rules :=
       match loaded ≫= savedRules with
       | Some rs => map withLocationMode rs
       | None => rules DEFAULT_SETTINGS
       end;
     defaultNamePattern := field savedDefaultNamePattern defaultNamePattern;
     defaultPathPattern := field savedDefaultPathPattern defaultPathPattern;
     enableAutoRename := field savedEnableAutoRename enableAutoRename;
     debounceDelay := field savedDebounceDelay debounceDelay |}.

(** [saveSettings], lines 447-449: the data given to [saveData]. *)
Definition saveSettings (s : PluginSettings) : SettingsData :=
  {| savedScopeMode := Some (scopeMode s);
     savedWatchedPaths := Some (watchedPaths s);
     savedRules := Some (rules s);
     savedDefaultNamePattern := Some (defaultNamePattern s);
     savedDefaultPathPattern := Some (defaultPathPattern s);
     savedEnableAutoRename := Some (enableAutoRename s);
     savedDebounceDelay := Some (debounceDelay s) |}.

Definition with_settings (p : Plugin) (s : PluginSettings) : Plugin :=
  {| app := app p; settings := s;
     isProcessing := isProcessing p; debouncers := debouncers p |}.

(** ** The settings tab, src/main.ts 462-590 *)

(** Line 514: the text shown for the watched folders, and line 516: the
    folders kept when the text is edited. *)
Definition shownWatchedPaths (watched : list jsstring) : jsstring :=
  join_with ["010"%char] watched.

Definition editedWatchedPaths (val : jsstring) : list jsstring :=
  List.filter (fun x => negb (JS.eqb x []))
              (map trim (split "010"%char val)).

(** Lines 542-543: the same for the extensions of a rule. *)
Definition shownExtensions (exts : list jsstring) : jsstring :=
  join_with (str ", ") exts.

Definition editedExtensions (v : jsstring) : list jsstring :=
  List.filter (fun e => negb (JS.eqb e []))
              (map trim (split ","%char v)).

(** A file is renamed in the host, by the user or by another plugin: the
    host gives the object [f] the path [newPath] (it refuses a path that
    is occupied) and then raises the rename event with the path the
    object had. *)
Definition renamedInHost (f : nat) (newPath : jsstring) (rt : Runtime)
    : Runtime :=
  let oldPath := path_of (app (this rt)) f in
  match renameFile (app (this rt)) f newPath with
  | Throw _ => rt
  | Return a =>
      onRename f oldPath
        {| this := with_app (this rt) a; objects := objects rt; now := now rt |}
  end.

End Plugin.

(** * The specification's wording, as definitions

  Where the specification describes a function by what it does to the
  text, the description is written down here and compared with the
  function of the source. *)

Module Spec.
Import Chars JS Host Plugin.

(** The maximal runs of a text for a class: each run is tagged with
    whether its characters are in the class. *)
Fixpoint runs (cls : ascii -> bool) (s : jsstring) : list (bool * jsstring) :=
  match s with
  | [] => []
  | c :: s' =>
      match runs cls s' with
      | (b, run) :: rest =>
          if Bool.eqb b (cls c) then (b, c :: run) :: rest
          else (cls c, [c]) :: (b, run) :: rest
      | [] => [(cls c, [c])]
      end
  end.

(** Every maximal run of class characters is replaced by [r]. *)
Definition squash (cls : ascii -> bool) (r s : jsstring) : jsstring :=
  List.flat_map (fun br : bool * jsstring => if fst br then r else snd br)
    (runs cls s).

(** section 4.3, [sanitize]: every run of illegal characters becomes a
    single hyphen, whitespace runs collapse to a single space, and the
    result is trimmed. *)
Definition sanitize (name : jsstring) : jsstring :=
  trim (squash is_space (str " ") (squash is_illegal (str "-") name)).

(** Whether the text starts with a character of the class. *)
Definition starts_in (cls : ascii -> bool) (s : jsstring) : bool :=
match s with c :: _ => cls c | [] => false end.

(** Neighbouring runs are tagged differently. *)
Fixpoint alternating (l : list (bool * jsstring)) : Prop :=
match l with
| br :: ((br' :: _) as rest) => fst br <> fst br' /\ alternating rest
| _ => True
end.

(** section 4.3, [expand]: the five placeholder tokens with the values in
    force, a value that is missing or empty giving way to its fallback. *)
Definition placeholders (vars : gmap string jsstring)
  : list (jsstring * jsstring) :=
[ (str "${filename}", or_else (vars !! "filename"%string) (str "note"));
  (str "${original}", or_else (vars !! "original"%string) (str "file"));
  (str "${extension}", or_else (vars !! "extension"%string) []);
  (str "${date}", or_else (vars !! "date"%string) []);
  (str "${index}", or_else (vars !! "index"%string) (str "01")) ].

(** The entry of the table whose token the text starts with. *)
Definition token_at (table : list (jsstring * jsstring)) (s : jsstring)
  : option (jsstring * jsstring) :=
List.find (fun tv => startsWith (fst tv) s) table.

(** The expansion in one pass over the pattern: where a token of the
    table starts, its value is written and the token passed over ([skip]
    counts what is left of it); every other character is copied. *)
Fixpoint expand_from (table : list (jsstring * jsstring)) (skip : nat)
  (s : jsstring) : jsstring :=
match s with
| [] => []
| c :: s' =>
    match skip with
    | S n => expand_from table n s'
    | O =>
        match token_at table s with
        | Some (tok, v) => v ++ expand_from table (length tok - 1) s'
        | None => c :: expand_from table 0 s'
        end
    end
end.

Definition expand (pattern : jsstring) (vars : gmap string jsstring)
  : jsstring :=
expand_from (placeholders vars) 0 pattern.

(** A text without a dollar sign. *)
Definition dollar_free (v : jsstring) : bool :=
forallb (fun c => negb (is_char "$"%char c)) v.

(** The replacement of a literal token by a text that is copied as it is,
    which is what [replace_token] does for a text without dollar signs. *)
Fixpoint replace_literal_from (tok v : jsstring) (skip : nat) (s : jsstring)
  : jsstring :=
match s with
| [] => []
| c :: s' =>
    match skip with
    | S n => replace_literal_from tok v n s'
    | O =>
        if startsWith tok s
        then v ++ replace_literal_from tok v (length tok - 1) s'
        else c :: replace_literal_from tok v 0 s'
    end
end.

(** Every dollar sign of the text is followed by a closing brace before
    the next dollar sign; [open] says that a dollar sign waits for its
    brace. *)
Fixpoint dollars_closed_from (open : bool) (s : jsstring) : bool :=
match s with
| [] => negb open
| c :: s' =>
    if is_char "$"%char c then negb open && dollars_closed_from true s'
    else if is_char "}"%char c then dollars_closed_from false s'
    else dollars_closed_from open s'
end.

Definition dollars_closed (s : jsstring) : bool := dollars_closed_from false s.

(** A character that is neither a dollar sign nor a closing brace. *)
Definition is_plain (c : ascii) : bool :=
negb (is_char "$"%char c) && negb (is_char "}"%char c).

(** A dollar sign, characters that are neither a dollar sign nor a closing
    brace, and a closing brace: the shape of a placeholder token. *)
Definition braced (body : jsstring) : jsstring :=
"$"%char :: body ++ ["}"%char].

(** The replacements of a table, one after the other, each copying its
    value as it is. *)
Definition stages (table : list (jsstring * jsstring)) (s : jsstring)
  : jsstring :=
fold_left (fun s tv => replace_literal_from (fst tv) (snd tv) 0 s) table s.

(** A table of distinct tokens, each of the shape [braced], with values
    that have no dollar sign. *)
Definition well_formed (table : list (jsstring * jsstring)) : Prop :=
Forall (fun tv => (exists body, fst tv = braced body
                                /\ forallb is_plain body = true)
                  /\ dollar_free (snd tv) = true) table
/\ NoDup (map fst table).

(** section 4.4: a path is safe for the file at [currentPath] when nothing
    is there or the file itself is. *)
Definition free_or_self (a : App) (currentPath p : jsstring) : bool :=
match getAbstractFileByPath a p with
| None => true
| Some existing => JS.eqb (path existing) currentPath
end.

(** section 4.4: the paths the resolver tries, in order: the desired path,
    then the suffixes from 1 on, [maxRetries] paths in all. *)
Definition candidates (desiredPath targetFolder baseName ext : jsstring)
  : list jsstring :=
desiredPath
:: map (suffixedPath targetFolder baseName ext) (seq 1 (maxRetries - 1)).

(** What a turn of the loop leaves alone: everything of the plugin but
    the vault. *)
Definition same_but_vault (p p' : Plugin) : Prop :=
settings p' = settings p /\ isProcessing p' = isProcessing p
/\ debouncers p' = debouncers p
/\ fileCache (app p') = fileCache (app p)
/\ linkpathDest (app p') = linkpathDest (app p)
/\ today (app p') = today (app p).

(** In the vault every object but [i] is as before, and [i] stays an
    object. *)
Definition vault_kept_but (i : nat) (v v' : list TAbstractFile) : Prop :=
(forall j f, j <> i -> v !! j = Some f -> v' !! j = Some f)
/\ (is_Some (v !! i) -> is_Some (v' !! i)).

(** A target is settled when the loop body plans no rename for it: it is
    skipped, or it is at the path its templates give, or the collision
    resolver sends it back to its current path. *)
Definition settled (p : Plugin) (noteFile : nat)
  (oldNoteName : option jsstring) (t : AttachmentInfo) : bool :=
match planTarget p noteFile oldNoteName t with
| Move _ _ _ => false
| _ => true
end.

(** A text without a slash or a backslash, and a text without a dot. *)
Definition slash_free (s : jsstring) : bool :=
forallb (fun c => negb (is_slash c)) s.

Definition dot_free (s : jsstring) : bool :=
forallb (fun c => negb (is_char "."%char c)) s.

(** A segment of a path: not empty, and without a slash. *)
Definition is_segment (s : jsstring) : Prop :=
s <> [] /\ slash_free s = true.

(** A debouncer without a pending timer. *)
Definition idle (o : Debouncer) : Prop := pending o = None.

(** The runtime once the document [f] has been triggered from [rt]: its
    path is in the registry with a new debouncer object, and that object
    waits until [deadline] with the last old name. *)
Definition armed (rt : Runtime) (f : nat) (oldName : jsstring)
  (deadline now' : nat) : Runtime :=
let key := path_of (app (this rt)) f in
{| this := with_debouncers (this rt)
             (<[key := length (objects rt)]> (debouncers (this rt)));
   objects := objects rt
              ++ [{| timeout := debounceDelay (settings (this rt));
                     pending := Some (deadline, (f, Some oldName)) |}];
   now := now' |}.

(** The old name of the last event of a burst. *)
Definition lastOldName (first : jsstring) (events : list (nat * jsstring))
  : jsstring :=
List.last (map snd events) first.

(** The number of debouncer objects with a pending timer. *)
Definition pendingCount (rt : Runtime) : nat :=
length (List.filter (fun o => bool_decide (is_Some (pending o))) (objects rt)).

End Spec.

(** * Notions for the further properties

  What the properties beyond the specification are stated with. *)

Module Notions.
Import Chars JS Host Plugin.

(** Whether the segments of a folder are the first segments of [l]. *)
Fixpoint begins (folder l : list jsstring) : bool :=
match folder, l with
| [], _ => true
| _ :: _, [] => false
| x :: folder', y :: l' => JS.eqb x y && begins folder' l'
end.

(** The scope in terms of folders.  A watched path counts when it has a
    segment; a file is inside a watched folder when the segments of the
    folder are the first segments of its path. *)
Definition inScope (s : PluginSettings) (filePath : jsstring) : bool :=
match scopeMode s with
| ScopeVault => true
| mode =>
    match List.filter (fun w => negb (bool_decide (w = [])))
                      (map segments (watchedPaths s)) with
    | [] => true
    | folders =>
        let inside :=
          existsb (fun w => begins w (segments filePath)) folders in
        match mode with
        | ScopeInclude => inside
        | ScopeExclude => negb inside
        | ScopeVault => true
        end
    end
end.

(** The objects of the vault of [a] that have another path in [a']. *)
Definition moved (a a' : App) : list nat :=
List.filter (fun i => negb (JS.eqb (path_of a i) (path_of a' i)))
            (seq 0 (length (vault a))).

(** The files a pass over the document [noteFile] takes as targets. *)
Definition targetFiles (p : Plugin) (noteFile : nat) : list nat :=
match waitForCache (fileCache (app p) noteFile) 0 cachePolls with
| Return (Some cache) => map file (targetsOf p noteFile cache)
| _ => []
end.

(** The decimal digit for a number below ten. *)
Definition digit (n : nat) : ascii := ascii_of_nat (48 + n).

(** A rule lists an extension when one of its extensions is the same
    text, letter case apart. *)
Definition lists (r : AttachmentRule) (ext : jsstring) : Prop :=
exists e, In e (extensions r) /\ toLowerCase e = toLowerCase ext.

(** What a pass, or a run of passes, keeps of a vault: every object stays
    where it is in the list of objects, with its kind and its extension;
    a folder and a markdown file stay as they are; and the objects that
    come after the old ones are folders. *)
Definition vault_kept (v v' : list TAbstractFile) : Prop :=
length v <= length v'
/\ (forall i x, v !! i = Some x ->
      exists x', v' !! i = Some x' /\ kind x' = kind x
                 /\ extension (path x') = extension (path x)
                 /\ (kind x = TFolder \/ extension (path x) = str "md" ->
                     x' = x))
/\ (forall i x', length v <= i -> v' !! i = Some x' -> kind x' = TFolder).

(** Lines 251-256: the name pattern, the path pattern and the location
    mode in force for an extension. *)
Definition inForce (s : PluginSettings) (ext : jsstring)
  : jsstring * jsstring * LocationMode :=
match getRuleForExtension s ext with
| Some rule => (namePattern rule, pathPattern rule,
                default LocPattern (locationMode rule))
| None => (defaultNamePattern s, defaultPathPattern s, LocPattern)
end.

(** A text in which white space is single spaces: every white-space
    character is a space, and no two are next to each other. *)
Fixpoint spaced (s : jsstring) : bool :=
match s with
| [] => true
| c :: s' =>
    (negb (is_space c)
     || (is_char " "%char c && negb (Spec.starts_in is_space s')))
    && spaced s'
end.

(** The passes of a run over the documents [notes], one after the other,
    each without an old name and on the plugin the pass before has left:
    the count of each pass, and the plugin after the last. *)
Fixpoint passes (p : Plugin) (notes : list nat) : list nat * Plugin :=
match notes with
| [] => ([], p)
| f :: rest =>
    let '(count, q) := processNoteAttachments p f None in
    let '(counts, r) := passes q rest in
    (count :: counts, r)
end.

(** What lines 152-155 do to the plugin when the timer of a debouncer
    fires for the document [f], which is then at [notePath]: the pass
    over [f] with the old name [oldName], and the entry of [notePath]
    out of the registry. *)
Definition afterPass (f : nat) (oldName : jsstring) (notePath : jsstring)
  (p : Plugin) : Plugin :=
let q := snd (processNoteAttachments p f (Some oldName)) in
with_debouncers q (delete notePath (debouncers q)).

(** The texts without the character [c]. *)
Definition without (c : ascii) (e : jsstring) : bool :=
forallb (fun y => negb (is_char c y)) e.

End Notions.

(** * Example vaults *)

Module Example.
Import Chars JS Host Plugin.

Definition january5 : Date := {| fullYear := 2026; month := 0; date := 5 |}.

(** A document at the root that embeds one picture; the plugin has the
    default settings. *)
Definition notePic : App := {|
  vault := [ {| path := str "Note.md"; kind := TFile |};
             {| path := str "pic.png"; kind := TFile |} ];
  fileCache := fun f _ =>
    match f with
    | 0 => Indexed {| embeds := Some [ {| link := str "pic.png" |} ];
                      links := None |}
    | _ => NotIndexed
    end;
  linkpathDest := fun l _ =>
    if JS.eqb l (str "pic.png") then Some 1 else None;
  today := january5
|}.

Definition defaultPlugin : Plugin :=
{| app := notePic; settings := DEFAULT_SETTINGS;
   isProcessing := ∅; debouncers := ∅ |}.

(** A document that embeds two pictures, and a rule that names every
    picture after the document. *)
Definition noteTwoPics : App := {|
  vault := [ {| path := str "Note.md"; kind := TFile |};
             {| path := str "a.png"; kind := TFile |};
             {| path := str "b.png"; kind := TFile |} ];
  fileCache := fun f _ =>
    match f with
    | 0 => Indexed {| embeds := Some [ {| link := str "a.png" |};
                                       {| link := str "b.png" |} ];
                      links := None |}
    | _ => NotIndexed
    end;
  linkpathDest := fun l _ =>
    if JS.eqb l (str "a.png") then Some 1
    else if JS.eqb l (str "b.png") then Some 2 else None;
  today := january5
|}.

Definition pngRule (pattern : string) (mode : LocationMode) : AttachmentRule :=
{| id := str "png"; label := str "Pictures"; extensions := [str "png"];
   namePattern := str pattern; pathPattern := str "./assets";
   locationMode := Some mode |}.

Definition settingsWith (rule : AttachmentRule) : PluginSettings :=
{| scopeMode := ScopeVault; watchedPaths := [];
   rules := [rule];
   defaultNamePattern := str "${filename} ${original}";
   defaultPathPattern := str "./attachments";
   enableAutoRename := true; debounceDelay := 2000 |}.

Definition namedAfterNote : Plugin :=
{| app := noteTwoPics;
   settings := settingsWith (pngRule "${filename}" LocPattern);
   isProcessing := ∅; debouncers := ∅ |}.

(** A document that embeds a picture of the root and one that is in the
    assets folder already, and a rule that names pictures by their
    position in the document. *)
Definition noteIndexedPics : App := {|
  vault := [ {| path := str "Note.md"; kind := TFile |};
             {| path := str "a.png"; kind := TFile |};
             {| path := str "assets/01.png"; kind := TFile |};
             {| path := str "assets"; kind := TFolder |} ];
  fileCache := fun f _ =>
    match f with
    | 0 => Indexed {| embeds := Some [ {| link := str "a.png" |};
                                       {| link := str "assets/01.png" |} ];
                      links := None |}
    | _ => NotIndexed
    end;
  linkpathDest := fun l _ =>
    if JS.eqb l (str "a.png") then Some 1
    else if JS.eqb l (str "assets/01.png") then Some 2 else None;
  today := january5
|}.

Definition namedByIndex : Plugin :=
{| app := noteIndexedPics;
   settings := settingsWith (pngRule "${index}" LocPattern);
   isProcessing := ∅; debouncers := ∅ |}.

(** A document in a folder that embeds a picture of a subfolder, where
    the name the picture is to get is taken, and a rule that leaves
    pictures where they are. *)
Definition noteInFolder : App := {|
  vault := [ {| path := str "Projects/Note.md"; kind := TFile |};
             {| path := str "Projects/img/pic.png"; kind := TFile |};
             {| path := str "Projects"; kind := TFolder |};
             {| path := str "Projects/img"; kind := TFolder |};
             {| path := str "Projects/img/Note pic.png"; kind := TFile |} ];
  fileCache := fun f _ =>
    match f with
    | 0 => Indexed {| embeds := Some [ {| link := str "img/pic.png" |} ];
                      links := None |}
    | _ => NotIndexed
    end;
  linkpathDest := fun l _ =>
    if JS.eqb l (str "img/pic.png") then Some 1 else None;
  today := january5
|}.

Definition keptInPlace : Plugin :=
{| app := noteInFolder;
   settings := settingsWith (pngRule "${filename} ${original}" LocOriginal);
   isProcessing := ∅; debouncers := ∅ |}.

(** The runtime at start: no debouncer object yet. *)
Definition quiet : Runtime :=
{| this := defaultPlugin; objects := []; now := 0 |}.

(** Settings without any rule. *)
Definition withoutRules : PluginSettings :=
{| scopeMode := ScopeVault; watchedPaths := []; rules := [];
   defaultNamePattern := str "${filename} ${original}";
   defaultPathPattern := str "./attachments";
   enableAutoRename := true; debounceDelay := 2000 |}.


(** The vault of [notePic] when the index of the document is not ready
    at once: the cache answers from the fourth poll on. *)
Definition slowCache : App := {|
vault := vault notePic;
fileCache := fun f n => if n <? 3 then NotIndexed else fileCache notePic f n;
linkpathDest := linkpathDest notePic;
today := today notePic
|}.

Definition slowPlugin : Plugin := with_app defaultPlugin slowCache.

(** The runtime after a rename event for the document of [quiet]: one
    debouncer, registered for the path of the document, with its timer
    running. *)
Definition waiting : Runtime :=
triggerDebouncedProcessing 0 (str "Draft") quiet.

(** A document that embeds a picture and links a text file, under the
    default settings (rules, but none for txt) and under settings
    without any rule. *)
Definition noteWithText : App := {|
vault := [ {| path := str "Note.md"; kind := TFile |};
           {| path := str "pic.png"; kind := TFile |};
           {| path := str "data.txt"; kind := TFile |} ];
fileCache := fun f _ =>
  match f with
  | 0 => Indexed {| embeds := Some [ {| link := str "pic.png" |} ];
                    links := Some [ {| link := str "data.txt" |} ] |}
  | _ => NotIndexed
  end;
linkpathDest := fun l _ =>
  if JS.eqb l (str "pic.png") then Some 1
  else if JS.eqb l (str "data.txt") then Some 2 else None;
today := january5
|}.

Definition textUnderRules : Plugin :=
{| app := noteWithText; settings := DEFAULT_SETTINGS;
   isProcessing := ∅; debouncers := ∅ |}.

Definition textWithoutRules : Plugin :=
{| app := noteWithText; settings := withoutRules;
   isProcessing := ∅; debouncers := ∅ |}.

(** Two documents, each with a picture of its own, and the runtime at
    start. *)
Definition twoNotes : App := {|
vault := [ {| path := str "First.md"; kind := TFile |};
           {| path := str "Second.md"; kind := TFile |};
           {| path := str "a.png"; kind := TFile |};
           {| path := str "b.png"; kind := TFile |} ];
fileCache := fun f _ =>
  match f with
  | 0 => Indexed {| embeds := Some [ {| link := str "a.png" |} ];
                    links := None |}
  | 1 => Indexed {| embeds := Some [ {| link := str "b.png" |} ];
                    links := None |}
  | _ => NotIndexed
  end;
linkpathDest := fun l _ =>
  if JS.eqb l (str "a.png") then Some 2
  else if JS.eqb l (str "b.png") then Some 3 else None;
today := january5
|}.

Definition quietTwo : Runtime :=
{| this := {| app := twoNotes; settings := DEFAULT_SETTINGS;
              isProcessing := ∅; debouncers := ∅ |};
   objects := []; now := 0 |}.

(** The user renames the document of [slowPlugin] to [Other.md] while
    the pass waits for the cache the first time, and does nothing during
    the later waits. *)
Definition renamedWhileWaiting (n : nat) (p : Plugin) : Plugin :=
match n with
| 0 => renamedMeanwhile 0 (str "Other.md") p
| _ => p
end.

(** The document of [quiet] is renamed four times, with the default
    delay of 2000 ms: to [B.md] at 0 ms and to [C.md] at 100 ms; at
    2000 ms the timer of the first rename has fired; then to [D.md] at
    2010 ms and back to [C.md] at 2020 ms. *)
Definition twiceRenamed : Runtime :=
renamedInHost 0 (str "C.md")
  (snd (advance 100 (renamedInHost 0 (str "B.md") quiet))).

Definition firstFired : Runtime := snd (advance 1900 twiceRenamed).

Definition renamedBack : Runtime :=
renamedInHost 0 (str "C.md")
  (snd (advance 10
          (renamedInHost 0 (str "D.md") (snd (advance 10 firstFired))))).

End Example.

(** * Proof steps *)

(** Takes a hypothesis about every element of a list given by its
    elements apart, one fact per element. *)
Ltac split_Forall :=
  repeat match goal with
         | H : Forall _ (_ :: _) |- _ =>
             let Hx := fresh "Hx" in
             apply Forall_cons in H as [Hx H]
         end.

(** * Properties *)

Import Chars JS Host Plugin.

(** ** Code units and string primitives *)

Section StringLemmas.

Lemma is_char_true a c : is_char a c = true <-> c = a.
Proof. unfold is_char. apply Ascii.eqb_eq. Qed.

Lemma is_char_false a c : is_char a c = false <-> c <> a.
Proof. unfold is_char. apply Ascii.eqb_neq. Qed.

Lemma jseqb_true (s t : jsstring) : JS.eqb s t = true <-> s = t.
Proof. unfold JS.eqb. apply bool_decide_eq_true. Qed.

Lemma jseqb_false (s t : jsstring) : JS.eqb s t = false <-> s <> t.
Proof. unfold JS.eqb. apply bool_decide_eq_false. Qed.

Lemma jseqb_refl (s : jsstring) : JS.eqb s s = true.
Proof. by apply jseqb_true. Qed.

Lemma startsWith_app t r : startsWith t (t ++ r) = true.
Proof.
  induction t as [|a t IH]; simpl; [done|].
  by rewrite Ascii.eqb_refl.
Qed.

Lemma startsWith_true t s : startsWith t s = true <-> exists r, s = t ++ r.
Proof.
  split.
  - revert s. induction t as [|a t IH]; intros s H; simpl in *.
    + by exists s.
    + destruct s as [|b s]; [done|].
      apply andb_true_iff in H as [Hab H].
      apply Ascii.eqb_eq in Hab as ->.
      destruct (IH _ H) as [r ->]. by exists r.
  - intros [r ->]. apply startsWith_app.
Qed.

Lemma drop_while_all p s : forallb p s = true -> drop_while p s = [].
Proof.
  induction s as [|c s IH]; simpl; [done|].
  intros [Hc Hs]%andb_true_iff. rewrite Hc. auto.
Qed.

Lemma drop_while_nil_inv p s : drop_while p s = [] -> forallb p s = true.
Proof.
  induction s as [|c s IH]; simpl; [done|].
  destruct (p c); [auto|done].
Qed.

Lemma forallb_rev (p : ascii -> bool) s : forallb p (rev s) = forallb p s.
Proof.
  induction s as [|c s IH]; simpl; [done|].
  rewrite forallb_app, IH. simpl. rewrite andb_true_r. apply andb_comm.
Qed.

Lemma drop_while_forallb p s :
  forallb p (drop_while p s) = forallb p s.
Proof.
  induction s as [|c s IH]; simpl; [done|].
  destruct (p c) eqn:Hc; simpl; [done|]. by rewrite Hc.
Qed.

(** [trim] gives the empty string exactly on whitespace. *)
Lemma trim_nil s : trim s = [] <-> forallb is_space s = true.
Proof.
  unfold trim. split.
  - intros H. apply (f_equal (@rev ascii)) in H.
    rewrite rev_involutive in H. simpl in H.
    apply drop_while_nil_inv in H.
    by rewrite forallb_rev, drop_while_forallb in H.
  - intros H. by rewrite (drop_while_all _ _ H).
Qed.

End StringLemmas.

(** ** Replacing the runs of a class *)

Section Runs.
Variable cls : ascii -> bool.
Variable r : jsstring.

Lemma replace_runs_enter s :
  replace_runs_from cls r false s
  = (if Spec.starts_in cls s then r else []) ++ replace_runs_from cls r true s.
Proof.
  destruct s as [|c s]; simpl; [done|].
  by destruct (cls c).
Qed.

Lemma runs_nil s : Spec.runs cls s = [] -> s = [].
Proof.
  destruct s as [|c s]; simpl; [done|].
  destruct (Spec.runs cls s) as [|[b run] rest]; [done|].
  by destruct (Bool.eqb b (cls c)).
Qed.

Lemma runs_head s b run rest :
  Spec.runs cls s = (b, run) :: rest -> Spec.starts_in cls s = b.
Proof.
  destruct s as [|c s]; simpl; [done|].
  destruct (Spec.runs cls s) as [|[b' run'] rest'].
  - by intros [= <- _ _].
  - destruct (Bool.eqb b' (cls c)) eqn:E.
    + apply eqb_prop in E. by intros [= <- _ _].
    + by intros [= <- _ _].
Qed.

(** The scanner of the source replaces exactly the maximal runs. *)
Lemma replace_runs_squash s :
  replace_runs cls r s = Spec.squash cls r s.
Proof.
  unfold replace_runs, Spec.squash.
  induction s as [|c s IH]; simpl; [done|].
  destruct (Spec.runs cls s) as [|[b run] rest] eqn:Hruns.
  - apply runs_nil in Hruns as ->. simpl.
    destruct (cls c); simpl; by rewrite ?app_nil_r.
  - pose proof (runs_head _ _ _ _ Hruns) as Hhead.
    rewrite replace_runs_enter, Hhead in IH. simpl in IH.
    destruct (cls c) eqn:Hc, b; simpl in *.
    + f_equal. by apply app_inv_head in IH.
    + by rewrite <- IH.
    + rewrite replace_runs_enter, Hhead. by rewrite IH.
    + rewrite replace_runs_enter, Hhead. simpl. by rewrite IH.
Qed.

(** The runs cut the text, none is empty, each is inside or outside the
    class as tagged, and neighbours differ: the runs are maximal. *)
Lemma runs_concat s : concat (map snd (Spec.runs cls s)) = s.
Proof.
  induction s as [|c s IH]; simpl; [done|].
  destruct (Spec.runs cls s) as [|[b run] rest]; simpl in *.
  - by rewrite <- IH.
  - destruct (Bool.eqb b (cls c)); simpl; by rewrite <- IH.
Qed.

Lemma runs_uniform s :
  Forall (fun br => snd br <> [] /\ Forall (fun c => cls c = fst br) (snd br))
         (Spec.runs cls s).
Proof.
  induction s as [|c s IH]; simpl; [constructor|].
  destruct (Spec.runs cls s) as [|[b run] rest].
  - repeat constructor. done.
  - inversion IH as [|? ? [Hne Hrun] Hrest]; subst.
    destruct (Bool.eqb b (cls c)) eqn:E.
    + apply eqb_prop in E. constructor; [|done]. simpl in *. split; [done|].
      constructor; [done|done].
    + constructor; [|done]. simpl. split; [done|]. by repeat constructor.
Qed.

Lemma runs_alternating s : Spec.alternating (Spec.runs cls s).
Proof.
  induction s as [|c s IH]; simpl; [done|].
  destruct (Spec.runs cls s) as [|[b run] rest]; [done|].
  destruct (Bool.eqb b (cls c)) eqn:E.
  - destruct rest; [done|]. simpl in *. done.
  - simpl. split; [|done]. apply eqb_false_iff in E. congruence.
Qed.

(** A text made of class characters only is one run. *)
Lemma replace_runs_inside s :
  forallb cls s = true -> replace_runs_from cls r true s = [].
Proof.
  induction s as [|c s IH]; simpl; [done|].
  intros [Hc Hs]%andb_true_iff. rewrite Hc. simpl. auto.
Qed.

Lemma replace_runs_all s :
  s <> [] -> forallb cls s = true -> replace_runs cls r s = r.
Proof.
  destruct s as [|c s]; [done|]. intros _. simpl.
  intros [Hc Hs]%andb_true_iff. unfold replace_runs. simpl. rewrite Hc.
  by rewrite replace_runs_inside, app_nil_r.
Qed.

End Runs.

(** ** [sanitizeName] *)

Section Sanitize.

Lemma illegal_not_space c : is_illegal c = true -> is_space c = false.
Proof. destruct c as [[] [] [] [] [] [] [] []]; by vm_compute. Qed.

(** Hyphens for illegal runs leave a text blank exactly when it was. *)
Lemma blank_after_hyphens s :
  forallb is_space (replace_runs_from is_illegal (str "-") false s)
  = forallb is_space s
  /\ forallb is_space (replace_runs_from is_illegal (str "-") true s)
     = forallb is_space (drop_while is_illegal s).
Proof.
  induction s as [|c s [IHf IHt]]; simpl; [done|].
  destruct (is_illegal c) eqn:Hc; simpl.
  - rewrite (illegal_not_space _ Hc). by split.
  - rewrite IHf. by split.
Qed.

Lemma blank_after_collapse b s :
  forallb is_space (replace_runs_from is_space (str " ") b s)
  = forallb is_space s.
Proof.
  revert b. induction s as [|c s IH]; intros b; simpl; [done|].
  destruct (is_space c) eqn:Hc; simpl.
  - rewrite forallb_app, IH. by destruct b.
  - by rewrite Hc.
Qed.

Lemma sanitizeName_nil s :
  sanitizeName s = [] <-> forallb is_space s = true.
Proof.
  unfold sanitizeName, replace_runs.
  rewrite trim_nil, blank_after_collapse.
  by rewrite (proj1 (blank_after_hyphens s)).
Qed.

Lemma newBaseName_cases namePattern vars :
  newBaseName namePattern vars
  = if forallb is_space (applyVariables namePattern vars)
    then str "attachment"
    else sanitizeName (applyVariables namePattern vars).
Proof.
  unfold newBaseName.
  destruct (forallb is_space (applyVariables namePattern vars)) eqn:E.
  - apply sanitizeName_nil in E. by rewrite E.
  - destruct (sanitizeName (applyVariables namePattern vars)) eqn:E'; [|done].
    apply sanitizeName_nil in E'. congruence.
Qed.

(** C6, as the code has it: [sanitizeName] replaces each maximal run of
    the illegal characters with one hyphen, collapses each whitespace run
    to one space and trims, and sanitize of a/b:c*d is a-b-c-d.  A text
    of illegal characters only (not empty) becomes a single hyphen, not
    the empty string; the result is empty exactly for a text of whitespace
    only, and that is when the caller falls back to the base name
    attachment. *)
Theorem sanitizeName_runs_and_fallback (name : jsstring) :
  sanitizeName name = Spec.sanitize name
  /\ sanitizeName (str "a/b:c*d") = str "a-b-c-d"
  /\ (name <> [] -> forallb is_illegal name = true ->
      sanitizeName name = str "-")
  /\ (sanitizeName name = [] <-> forallb is_space name = true)
  /\ (forall namePattern vars,
        newBaseName namePattern vars
        = if forallb is_space (applyVariables namePattern vars)
          then str "attachment"
          else sanitizeName (applyVariables namePattern vars)).
Proof.
  split; [|split; [|split; [|split]]].
  - unfold sanitizeName, Spec.sanitize. by rewrite !replace_runs_squash.
  - reflexivity.
  - intros Hne Hall. unfold sanitizeName.
    by rewrite (replace_runs_all _ _ _ Hne Hall).
  - apply sanitizeName_nil.
  - apply newBaseName_cases.
Qed.

(** C6 as stated fails: a text of illegal characters only sanitizes to a
    hyphen, so the fallback is not taken. *)
Lemma sanitizeName_all_illegal_counterexample :
  forallb is_illegal (str "/:*") = true
  /\ sanitizeName (str "/:*") = str "-"
  /\ sanitizeName (str "/:*") <> []
  /\ newBaseName (str "/:*") ∅ = str "-".
Proof. by vm_compute. Qed.

(** The theorem of C6 at a text of illegal characters and at a blank one. *)
Lemma sanitizeName_runs_and_fallback_witness :
  sanitizeName (str "<|>") = str "-"
  /\ sanitizeName (str "  ") = [].
Proof.
  split.
  - apply (proj1 (proj2 (proj2 (sanitizeName_runs_and_fallback (str "<|>")))));
      [discriminate | reflexivity].
  - apply (proj1 (proj2 (proj2 (proj2 (sanitizeName_runs_and_fallback (str "  ")))))).
    reflexivity.
Defined.

End Sanitize.

(** ** [applyVariables] *)

Section Substitution.

Lemma get_substitution_dollar_free m b a v :
  Spec.dollar_free v = true -> get_substitution m b a v = v.
Proof.
  induction v as [|c v IH]; simpl; [done|].
  intros [Hc Hv]%andb_true_iff. apply negb_true_iff in Hc.
  rewrite Hc. f_equal. auto.
Qed.

Lemma replace_token_literal tok v k b s :
  Spec.dollar_free v = true ->
  replace_token_from tok v k b s = Spec.replace_literal_from tok v k s.
Proof.
  intros Hv. revert k b.
  induction s as [|c s IH]; intros k b; [done|].
  cbn [replace_token_from Spec.replace_literal_from].
  destruct k as [|k]; [|apply IH].
  destruct (startsWith tok (c :: s)).
  - by rewrite get_substitution_dollar_free, IH.
  - by rewrite IH.
Qed.

Lemma replace_literal_skip tok v k s :
  Spec.replace_literal_from tok v k s
  = Spec.replace_literal_from tok v 0 (drop k s).
Proof.
  revert k. induction s as [|c s IH]; intros [|k]; try done.
  cbn [Spec.replace_literal_from]. by rewrite IH.
Qed.

Lemma replace_literal_hit tok v rest :
  tok <> [] ->
  Spec.replace_literal_from tok v 0 (tok ++ rest)
  = v ++ Spec.replace_literal_from tok v 0 rest.
Proof.
  destruct tok as [|c tok]; [done|]. intros _.
  change ((c :: tok) ++ rest) with (c :: (tok ++ rest)).
  cbn [Spec.replace_literal_from].
  change (c :: tok ++ rest) with ((c :: tok) ++ rest).
  rewrite startsWith_app. f_equal.
  rewrite replace_literal_skip. simpl. rewrite Nat.sub_0_r.
  by rewrite drop_app_length.
Qed.

Lemma replace_literal_block tok v a rest :
  (forall i, i < length a -> startsWith tok (drop i (a ++ rest)) = false) ->
  Spec.replace_literal_from tok v 0 (a ++ rest)
  = a ++ Spec.replace_literal_from tok v 0 rest.
Proof.
  induction a as [|c a IH]; intros H; [done|].
  change ((c :: a) ++ rest) with (c :: (a ++ rest)).
  cbn [Spec.replace_literal_from].
  pose proof (H 0 ltac:(simpl; lia)) as H0. simpl in H0. rewrite H0.
  simpl. f_equal. apply IH. intros i Hi. apply (H (S i)). simpl. lia.
Qed.

Lemma expand_skip table k s :
  Spec.expand_from table k s = Spec.expand_from table 0 (drop k s).
Proof.
  revert k. induction s as [|c s IH]; intros [|k]; try done.
  cbn [Spec.expand_from]. by rewrite IH.
Qed.

Lemma expand_hit table tok v rest :
  tok <> [] -> Spec.token_at table (tok ++ rest) = Some (tok, v) ->
  Spec.expand_from table 0 (tok ++ rest)
  = v ++ Spec.expand_from table 0 rest.
Proof.
  destruct tok as [|c tok]; [done|]. intros _ H.
  change ((c :: tok) ++ rest) with (c :: (tok ++ rest)) in *.
  cbn [Spec.expand_from]. rewrite H. f_equal.
  rewrite expand_skip. simpl. rewrite Nat.sub_0_r.
  by rewrite drop_app_length.
Qed.

Lemma expand_block table a rest :
  (forall i, i < length a -> Spec.token_at table (drop i (a ++ rest)) = None) ->
  Spec.expand_from table 0 (a ++ rest)
  = a ++ Spec.expand_from table 0 rest.
Proof.
  induction a as [|c a IH]; intros H; [done|].
  change ((c :: a) ++ rest) with (c :: (a ++ rest)).
  cbn [Spec.expand_from].
  pose proof (H 0 ltac:(simpl; lia)) as H0. simpl in H0. rewrite H0.
  simpl. f_equal. apply IH. intros i Hi. apply (H (S i)). simpl. lia.
Qed.

End Substitution.

Section Tokens.

Lemma plain_not_dollar c : Spec.is_plain c = true -> is_char "$" c = false.
Proof.
  unfold Spec.is_plain. intros [H _]%andb_true_iff. by apply negb_true_iff in H.
Qed.

Lemma plain_not_brace c : Spec.is_plain c = true -> is_char "}" c = false.
Proof.
  unfold Spec.is_plain. intros [_ H]%andb_true_iff. by apply negb_true_iff in H.
Qed.

(** A token cannot start at a character that is not a dollar sign. *)
Lemma braced_needs_dollar body c s :
  is_char "$" c = false -> startsWith (Spec.braced body) (c :: s) = false.
Proof.
  intros Hc. apply is_char_false in Hc. unfold Spec.braced.
  cbn [startsWith]. rewrite (proj2 (Ascii.eqb_neq _ _)); [done|congruence].
Qed.

Lemma plain_until_brace b1 b2 r1 r2 :
  forallb Spec.is_plain b1 = true -> forallb Spec.is_plain b2 = true ->
  b1 ++ "}"%char :: r1 = b2 ++ "}"%char :: r2 -> b1 = b2.
Proof.
  revert b2. induction b1 as [|c b1 IH]; intros [|d b2]; simpl; try done.
  - intros _ [Hd _]%andb_true_iff [= <-]. by apply plain_not_brace in Hd.
  - intros [Hc _]%andb_true_iff _ [= ->]. by apply plain_not_brace in Hc.
  - intros [_ H1]%andb_true_iff [_ H2]%andb_true_iff [= -> H]. f_equal. eauto.
Qed.

(** Two texts of the shape of a token, one at the start of the other:
    they are the same. *)
Lemma braced_prefix_eq b1 b2 rest :
  forallb Spec.is_plain b1 = true -> forallb Spec.is_plain b2 = true ->
  startsWith (Spec.braced b1) (Spec.braced b2 ++ rest) = true -> b1 = b2.
Proof.
  intros H1 H2 [r Hr]%startsWith_true. unfold Spec.braced in Hr.
  simpl in Hr. injection Hr as Hr. rewrite <- !app_assoc in Hr. simpl in Hr.
  symmetry. eapply plain_until_brace; eauto.
Qed.

(** Inside a text of the shape of a token no token starts, but at its
    first character. *)
Lemma braced_inside b1 b2 rest i :
  forallb Spec.is_plain b2 = true -> 0 < i -> i < length (Spec.braced b2) ->
  startsWith (Spec.braced b1) (drop i (Spec.braced b2 ++ rest)) = false.
Proof.
  intros H2 Hi Hlen. destruct i as [|i]; [lia|].
  unfold Spec.braced at 2. simpl drop. simpl in Hlen.
  rewrite length_app in Hlen. simpl in Hlen.
  rewrite <- app_assoc. cbn [app].
  destruct (decide (i < length b2)) as [Hlt|Hge].
  - destruct (lookup_lt_is_Some_2 b2 i Hlt) as [c Hc].
    rewrite (drop_S _ c i); [|by apply lookup_app_l_Some].
    apply braced_needs_dollar, plain_not_dollar.
    rewrite forallb_forall in H2. apply H2. apply list_elem_of_In.
    by eapply list_elem_of_lookup_2.
  - assert (i = length b2) as -> by lia.
    rewrite drop_app_length. by apply braced_needs_dollar.
Qed.

Lemma dollar_free_inside body v rest i :
  Spec.dollar_free v = true -> i < length v ->
  startsWith (Spec.braced body) (drop i (v ++ rest)) = false.
Proof.
  intros Hv Hi.
  destruct (lookup_lt_is_Some_2 v i Hi) as [c Hc].
  rewrite (drop_S _ c i); [|by apply lookup_app_l_Some].
  apply braced_needs_dollar.
  unfold Spec.dollar_free in Hv. rewrite forallb_forall in Hv.
  apply negb_true_iff, Hv, list_elem_of_In. by eapply list_elem_of_lookup_2.
Qed.

End Tokens.

Section SinglePass.

Lemma well_formed_tail tv table : Spec.well_formed (tv :: table) -> Spec.well_formed table.
Proof.
  intros [HF HN]. split; [by inversion HF|by inversion HN].
Qed.

Lemma well_formed_braced table tok v :
  Spec.well_formed table -> In (tok, v) table ->
  (exists body, tok = Spec.braced body /\ forallb Spec.is_plain body = true)
  /\ Spec.dollar_free v = true.
Proof.
  intros [HF _] Hin. rewrite Forall_forall in HF.
  apply (HF (tok, v)). by apply list_elem_of_In.
Qed.

Lemma stages_block table a rest :
  (forall tv, In tv table -> forall X i, i < length a ->
     startsWith (fst tv) (drop i (a ++ X)) = false) ->
  Spec.stages table (a ++ rest) = a ++ Spec.stages table rest.
Proof.
  revert rest. induction table as [|tv table IH]; intros rest H; [done|].
  unfold Spec.stages in *. cbn [fold_left].
  rewrite replace_literal_block; [|intros i Hi; apply H; [by left|done]].
  apply IH. intros tv' Hin. apply H. by right.
Qed.

Lemma stages_token table tok v rest :
  Spec.well_formed table -> In (tok, v) table ->
  Spec.stages table (tok ++ rest) = v ++ Spec.stages table rest.
Proof.
  revert rest. induction table as [|[t v'] table IH]; intros rest Hwf Hin; [done|].
  pose proof (well_formed_tail _ _ Hwf) as Hwf'.
  destruct (well_formed_braced _ _ _ Hwf Hin) as [(body & -> & Hbody) Hv].
  destruct (well_formed_braced _ t v' Hwf ltac:(by left)) as [(b' & -> & Hb') Hv'].
  unfold Spec.stages in *. cbn [fold_left fst snd].
  destruct (decide (b' = body)) as [->|Hne].
  - assert (v' = v) as ->.
    { destruct Hin as [[= ->]|Hin]; [done|].
      destruct Hwf as [_ HN]. inversion HN as [|? ? Hnotin _]; subst.
      exfalso. apply Hnotin. apply list_elem_of_In, in_map_iff.
      by exists (Spec.braced body, v). }
    rewrite replace_literal_hit; [|done].
    apply (stages_block table v). intros [t2 v2] Hin2 X i Hi.
    destruct (well_formed_braced _ _ _ Hwf' Hin2) as [(b2 & -> & _) _].
    by apply dollar_free_inside.
  - destruct Hin as [[= Heq _]|Hin].
    { exfalso. apply Hne. by apply app_inv_tail in Heq. }
    rewrite replace_literal_block; [by apply IH|].
    intros i Hi. simpl fst. destruct i as [|i].
    + simpl drop.
      destruct (startsWith (Spec.braced b') (Spec.braced body ++ rest)) eqn:E; [|done].
      by apply braced_prefix_eq in E.
    + apply braced_inside; [done|lia|done].
Qed.

Lemma token_at_none table s :
  (forall tv, In tv table -> startsWith (fst tv) s = false) ->
  Spec.token_at table s = None.
Proof.
  intros H. unfold Spec.token_at.
  induction table as [|tv table IH]; simpl; [done|].
  rewrite (H tv); [|by left]. apply IH. intros tv' Hin. apply H. by right.
Qed.

Lemma token_at_token table tok v rest :
  Spec.well_formed table -> In (tok, v) table ->
  Spec.token_at table (tok ++ rest) = Some (tok, v).
Proof.
  unfold Spec.token_at.
  induction table as [|[t v'] table IH]; intros Hwf Hin; [done|].
  pose proof (well_formed_tail _ _ Hwf) as Hwf'.
  destruct (well_formed_braced _ _ _ Hwf Hin) as [(body & -> & Hbody) Hv].
  destruct (well_formed_braced _ t v' Hwf ltac:(by left)) as [(b' & -> & Hb') Hv'].
  cbn [List.find fst].
  destruct (startsWith (Spec.braced b') (Spec.braced body ++ rest)) eqn:E.
  - apply braced_prefix_eq in E as ->; [|done..].
    destruct Hin as [[= ->]|Hin]; [done|].
    destruct Hwf as [_ HN]. inversion HN as [|? ? Hnotin _]; subst.
    exfalso. apply Hnotin. apply list_elem_of_In, in_map_iff.
    by exists (Spec.braced body, v).
  - destruct Hin as [[= Heq _]|Hin]; [|by apply IH].
    apply app_inv_tail in Heq as ->.
    by rewrite startsWith_app in E.
Qed.

(** A dollar sign that waits for its brace gets it: the text goes on with
    plain characters and a closing brace. *)
Lemma dollars_closed_open s :
  Spec.dollars_closed_from true s = true ->
  exists body rest,
    s = body ++ "}"%char :: rest /\ forallb Spec.is_plain body = true
    /\ Spec.dollars_closed_from false rest = true.
Proof.
  induction s as [|c s IH]; simpl; [done|].
  destruct (is_char "$" c) eqn:Hd; [done|].
  destruct (is_char "}" c) eqn:Hb.
  - intros H. apply is_char_true in Hb as ->. by exists [], s.
  - intros H. destruct (IH H) as (body & rest & -> & Hbody & Hrest).
    exists (c :: body), rest. split; [done|]. split; [|done].
    simpl. unfold Spec.is_plain at 1. by rewrite Hd, Hb.
Qed.

Lemma stages_expand table n s :
  Spec.well_formed table -> length s <= n ->
  Spec.dollars_closed s = true ->
  Spec.stages table s = Spec.expand_from table 0 s.
Proof.
  intros Hwf. revert s. induction n as [|n IH]; intros s Hn Hs.
  { destruct s; [|simpl in Hn; lia]. unfold Spec.stages.
    clear. induction table; [done|]. simpl. done. }
  destruct s as [|c s].
  { unfold Spec.stages. clear. induction table; [done|]. simpl. done. }
  unfold Spec.dollars_closed in Hs. simpl in Hs, Hn.
  destruct (is_char "$" c) eqn:Hd.
  - apply is_char_true in Hd as ->. simpl in Hs.
    destruct (dollars_closed_open _ Hs) as (body & rest & -> & Hbody & Hrest).
    change ("$"%char :: body ++ "}"%char :: rest)
      with (("$"%char :: body) ++ "}"%char :: rest).
    rewrite (app_assoc _ ["}"%char] rest : _ ++ "}"%char :: rest = _).
    change (("$"%char :: body) ++ ["}"%char]) with (Spec.braced body).
    assert (length rest <= n) as Hlen.
    { rewrite length_app in Hn. simpl in Hn. lia. }
    destruct (decide (Spec.braced body ∈ map fst table))
      as [Hin%list_elem_of_In|Hout].
    + apply in_map_iff in Hin as ([t v] & Ht & Hin). simpl in Ht. subst t.
      rewrite (stages_token _ _ v), (expand_hit _ _ v);
        [by rewrite IH|done|by apply token_at_token|done|done].
    + rewrite stages_block, expand_block; [by rewrite IH| |].
      * intros i Hi. apply token_at_none. intros [t v] Hin. simpl.
        destruct (well_formed_braced _ _ _ Hwf Hin) as [(b' & -> & Hb') _].
        destruct i as [|i].
        -- simpl drop.
           destruct (startsWith (Spec.braced b') (Spec.braced body ++ rest)) eqn:E; [|done].
           apply braced_prefix_eq in E as ->; [|done..].
           exfalso. apply Hout, list_elem_of_In, in_map_iff.
           by exists (Spec.braced body, v).
        -- apply braced_inside; [done|lia|done].
      * intros [t v] Hin X i Hi. simpl.
        destruct (well_formed_braced _ _ _ Hwf Hin) as [(b' & -> & Hb') _].
        destruct i as [|i].
        -- simpl drop.
           destruct (startsWith (Spec.braced b') (Spec.braced body ++ X)) eqn:E; [|done].
           apply braced_prefix_eq in E as ->; [|done..].
           exfalso. apply Hout, list_elem_of_In, in_map_iff.
           by exists (Spec.braced body, v).
        -- apply braced_inside; [done|lia|done].
  - assert (Spec.dollars_closed s = true) as Hs'.
    { unfold Spec.dollars_closed. by destruct (is_char "}" c). }
    change (c :: s) with ([c] ++ s).
    rewrite stages_block, expand_block; [rewrite IH; [done|lia|done]| |].
    + intros i Hi. simpl in Hi. assert (i = 0) as -> by lia. simpl.
      apply token_at_none. intros [t v] Hin. simpl.
      destruct (well_formed_braced _ _ _ Hwf Hin) as [(b' & -> & Hb') _].
      by apply braced_needs_dollar.
    + intros [t v] Hin X i Hi. simpl in Hi. assert (i = 0) as -> by lia. simpl.
      destruct (well_formed_braced _ _ _ Hwf Hin) as [(b' & -> & Hb') _].
      by apply braced_needs_dollar.
Qed.

End SinglePass.

Section ApplyVariables.

Lemma placeholders_well_formed vars :
  Forall (fun tv => Spec.dollar_free (snd tv) = true) (Spec.placeholders vars) ->
  Spec.well_formed (Spec.placeholders vars).
Proof.
  intros Hv. split.
  - unfold Spec.placeholders in *.
    split_Forall.
    repeat constructor; simpl in *; try done.
    + by exists (str "{filename").
    + by exists (str "{original").
    + by exists (str "{extension").
    + by exists (str "{date").
    + by exists (str "{index").
  - apply (bool_decide_unpack _). by vm_compute.
Qed.

Lemma applyVariables_stages pattern vars :
  Forall (fun tv => Spec.dollar_free (snd tv) = true) (Spec.placeholders vars) ->
  applyVariables pattern vars = Spec.stages (Spec.placeholders vars) pattern.
Proof.
  intros Hv. unfold Spec.placeholders in Hv.
  split_Forall.
  simpl in *.
  unfold applyVariables, Spec.stages, Spec.placeholders, replace_token.
  cbn [fold_left fst snd].
  by rewrite !replace_token_literal.
Qed.

(** C7, as the code has it: the expansion is five global replacements in
    the order filename, original, extension, date, index, each with the
    value in force (the fallback note, file, empty, empty, 01 for a
    missing value).  When no value in force has a dollar sign and every
    dollar sign of the pattern is followed by a closing brace before the
    next dollar sign, this is the expansion in one pass: exactly the five
    placeholder tokens are replaced by their values, and everything else,
    unrecognized tokens and the text of the values included, is left as it
    is. *)
Theorem applyVariables_single_pass (pattern : jsstring)
    (vars : gmap string jsstring) :
  Spec.dollars_closed pattern = true ->
  Forall (fun tv => Spec.dollar_free (snd tv) = true) (Spec.placeholders vars) ->
  applyVariables pattern vars = Spec.expand pattern vars.
Proof.
  intros Hp Hv. rewrite applyVariables_stages by done.
  apply (stages_expand _ (length pattern)); [|done|done].
  by apply placeholders_well_formed.
Qed.

(** The theorem of C7 at a pattern with two placeholders, an unrecognized
    token and a variable that is missing. *)
Lemma applyVariables_single_pass_witness :
  Spec.expand (str "${filename} ${foo} ${index}")
              {[ "filename"%string := str "Note" ]}
  = str "Note ${foo} 01"
  /\ applyVariables (str "${filename} ${foo} ${index}")
                    {[ "filename"%string := str "Note" ]}
     = Spec.expand (str "${filename} ${foo} ${index}")
                   {[ "filename"%string := str "Note" ]}.
Proof.
  split; [reflexivity|].
  apply applyVariables_single_pass; [reflexivity|].
  repeat constructor.
Defined.

(** C7 as stated fails: the text a value contributes is scanned by the
    later replacements, so a placeholder inside a value is substituted
    too, and a dollar sign in a value is read as a replacement pattern. *)
Lemma applyVariables_resubstitution_counterexample :
  applyVariables (str "${filename}")
    {[ "filename"%string := str "${date}"; "date"%string := str "20260105" ]}
  = str "20260105"
  /\ Spec.expand (str "${filename}")
       {[ "filename"%string := str "${date}"; "date"%string := str "20260105" ]}
     = str "${date}"
  /\ applyVariables (str "${filename}") {[ "filename"%string := str "a$$b" ]}
     = str "a$b".
Proof. by vm_compute. Qed.

(** C10: an empty value is falsy, so it gives way to the fallback like a
    missing one: with an empty filename the pattern expands as with the
    filename note, and with an empty original as with the original file. *)
Theorem applyVariables_empty_value_fallback (pattern : jsstring)
    (vars : gmap string jsstring) :
  applyVariables pattern (<["filename"%string := []]> vars)
  = applyVariables pattern (<["filename"%string := str "note"]> vars)
  /\ applyVariables pattern (<["original"%string := []]> vars)
     = applyVariables pattern (<["original"%string := str "file"]> vars)
  /\ applyVariables pattern (<["filename"%string := []]> vars)
     = applyVariables pattern (delete "filename"%string vars)
  /\ applyVariables pattern (<["original"%string := []]> vars)
     = applyVariables pattern (delete "original"%string vars)
  /\ applyVariables (str "${filename}-${original}")
       {[ "filename"%string := []; "original"%string := [] ]}
     = str "note-file".
Proof.
  unfold applyVariables.
  repeat split;
    rewrite ?lookup_insert_eq, ?lookup_delete_eq;
    rewrite ?lookup_insert_ne, ?lookup_delete_ne by done;
    reflexivity.
Qed.

End ApplyVariables.

(** ** The collision resolver *)

Section Collision.

Lemma getAbstractFileByPath_path a p existing :
  getAbstractFileByPath a p = Some existing -> path existing = p.
Proof.
  unfold getAbstractFileByPath. intros H.
  apply find_some in H as [_ H]. by apply jseqb_true in H.
Qed.

Lemma resolveCollision_loop_turn a cur ext folder base finalPath suffix fuel :
  resolveCollision_loop a cur ext folder base finalPath suffix (S fuel)
  = match getAbstractFileByPath a finalPath with
    | None => finalPath
    | Some existing =>
        if JS.eqb (path existing) cur then finalPath
        else resolveCollision_loop a cur ext folder base
               (suffixedPath folder base ext (S suffix)) (S suffix) fuel
    end.
Proof. reflexivity. Qed.

(** The loop returns the first safe path among those it still tries. *)
Lemma resolveCollision_loop_find a cur ext folder base finalPath suffix fuel :
  resolveCollision_loop a cur ext folder base finalPath suffix (S fuel)
  = default cur
      (List.find (Spec.free_or_self a cur)
         (finalPath :: map (suffixedPath folder base ext) (seq (S suffix) fuel))).
Proof.
  revert finalPath suffix.
  induction fuel as [|fuel IH]; intros finalPath suffix;
    rewrite resolveCollision_loop_turn; cbn [List.find];
    unfold Spec.free_or_self at 1.
  - destruct (getAbstractFileByPath a finalPath) as [existing|]; [|done].
    by destruct (JS.eqb (path existing) cur).
  - destruct (getAbstractFileByPath a finalPath) as [existing|]; [|done].
    destruct (JS.eqb (path existing) cur); [done|].
    by rewrite IH.
Qed.

(** C2: [resolveCollision] returns the first path that is unoccupied or
    occupied by the file itself among the desired path and the suffixed
    paths for the suffixes 1, 2, 3, ..., 500 paths in all, and the current
    path of the file when there is none; so it returns the desired path
    when that is safe, and what it returns is never occupied by another
    file. *)
Theorem resolveCollision_first_safe (a : App) (desiredPath : jsstring)
    (currentFile : nat) (targetFolder baseName : jsstring) :
  let currentPath := path_of a currentFile in
  let tried :=
    Spec.candidates desiredPath targetFolder baseName (extension currentPath) in
  let finalPath :=
    resolveCollision a desiredPath currentFile targetFolder baseName in
  finalPath = default currentPath
                (List.find (Spec.free_or_self a currentPath) tried)
  /\ length tried = 500
  /\ (Spec.free_or_self a currentPath desiredPath = true ->
      finalPath = desiredPath)
  /\ (Forall (fun p => Spec.free_or_self a currentPath p = false) tried ->
      finalPath = currentPath)
  /\ (forall existing,
        getAbstractFileByPath a finalPath = Some existing ->
        path existing = currentPath).
Proof.
  intros currentPath tried finalPath.
  assert (finalPath = default currentPath
            (List.find (Spec.free_or_self a currentPath) tried)) as Hfind.
  { unfold finalPath, resolveCollision, maxRetries.
    by rewrite resolveCollision_loop_find. }
  split; [done|]. split; [|split; [|split]].
  - unfold tried, Spec.candidates. cbn [length].
    rewrite length_map, length_seq. reflexivity.
  - intros Hsafe. rewrite Hfind. unfold tried, Spec.candidates.
    cbn [List.find]. by rewrite Hsafe.
  - intros Hnone. rewrite Hfind. clearbody tried.
    destruct (List.find _ tried) as [p|] eqn:E; [|done].
    apply find_some in E as [Hin Hp]. rewrite Forall_forall in Hnone.
    apply list_elem_of_In, Hnone in Hin. congruence.
  - intros existing Hex. rewrite Hfind in Hex. clearbody tried.
    destruct (List.find _ tried) as [p|] eqn:E; simpl in *.
    + apply find_some in E as [_ Hp]. unfold Spec.free_or_self in Hp.
      rewrite Hex in Hp. by apply jseqb_true in Hp.
    + by apply getAbstractFileByPath_path in Hex.
Qed.

(** The theorem of C2 where the desired path is taken by another file
    and the first suffix by the file itself. *)
Lemma resolveCollision_first_safe_witness :
  resolveCollision
    (app (snd (processNoteAttachments Example.namedAfterNote 0 None)))
    (str "assets/Note.png") 2 (str "assets") (str "Note")
  = str "assets/Note 1.png".
Proof.
  rewrite (proj1 (resolveCollision_first_safe
                    (app (snd (processNoteAttachments Example.namedAfterNote 0 None)))
                    (str "assets/Note.png") 2 (str "assets") (str "Note"))).
  by vm_compute.
Defined.

End Collision.

(** ** [getCleanOriginalName] *)

Section Padded.

Lemma includes_false t s i :
  includes t s = false -> startsWith t (drop i s) = false.
Proof.
  revert i. induction s as [|c s IH]; intros i H.
  - rewrite drop_nil. simpl in H. by apply orb_false_iff in H as [H _].
  - simpl in H. apply orb_false_iff in H as [H0 H].
    destruct i as [|i]; [done|]. simpl. by apply IH.
Qed.

Lemma includes_unfold t s :
  includes t s
  = startsWith t s || match s with [] => false | _ :: s' => includes t s' end.
Proof. by destruct s. Qed.

Lemma includes_true t s :
  includes t s = true <-> exists pre post, s = pre ++ t ++ post.
Proof.
  split.
  - induction s as [|c s IH]; simpl.
    + rewrite orb_false_r. intros [r Hr]%startsWith_true. by exists [], r.
    + intros [[r Hr]%startsWith_true|H]%orb_true_iff.
      * by exists [], r.
      * destruct (IH H) as (pre & post & ->). by exists (c :: pre), post.
  - intros (pre & post & ->). induction pre as [|c pre IH]; simpl.
    + by rewrite includes_unfold, startsWith_app.
    + rewrite IH. apply orb_true_r.
Qed.

Lemma take_while_length_lookup p (s : jsstring) x :
  x < length (take_while p s) -> exists c, s !! x = Some c /\ p c = true.
Proof.
  revert x. induction s as [|c s IH]; intros x; simpl; [lia|].
  destruct (p c) eqn:Hc; simpl; [|lia].
  destruct x as [|x]; [by exists c|]. intros Hx. apply IH. lia.
Qed.

Lemma take_while_bound p (s : jsstring) x c :
  s !! x = Some c -> p c = false -> length (take_while p s) <= x.
Proof.
  revert x. induction s as [|d s IH]; intros x; simpl; [lia|].
  destruct x as [|x]; simpl.
  - intros [= ->] ->. simpl. lia.
  - intros Hx Hc. destruct (p d); simpl; [|lia].
    specialize (IH _ Hx Hc). lia.
Qed.

Lemma take_while_app_all p (a b : jsstring) :
  forallb p a = true -> take_while p (a ++ b) = a ++ take_while p b.
Proof.
  induction a as [|c a IH]; simpl; [done|].
  intros [Hc Ha]%andb_true_iff. rewrite Hc. f_equal. auto.
Qed.

Lemma take_while_stop p (s : jsstring) :
  (forall c, head s = Some c -> p c = false) -> take_while p s = [].
Proof.
  destruct s as [|c s]; [done|]. simpl. intros H. by rewrite (H c).
Qed.

(** The end of the run of [p] that starts at [x] does not depend on where
    in the run [x] is. *)
Lemma run_end_same p (s : jsstring) x y :
  x <= y -> (forall z, x <= z < y -> exists c, s !! z = Some c /\ p c = true) ->
  x + length (take_while p (drop x s)) = y + length (take_while p (drop y s)).
Proof.
  intros Hxy. remember (y - x) as d eqn:Hd. revert x Hxy Hd.
  induction d as [|d IH]; intros x Hxy Hd Hrun.
  - by assert (x = y) as -> by lia.
  - destruct (Hrun x ltac:(lia)) as (c & Hc & Hp).
    rewrite (drop_S _ c x Hc). simpl. rewrite Hp. simpl.
    rewrite <- (IH (S x)); [lia|lia|lia|].
    intros z Hz. apply Hrun. lia.
Qed.

Lemma startsWith_lookup t (s : jsstring) j m c :
  startsWith t (drop j s) = true -> t !! m = Some c -> s !! (j + m) = Some c.
Proof.
  intros [r Hr]%startsWith_true Hm.
  rewrite <- lookup_drop, Hr. by apply lookup_app_l_Some.
Qed.

Lemma match_padded_keep_none old s k :
  (forall j, j <= k -> startsWith old (drop j s) = false) ->
  match_padded_keep old s k = None.
Proof.
  induction k as [|k IH]; intros H; simpl.
  - by rewrite (H 0).
  - rewrite (H (S k)); [|lia]. apply IH. intros j Hj. apply H. lia.
Qed.

Lemma match_padded_keep_some old s k j :
  j <= k -> startsWith old (drop j s) = true ->
  exists j', j' <= k /\ startsWith old (drop j' s) = true
    /\ match_padded_keep old s k
       = Some (j' + length old
               + length (take_while is_separator (drop (j' + length old) s))).
Proof.
  induction k as [|k IH]; intros Hj Hs; simpl.
  - assert (j = 0) as -> by lia. exists 0. by rewrite Hs.
  - destruct (startsWith old (drop (S k) s)) eqn:E.
    + by exists (S k).
    + assert (j <= k) as Hj'.
      { destruct (decide (j = S k)) as [->|]; [congruence|lia]. }
      destruct (IH Hj' Hs) as (j' & ? & ? & ?). exists j'. split; [lia|done].
Qed.

End Padded.

Section PaddedScan.

Lemma replace_padded_skip old r k s :
  replace_padded_from old r k s = replace_padded_from old r 0 (drop k s).
Proof.
  revert k. induction s as [|c s IH]; intros [|k]; try done.
  cbn [replace_padded_from]. by rewrite IH.
Qed.

Lemma replace_padded_block old r a rest :
  (forall i, i < length a -> match_padded old (drop i (a ++ rest)) = None) ->
  replace_padded_from old r 0 (a ++ rest)
  = a ++ replace_padded_from old r 0 rest.
Proof.
  induction a as [|c a IH]; intros H; [done|].
  change ((c :: a) ++ rest) with (c :: (a ++ rest)).
  cbn [replace_padded_from].
  pose proof (H 0 ltac:(simpl; lia)) as H0. simpl in H0. rewrite H0.
  simpl. f_equal. apply IH. intros i Hi. apply (H (S i)). simpl. lia.
Qed.

Lemma replace_padded_hit old r s len :
  0 < len -> match_padded old s = Some len ->
  replace_padded_from old r 0 s
  = r ++ replace_padded_from old r 0 (drop len s).
Proof.
  intros Hlen Hm. destruct s as [|c s].
  - unfold match_padded in Hm. simpl in Hm. rewrite drop_nil in Hm.
    destruct old; [|done]. simpl in Hm. injection Hm as <-. lia.
  - cbn [replace_padded_from]. rewrite Hm. f_equal.
    rewrite replace_padded_skip. destruct len as [|len]; [lia|].
    simpl. by rewrite Nat.sub_0_r.
Qed.

(** Where the old name is not found, nothing is replaced. *)
Lemma replace_padded_absent old r s :
  includes old s = false -> replace_padded old r s = s.
Proof.
  intros H. unfold replace_padded.
  rewrite <- (app_nil_r s) at 1. rewrite replace_padded_block.
  - simpl. apply app_nil_r.
  - intros i _. apply match_padded_keep_none. intros j _.
    rewrite drop_drop, app_nil_r. by apply includes_false.
Qed.

(** The match that starts at the padding before the first occurrence of
    the old name covers the padding, the name and the padding after it. *)
Lemma match_padded_first old pad1 pad2 post :
  old <> [] ->
  forallb is_separator pad1 = true -> forallb is_separator pad2 = true ->
  (forall c, head post = Some c -> is_separator c = false) ->
  (forall i, i < length pad1 ->
     startsWith old (drop i (pad1 ++ old ++ pad2 ++ post)) = false) ->
  match_padded old (pad1 ++ old ++ pad2 ++ post)
  = Some (length pad1 + length old + length pad2).
Proof.
  intros Hold H1 H2 Hpost Hfirst.
  set (s := pad1 ++ old ++ pad2 ++ post) in *.
  set (R := length (take_while is_separator s)).
  assert (length pad1 <= R) as HR.
  { unfold R, s. rewrite take_while_app_all by done. rewrite length_app. lia. }
  assert (startsWith old (drop (length pad1) s) = true) as Hocc.
  { unfold s. rewrite drop_app_length. apply startsWith_app. }
  destruct (match_padded_keep_some old s R _ HR Hocc) as (j & Hj & Hoccj & Hm).
  unfold match_padded. fold R. rewrite Hm. f_equal.
  assert (length pad1 <= j) as Hge.
  { destruct (decide (length pad1 <= j)) as [|Hlt]; [done|].
    rewrite Hfirst in Hoccj; [done|lia]. }
  assert (length pad1 + length old
          + length (take_while is_separator (drop (length pad1 + length old) s))
          = length pad1 + length old + length pad2) as <-.
  { unfold s. rewrite app_assoc, <- length_app, drop_app_length.
    rewrite take_while_app_all by done.
    rewrite (take_while_stop _ post Hpost), app_nil_r. done. }
  symmetry. apply run_end_same; [lia|].
  intros z Hz.
  assert (forall x, x < R -> exists c, s !! x = Some c /\ is_separator c = true)
    as Hrun by apply take_while_length_lookup.
  assert (forall m c, old !! m = Some c -> is_separator c = true) as Hsep.
  { intros m. induction (lt_wf m) as [m _ IH]. intros c Hm'.
    pose proof (startsWith_lookup _ _ _ _ _ Hocc Hm') as Hs1.
    destruct (decide (length pad1 + m < j)) as [Hlt|Hnlt].
    - destruct (Hrun (length pad1 + m) ltac:(lia)) as (c' & Hc' & Hp).
      congruence.
    - assert (length pad1 + m - j < m) as Hm2 by lia.
      destruct (lookup_lt_is_Some_2 old (length pad1 + m - j)) as [c' Hc'].
      { apply lookup_lt_Some in Hm'. lia. }
      pose proof (startsWith_lookup _ _ _ _ _ Hoccj Hc') as Hs2.
      replace (j + (length pad1 + m - j)) with (length pad1 + m) in Hs2 by lia.
      assert (c' = c) as -> by congruence.
      by apply (IH _ Hm2). }
  destruct (decide (z < j)) as [Hlt|Hnlt].
  - apply Hrun. lia.
  - destruct (lookup_lt_is_Some_2 old (z - j)) as [c Hc]; [lia|].
    exists c. split; [|by eapply Hsep].
    replace z with (j + (z - j)) by lia.
    by eapply startsWith_lookup.
Qed.

(** One occurrence: the text before it is kept, the occurrence with its
    padding becomes [r], and the scan goes on after it. *)
Lemma replace_padded_unfold old r pre pad1 pad2 post :
  old <> [] ->
  forallb is_separator pad1 = true -> forallb is_separator pad2 = true ->
  (forall c, last pre = Some c -> is_separator c = false) ->
  (forall c, head post = Some c -> is_separator c = false) ->
  (forall i, i < length pre + length pad1 ->
     startsWith old (drop i (pre ++ pad1 ++ old ++ pad2 ++ post)) = false) ->
  replace_padded old r (pre ++ pad1 ++ old ++ pad2 ++ post)
  = pre ++ r ++ replace_padded old r post.
Proof.
  intros Hold H1 H2 Hpre Hpost Hfirst. unfold replace_padded.
  rewrite replace_padded_block.
  - f_equal.
    rewrite (replace_padded_hit _ _ _ (length pad1 + length old + length pad2)).
    + f_equal. f_equal.
      by rewrite <- !drop_drop, !drop_app_length.
    + destruct old; [done|]. simpl. lia.
    + apply match_padded_first; try done.
      intros i Hi. specialize (Hfirst (length pre + i) ltac:(lia)).
      by rewrite <- drop_drop, drop_app_length in Hfirst.
  - intros i Hi. apply match_padded_keep_none. intros j Hj.
    rewrite drop_drop. apply Hfirst.
    destruct (lookup_lt_is_Some_2 pre (length pre - 1)) as [z Hz]; [lia|].
    assert (is_separator z = false) as Hzsep.
    { apply Hpre. rewrite last_lookup.
      by replace (Init.Nat.pred (length pre)) with (length pre - 1) by lia. }
    assert (length (take_while is_separator
                      (drop i (pre ++ pad1 ++ old ++ pad2 ++ post)))
            <= length pre - 1 - i) as Hb.
    { apply (take_while_bound _ _ _ z); [|done].
      rewrite lookup_drop.
      replace (i + (length pre - 1 - i)) with (length pre - 1) by lia.
      by apply lookup_app_l_Some. }
    lia.
Qed.

End PaddedScan.

Section CleanOriginalName.

(** C5, as the code has it: without an old name (none, or the empty
    string) the base is returned as it is.  With an old name that does
    not occur in the base, the base is returned as it is unless it is
    empty, and then the result is Attachment.  With an old name that
    occurs, each occurrence found from the left, with the padding of
    whitespace, hyphens and underscores around it, is replaced by one
    space (the text before the first occurrence is kept and the scan goes
    on after its padding), the result is trimmed, and an empty result
    becomes Attachment.  Stripping My Note from My Note - diagram gives
    diagram. *)
Theorem getCleanOriginalName_cases (currentBase old : jsstring) :
  getCleanOriginalName currentBase None = currentBase
  /\ getCleanOriginalName currentBase (Some []) = currentBase
  /\ (old <> [] -> includes old currentBase = false ->
      getCleanOriginalName currentBase (Some old)
      = match currentBase with [] => str "Attachment" | _ => currentBase end)
  /\ (old <> [] -> includes old currentBase = true ->
      getCleanOriginalName currentBase (Some old)
      = match trim (replace_padded old (str " ") currentBase) with
        | [] => str "Attachment"
        | clean => clean
        end)
  /\ (forall pre pad1 pad2 post,
        old <> [] ->
        currentBase = pre ++ pad1 ++ old ++ pad2 ++ post ->
        forallb is_separator pad1 = true ->
        forallb is_separator pad2 = true ->
        (forall c, last pre = Some c -> is_separator c = false) ->
        (forall c, head post = Some c -> is_separator c = false) ->
        (forall i, i < length pre + length pad1 ->
           startsWith old (drop i currentBase) = false) ->
        replace_padded old (str " ") currentBase
        = pre ++ str " " ++ replace_padded old (str " ") post)
  /\ (includes old currentBase = false ->
      replace_padded old (str " ") currentBase = currentBase)
  /\ getCleanOriginalName (str "My Note - diagram") (Some (str "My Note"))
     = str "diagram".
Proof.
  split; [done|]. split; [done|]. split; [|split; [|split; [|split]]].
  - intros Hold Hinc. destruct old as [|c old]; [done|].
    unfold getCleanOriginalName. rewrite Hinc. by destruct currentBase.
  - intros Hold Hinc. destruct old as [|c old]; [done|].
    unfold getCleanOriginalName. rewrite Hinc. cbv zeta.
    by destruct (trim _).
  - intros pre pad1 pad2 post Hold -> H1 H2 Hpre Hpost Hfirst.
    by apply replace_padded_unfold.
  - apply replace_padded_absent.
  - reflexivity.
Qed.

(** C5 as stated fails at the edges: an old name that does not occur in
    the empty base gives Attachment, not the base; and the empty old name,
    which occurs in every base, leaves the base as it is. *)
Lemma getCleanOriginalName_counterexample :
  includes (str "x") [] = false
  /\ getCleanOriginalName [] (Some (str "x")) = str "Attachment"
  /\ getCleanOriginalName [] (Some (str "x")) <> []
  /\ includes [] (str "a-b") = true
  /\ getCleanOriginalName (str "a-b") (Some []) = str "a-b".
Proof. by vm_compute. Qed.

(** The theorem of C5 at the base Old-pic of the specification's
    scenario, and at a base without the old name. *)
Lemma getCleanOriginalName_cases_witness :
  replace_padded (str "Old") (str " ") (str "Old-pic")
  = [] ++ str " " ++ replace_padded (str "Old") (str " ") (str "pic")
  /\ getCleanOriginalName (str "Other") (Some (str "Old")) = str "Other".
Proof.
  pose proof (getCleanOriginalName_cases (str "Old-pic") (str "Old"))
    as (_ & _ & _ & _ & Hocc & _).
  pose proof (getCleanOriginalName_cases (str "Other") (str "Old"))
    as (_ & _ & Habsent & _).
  split.
  - apply (Hocc [] [] (str "-") (str "pic")); try done.
    + intros c [= <-]. reflexivity.
    + simpl. intros i Hi. lia.
  - apply Habsent; by vm_compute.
Defined.

End CleanOriginalName.

(** ** The reconciliation pass: what it leaves alone *)

Section Frame.

Lemma same_but_vault_refl p : Spec.same_but_vault p p.
Proof. by repeat split. Qed.

Lemma same_but_vault_trans p1 p2 p3 :
  Spec.same_but_vault p1 p2 -> Spec.same_but_vault p2 p3 -> Spec.same_but_vault p1 p3.
Proof.
  intros (?&?&?&?&?&?) (?&?&?&?&?&?). repeat split; congruence.
Qed.

Lemma vault_kept_but_refl i v : Spec.vault_kept_but i v v.
Proof. by split. Qed.

Lemma ensureFolderExists_frame a folder a1 :
  ensureFolderExists a folder = Return a1 ->
  fileCache a1 = fileCache a /\ linkpathDest a1 = linkpathDest a
  /\ today a1 = today a
  /\ (vault a1 = vault a
      \/ vault a1 = vault a ++ [{| path := normalizePath folder; kind := TFolder |}]).
Proof.
  unfold ensureFolderExists.
  destruct (_ || _); [intros [= <-]; by repeat split; try left|].
  destruct (getAbstractFileByPath a (normalizePath folder)) as [existing|].
  - destruct (is_file existing); [done|]. intros [= <-]. by repeat split; try left.
  - unfold createFolder. intros [= <-]. repeat split. by right.
Qed.

Lemma renameFile_frame a f p a2 :
  renameFile a f p = Return a2 ->
  fileCache a2 = fileCache a /\ linkpathDest a2 = linkpathDest a
  /\ today a2 = today a
  /\ vault a2 = <[f := {| path := p; kind := TFile |}]> (vault a).
Proof.
  unfold renameFile. destruct (getAbstractFileByPath a p); [done|].
  intros [= <-]. by repeat split.
Qed.

Lemma renameTarget_frame st t finalPath folder mode :
  let st' := renameTarget st t finalPath folder mode in
  Spec.same_but_vault (plugin st) (plugin st')
  /\ Spec.vault_kept_but (file t) (vault (app (plugin st))) (vault (app (plugin st'))).
Proof.
  unfold renameTarget. cbv zeta.
  set (unchecked := bool_decide _ && _).
  destruct (if unchecked then _ else _) as [a1|e] eqn:Hens;
    [|split; [apply same_but_vault_refl|apply vault_kept_but_refl]].
  assert (fileCache a1 = fileCache (app (plugin st))
          /\ linkpathDest a1 = linkpathDest (app (plugin st))
          /\ today a1 = today (app (plugin st))
          /\ (vault a1 = vault (app (plugin st))
              \/ exists x, vault a1 = vault (app (plugin st)) ++ [x]))
    as (Hc1 & Hl1 & Ht1 & Hv1).
  { destruct unchecked.
    - apply ensureFolderExists_frame in Hens as (?&?&?&[?|?]); eauto 10.
    - injection Hens as <-. by repeat split; try left. }
  assert (Spec.vault_kept_but (file t) (vault (app (plugin st))) (vault a1)) as Hk1.
  { destruct Hv1 as [->|[x ->]]; [apply vault_kept_but_refl|].
    split.
    - intros j f _ Hj. by apply lookup_app_l_Some.
    - intros [f Hf]. exists f. by apply lookup_app_l_Some. }
  destruct (renameFile a1 (file t) finalPath) as [a2|e] eqn:Hren; simpl.
  - apply renameFile_frame in Hren as (Hc2 & Hl2 & Ht2 & Hv2).
    split; [repeat split; simpl; congruence|].
    rewrite Hv2. destruct Hk1 as [Hk Hi]. split.
    + intros j f Hne Hj. rewrite list_lookup_insert_ne by done. by apply Hk.
    + intros Hsome. apply Hi in Hsome as [f Hf].
      apply lookup_lt_Some in Hf.
      eexists. by apply list_lookup_insert_eq.
  - split; [repeat split; simpl; congruence|done].
Qed.

Lemma processTarget_frame noteFile oldNoteName st t :
  let st' := processTarget noteFile oldNoteName st t in
  Spec.same_but_vault (plugin st) (plugin st')
  /\ Spec.vault_kept_but (file t) (vault (app (plugin st))) (vault (app (plugin st'))).
Proof.
  unfold processTarget. cbv zeta.
  destruct (bool_decide _);
    [split; [apply same_but_vault_refl|apply vault_kept_but_refl]|].
  destruct (planTarget _ _ _ _);
    try (split; [apply same_but_vault_refl|apply vault_kept_but_refl]).
  apply renameTarget_frame.
Qed.

End Frame.

Section PassStates.

Lemma passStates_last noteFile oldNoteName st targets :
  last (passStates noteFile oldNoteName st targets)
  = Some (processTargets noteFile oldNoteName st targets).
Proof.
  revert st. induction targets as [|t targets IH]; intros st; [done|].
  cbn [passStates]. rewrite last_cons.
  by rewrite IH.
Qed.

Lemma passStates_invariant (P : Pass -> Prop) noteFile oldNoteName st targets :
  P st ->
  (forall st t, In t targets -> P st -> P (processTarget noteFile oldNoteName st t)) ->
  Forall P (passStates noteFile oldNoteName st targets).
Proof.
  revert st. induction targets as [|t targets IH]; intros st Hst Hstep.
  - by repeat constructor.
  - cbn [passStates]. constructor; [done|].
    apply IH.
    + apply Hstep; [by left|done].
    + intros st' t' Hin. apply Hstep. by right.
Qed.

Lemma gatherTargets_file a notePath refs i t :
  In t (gatherTargets a notePath refs i) ->
  exists f, vault a !! file t = Some f /\ is_file f = true
            /\ path f <> notePath
            /\ extension (path f) <> str "md".
Proof.
  revert i. induction refs as [|ref refs IH]; intros i; [done|].
  cbn [gatherTargets]. intros [Hin|Hin]%in_app_or; [|by eapply IH].
  destruct (linkpathDest a _ notePath) as [f|]; [|done].
  destruct (vault a !! f) as [af|] eqn:Hf; [|done].
  destruct (is_file af) eqn:Hfile; [|done].
  destruct (JS.eqb (extension (path af)) (str "md")) eqn:Hmd; [done|].
  destruct (JS.eqb (path af) notePath) eqn:Hnote; [done|].
  destruct Hin as [<-|[]]. exists af. simpl.
  apply jseqb_false in Hmd, Hnote. by repeat split.
Qed.

End PassStates.

Section Guard.

Lemma guard_release (x : jsstring) (s : gset jsstring) :
  x ∉ s -> ({[x]} ∪ s) ∖ {[x]} = s.
Proof.
  intros Hx. apply set_eq. intros y.
  rewrite elem_of_difference, elem_of_union, elem_of_singleton.
  split; [by intros [[->|?] ?]|].
  intros Hy. split; [by right|]. by intros ->.
Qed.


Lemma path_of_lookup a f x : vault a !! f = Some x -> path_of a f = path x.
Proof. unfold path_of. by intros ->. Qed.

Lemma with_isProcessing_same p : with_isProcessing p (isProcessing p) = p.
Proof. by destruct p. Qed.


Lemma tryBlock_cases p noteFile oldNoteName :
  (exists e, waitForCache (fileCache (app p) noteFile) 0 cachePolls = Throw e
             /\ tryBlock p noteFile oldNoteName = (Throw e, p))
  \/ (waitForCache (fileCache (app p) noteFile) 0 cachePolls = Return None
      /\ tryBlock p noteFile oldNoteName = (Return 0, p))
  \/ (exists cache,
        waitForCache (fileCache (app p) noteFile) 0 cachePolls = Return (Some cache)
        /\ tryBlock p noteFile oldNoteName
           = (let st := processTargets noteFile oldNoteName (startPass p)
                          (targetsOf p noteFile cache) in
              (Return (renameCount st), plugin st))).
Proof.
  unfold tryBlock.
  destruct (waitForCache _ 0 cachePolls) as [[cache|]|e];
    [|right; by left|left; by exists e].
  right. right. exists cache. split; [done|].
  unfold targetsOf.
  destruct (combinedReferences cache) as [|r refs] eqn:Hrefs; [done|].
  by destruct (gatherTargets _ _ (r :: refs) 0).
Qed.

End Guard.

(** ** The pass among the other events *)

Section Interleaved.

(** When nothing happens during the waits, the pass among the other
    events is the pass. *)
Lemma waitForCacheAmid_alone noteFile p retries fuel :
  waitForCacheAmid (fun _ q => q) noteFile p retries fuel
  = (waitForCache (fileCache (app p) noteFile) retries fuel, p).
Proof.
  revert retries. induction fuel as [|fuel IH]; intros retries; simpl.
  - by destruct (fileCache (app p) noteFile retries).
  - destruct (fileCache (app p) noteFile retries); [done| |done]. apply IH.
Qed.

Lemma processNoteAttachmentsAmid_alone p noteFile oldNoteName :
  processNoteAttachmentsAmid (fun _ q => q) p noteFile oldNoteName
  = processNoteAttachments p noteFile oldNoteName.
Proof.
  unfold processNoteAttachmentsAmid, processNoteAttachments.
  destruct (bool_decide _); [done|].
  unfold tryBlockAmid, tryBlock. rewrite waitForCacheAmid_alone.
  by destruct (waitForCache _ 0 cachePolls) as [[cache|]|e].
Qed.

(** C3: the claim fails on the code when the document is renamed while
    its pass waits.  The cache of [Note.md] is not ready at the first
    poll; when nothing happens during the waits the set is empty after
    the call.  Here the user renames the document to [Other.md] during
    the first wait of 100 ms.  The pass goes on and renames the picture;
    at its end line 330 takes [Other.md] out of the set, which is not in
    it, and [Note.md], which line 190 has put in, stays in the set after
    the call has returned.  From then on a pass for a document at
    [Note.md] (here the document, renamed back) returns 0 at the guard,
    where the same pass with the set emptied renames the picture. *)
Theorem renamed_document_stays_locked :
  isProcessing Example.slowPlugin = ∅
  /\ path_of (app Example.slowPlugin) 0 = str "Note.md"
  /\ fileCache (app Example.slowPlugin) 0 0 = NotIndexed
  /\ elements
       (isProcessing (snd (processNoteAttachmentsAmid (fun _ q => q)
                             Example.slowPlugin 0 None)))
     = []
  /\ fst (processNoteAttachmentsAmid Example.renamedWhileWaiting
            Example.slowPlugin 0 None) = 1
  /\ map path
       (vault (app (snd (processNoteAttachmentsAmid Example.renamedWhileWaiting
                           Example.slowPlugin 0 None))))
     = [str "Other.md"; str "assets/Other pic.png"; str "assets"]
  /\ elements
       (isProcessing (snd (processNoteAttachmentsAmid Example.renamedWhileWaiting
                             Example.slowPlugin 0 None)))
     = [str "Note.md"]
  /\ (let back :=
        renamedMeanwhile 0 (str "Note.md")
          (snd (processNoteAttachmentsAmid Example.renamedWhileWaiting
                  Example.slowPlugin 0 None)) in
      path_of (app back) 0 = str "Note.md"
      /\ processNoteAttachments back 0 None = (0, back)
      /\ fst (processNoteAttachments (with_isProcessing back ∅) 0 None) = 1).
Proof.
  split_and!; try (by vm_compute).
Qed.

End Interleaved.

(** ** The second pass *)

Section SecondPass.

Lemma processTargets_settled p noteFile oldNoteName targets st :
  plugin st = p -> renameCount st = 0 ->
  Forall (fun t => Spec.settled p noteFile oldNoteName t = true) targets ->
  let st' := processTargets noteFile oldNoteName st targets in
  plugin st' = p /\ renameCount st' = 0.
Proof.
  intros Hp Hc Hall. revert st Hp Hc.
  induction Hall as [|t targets Ht _ IH]; intros st Hp Hc; [done|].
  unfold processTargets in *. cbn [fold_left]. apply IH.
  - unfold processTarget. destruct (bool_decide _); [done|].
    unfold Spec.settled in Ht. rewrite Hp.
    by destruct (planTarget p noteFile oldNoteName t).
  - unfold processTarget. destruct (bool_decide _); [done|].
    unfold Spec.settled in Ht. rewrite Hp.
    by destruct (planTarget p noteFile oldNoteName t).
Qed.

(** A pass over a document whose targets are all settled (skipped, at
    the path the templates give, or sent back to the current path by the
    collision resolver) renames 0 attachments and changes nothing. *)
Lemma settled_pass_renames_nothing (p : Plugin) (noteFile : nat)
    (oldNoteName : option jsstring) :
  path_of (app p) noteFile ∉ isProcessing p ->
  (forall cache,
     waitForCache (fileCache (app p) noteFile) 0 cachePolls
     = Return (Some cache) ->
     Forall (fun t => Spec.settled p noteFile oldNoteName t = true)
            (targetsOf p noteFile cache)) ->
  processNoteAttachments p noteFile oldNoteName = (0, p).
Proof.
  intros Hfree Hsettled. unfold processNoteAttachments.
  rewrite bool_decide_eq_false_2 by done.
  set (notePath := path_of (app p) noteFile) in *.
  set (p1 := with_isProcessing p ({[notePath]} ∪ isProcessing p)).
  assert (with_isProcessing p1 (isProcessing p1 ∖ {[notePath]}) = p) as Hback.
  { unfold p1. simpl. rewrite guard_release by done. by destruct p. }
  assert (path_of (app p1) noteFile = notePath) as Hpath by reflexivity.
  destruct (tryBlock_cases p1 noteFile oldNoteName)
    as [(e & _ & ->)|[[_ ->]|(cache & Hcache & ->)]];
    [by rewrite Hpath, Hback..|].
  cbv zeta.
  destruct (processTargets_settled p1 noteFile oldNoteName
              (targetsOf p1 noteFile cache) (startPass p1)) as [-> ->];
    [done|done| |by rewrite Hpath, Hback].
  by apply (Hsettled cache).
Qed.

(** At [Example.namedAfterNote], where the name pattern is the name of
    the document alone, the first pass renames both pictures, the
    second one, a suffix apart, and the second pass renames nothing. *)
Lemma second_pass_idle_without_original :
  fst (processNoteAttachments Example.namedAfterNote 0 None) = 2
  /\ map path (vault (app (snd (processNoteAttachments Example.namedAfterNote 0 None))))
     = [str "Note.md"; str "assets/Note.png"; str "assets/Note 1.png";
        str "assets"]
  /\ processNoteAttachments
       (snd (processNoteAttachments Example.namedAfterNote 0 None)) 0 None
     = (0, snd (processNoteAttachments Example.namedAfterNote 0 None)).
Proof.
  split; [by vm_compute|]. split; [by vm_compute|].
  apply (settled_pass_renames_nothing
           (snd (processNoteAttachments Example.namedAfterNote 0 None)) 0 None).
  - by vm_compute.
  - intros cache Hcache. vm_compute in Hcache. injection Hcache as <-.
    apply Forall_forall. intros t Hin%list_elem_of_In. revert t Hin.
    apply forallb_forall. by vm_compute.
Defined.

(** C1: the claim fails on the code at the default settings.  The
    document [Note.md] is in scope and embeds [pic.png].  The first pass
    renames the picture to [assets/Note pic.png].  The second pass, with
    nothing changed in between, takes [Note pic] for the original name
    of the picture (only the old name of the document is ever stripped,
    and a manual run has none), so it renames the picture again, to
    [assets/Note Note pic.png], and returns 1 where the claim says 0; a
    third pass prefixes the name once more. *)
Theorem second_pass_renames_again :
  isScopeValid (settings Example.defaultPlugin)
               (path_of (app Example.defaultPlugin) 0) = true
  /\ (exists cache,
        waitForCache (fileCache (app Example.defaultPlugin) 0) 0 cachePolls
        = Return (Some cache)
        /\ length (combinedReferences cache) = 1
        /\ map file (targetsOf Example.defaultPlugin 0 cache) = [1])
  /\ processNoteAttachments Example.defaultPlugin 0 None
     = (1, with_app Example.defaultPlugin
             (with_vault Example.notePic
                [ {| path := str "Note.md"; kind := TFile |};
                  {| path := str "assets/Note pic.png"; kind := TFile |};
                  {| path := str "assets"; kind := TFolder |} ]))
  /\ fst (processNoteAttachments
            (snd (processNoteAttachments Example.defaultPlugin 0 None)) 0 None)
     = 1
  /\ map path
       (vault (app (snd (processNoteAttachments
                           (snd (processNoteAttachments Example.defaultPlugin 0 None))
                           0 None))))
     = [str "Note.md"; str "assets/Note Note pic.png"; str "assets"]
  /\ fst (processNoteAttachments
            (snd (processNoteAttachments
                    (snd (processNoteAttachments Example.defaultPlugin 0 None))
                    0 None)) 0 None)
     = 1
  /\ map path
       (vault (app (snd (processNoteAttachments
            (snd (processNoteAttachments
                    (snd (processNoteAttachments Example.defaultPlugin 0 None))
                    0 None)) 0 None))))
     = [str "Note.md"; str "assets/Note Note Note pic.png"; str "assets"].
Proof.
  split; [by vm_compute|]. split.
  { eexists. split; [reflexivity|]. by vm_compute. }
  split_and!; by vm_compute.
Qed.

(** A name pattern without the original name does not make the second
    pass idle either: the first picture gets a suffix because the second
    one is in its way, the second one then moves on to its own number,
    and the second pass takes the suffix off the first. *)
Lemma second_pass_renames_by_index :
  fst (processNoteAttachments Example.namedByIndex 0 None) = 2
  /\ map path (vault (app (snd (processNoteAttachments Example.namedByIndex 0 None))))
     = [str "Note.md"; str "assets/01 1.png"; str "assets/02.png"; str "assets"]
  /\ fst (processNoteAttachments
            (snd (processNoteAttachments Example.namedByIndex 0 None)) 0 None)
     = 1
  /\ map path
       (vault (app (snd (processNoteAttachments
                           (snd (processNoteAttachments Example.namedByIndex 0 None))
                           0 None))))
     = [str "Note.md"; str "assets/01.png"; str "assets/02.png"; str "assets"].
Proof. by vm_compute. Qed.

End SecondPass.

(** ** Paths *)

Section Paths.

Lemma segments_from_word cur w s :
  Spec.slash_free w = true ->
  segments_from cur (w ++ s) = segments_from (cur ++ w) s.
Proof.
  revert cur. induction w as [|c w IH]; intros cur; simpl.
  - by rewrite app_nil_r.
  - intros [Hc Hw]%andb_true_iff. apply negb_true_iff in Hc. rewrite Hc.
    rewrite IH by done. by rewrite <- app_assoc.
Qed.

Lemma segments_from_slash cur a c b :
  is_slash c = true ->
  segments_from cur (a ++ c :: b) = segments_from cur a ++ segments_from [] b.
Proof.
  intros Hc. revert cur. induction a as [|d a IH]; intros cur; simpl.
  - rewrite Hc. by destruct cur.
  - destruct (is_slash d); [|apply IH].
    rewrite IH. by rewrite app_assoc.
Qed.

Lemma segments_word w : Spec.is_segment w -> segments w = [w].
Proof.
  intros [Hne Hw]. unfold segments.
  rewrite <- (app_nil_r w) at 1. rewrite segments_from_word by done.
  simpl. by destruct w.
Qed.

Lemma segments_from_are_segments cur s :
  Spec.slash_free cur = true ->
  Forall Spec.is_segment (segments_from cur s).
Proof.
  revert cur. induction s as [|c s IH]; intros cur Hcur; simpl.
  - destruct cur; [constructor|]. by repeat constructor.
  - destruct (is_slash c) eqn:Hc.
    + apply Forall_app. split; [|by apply IH].
      destruct cur; [constructor|]. by repeat constructor.
    + apply IH. unfold Spec.slash_free. rewrite forallb_app. simpl.
      by rewrite Hc, andb_true_r.
Qed.

Lemma segments_are_segments p : Forall Spec.is_segment (segments p).
Proof. by apply segments_from_are_segments. Qed.

Lemma segments_join segs :
  Forall Spec.is_segment segs -> segments (join segs) = segs.
Proof.
  induction 1 as [|x segs Hx Hsegs IH]; [done|].
  destruct segs as [|y segs]; [simpl; by apply segments_word|].
  change (join (x :: y :: segs)) with (x ++ "/"%char :: join (y :: segs)).
  unfold segments in *. rewrite segments_from_slash by done.
  rewrite IH. fold (segments x). by rewrite segments_word.
Qed.

Lemma segments_folder_name folder nm :
  Spec.is_segment nm ->
  segments (folder ++ str "/" ++ nm) = segments folder ++ [nm].
Proof.
  intros Hnm. unfold segments.
  change (str "/" ++ nm) with ("/"%char :: nm).
  rewrite segments_from_slash by done.
  f_equal. by apply segments_word.
Qed.

Lemma in_removelast (y : jsstring) l : In y (removelast l) -> In y l.
Proof.
  induction l as [|x l IH]; [done|]. simpl.
  destruct l as [|z l]; [done|]. intros [->|H]; [by left|right; by apply IH].
Qed.

Lemma segments_parentPath p :
  segments (parentPath p) = removelast (segments p).
Proof.
  unfold parentPath.
  destruct (removelast (segments p)) as [|x segs] eqn:E; [done|].
  apply segments_join. rewrite <- E.
  pose proof (segments_are_segments p) as H.
  rewrite Forall_forall in H |- *. intros y Hy. apply H.
  apply list_elem_of_In. apply list_elem_of_In in Hy.
  by apply in_removelast.
Qed.

(** A file name put into the folder of a file: the folder of the new path
    is the folder of the file, and the name is the name. *)
Lemma parentPath_in_folder cur nm :
  Spec.is_segment nm ->
  parentPath (normalizePath (parentPath cur ++ str "/" ++ nm)) = parentPath cur
  /\ name (normalizePath (parentPath cur ++ str "/" ++ nm)) = nm.
Proof.
  intros Hnm.
  assert (segments (normalizePath (parentPath cur ++ str "/" ++ nm))
          = removelast (segments cur) ++ [nm]) as Hsegs.
  { unfold normalizePath.
    rewrite segments_folder_name, segments_parentPath by done.
    destruct (removelast (segments cur) ++ [nm]) as [|x l] eqn:E.
    { by destruct (removelast (segments cur)). }
    rewrite <- E. apply segments_join. apply Forall_app.
    split; [|constructor; [done|constructor]].
    rewrite <- segments_parentPath. apply segments_are_segments. }
  split.
  - unfold parentPath at 1. rewrite Hsegs, removelast_last. done.
  - unfold name. rewrite Hsegs. apply last_last.
Qed.

End Paths.

Section Names.

Lemma take_while_forallb p (s : jsstring) : forallb p (take_while p s) = true.
Proof.
  induction s as [|c s IH]; simpl; [done|].
  destruct (p c) eqn:Hc; simpl; [|done]. by rewrite Hc.
Qed.

Lemma take_while_sub (P : ascii -> bool) p (s : jsstring) :
  forallb P s = true -> forallb P (take_while p s) = true.
Proof.
  induction s as [|c s IH]; simpl; [done|].
  intros [Hc Hs]%andb_true_iff. destruct (p c); simpl; [|done].
  by rewrite Hc, IH.
Qed.

Lemma drop_while_sub (P : ascii -> bool) p (s : jsstring) :
  forallb P s = true -> forallb P (drop_while p s) = true.
Proof.
  induction s as [|c s IH]; simpl; [done|].
  intros [Hc Hs]%andb_true_iff. destruct (p c); simpl; [auto|].
  by rewrite Hc, Hs.
Qed.

Lemma take_while_app_stop p (a : jsstring) c b :
  forallb p a = true -> p c = false -> take_while p (a ++ c :: b) = a.
Proof.
  intros Ha Hc. rewrite take_while_app_all by done. simpl.
  by rewrite Hc, app_nil_r.
Qed.

Lemma drop_while_app_stop p (a : jsstring) c b :
  forallb p a = true -> p c = false -> drop_while p (a ++ c :: b) = c :: b.
Proof.
  intros Ha Hc. induction a as [|d a IH]; simpl in *.
  - by rewrite Hc.
  - apply andb_true_iff in Ha as [-> Ha]. auto.
Qed.

(** The extension of [base.ext]. *)
Lemma split_name_ext base ext :
  base <> [] -> Spec.dot_free ext = true ->
  snd (split_name (base ++ str "." ++ ext)) = ext.
Proof.
  intros Hbase Hext. unfold split_name.
  assert (rev (base ++ str "." ++ ext) = rev ext ++ "."%char :: rev base) as ->.
  { change (str "." ++ ext) with ("."%char :: ext).
    rewrite rev_app_distr. simpl. by rewrite <- app_assoc. }
  rewrite take_while_app_stop, drop_while_app_stop;
    [| by unfold Spec.dot_free in Hext; rewrite forallb_rev | done
     | by unfold Spec.dot_free in Hext; rewrite forallb_rev | done].
  destruct (rev ext) as [|e re] eqn:Ee.
  - apply (f_equal (@rev ascii)) in Ee. rewrite rev_involutive in Ee.
    by subst ext.
  - destruct (rev base) as [|b rb] eqn:Eb.
    + apply (f_equal (@rev ascii)) in Eb. rewrite rev_involutive in Eb.
      by subst base.
    + simpl. apply (f_equal (@rev ascii)) in Ee.
      rewrite rev_involutive in Ee. by simpl in Ee.
Qed.

Lemma name_is_slash_free p : Spec.slash_free (name p) = true.
Proof.
  unfold name. pose proof (segments_are_segments p) as H.
  destruct (segments p) as [|x l] using rev_ind; [done|].
  rewrite last_last. apply Forall_app in H as [_ H].
  by inversion H as [|? ? [_ ?] _].
Qed.

Lemma split_name_ext_free n :
  Spec.slash_free n = true ->
  Spec.dot_free (snd (split_name n)) = true
  /\ Spec.slash_free (snd (split_name n)) = true.
Proof.
  intros Hn. unfold split_name.
  set (not_dot := fun c => negb (is_char "." c)).
  destruct (take_while not_dot (rev n)) as [|e es] eqn:Et; [done|].
  destruct (drop_while not_dot (rev n)) as [|d [|b bs]]; [done|done|].
  cbn [snd]. rewrite <- Et. unfold Spec.dot_free, Spec.slash_free.
  rewrite !forallb_rev. split.
  - apply take_while_forallb.
  - apply take_while_sub. by rewrite forallb_rev.
Qed.

Lemma extension_free p :
  Spec.dot_free (extension p) = true /\ Spec.slash_free (extension p) = true.
Proof. apply split_name_ext_free, name_is_slash_free. Qed.

End Names.

Section BaseNames.

Lemma slash_is_illegal c : is_slash c = true -> is_illegal c = true.
Proof. destruct c as [[] [] [] [] [] [] [] []]; by vm_compute. Qed.

Lemma replace_runs_from_outside (cls : ascii -> bool) r b s :
  forallb (fun c => negb (cls c)) r = true ->
  forallb (fun c => negb (cls c)) (replace_runs_from cls r b s) = true.
Proof.
  intros Hr. revert b. induction s as [|c s IH]; intros b; simpl; [done|].
  destruct (cls c) eqn:Hc.
  - rewrite forallb_app, IH. by destruct b; rewrite ?Hr.
  - simpl. by rewrite Hc, IH.
Qed.

Lemma replace_runs_from_keeps (P cls : ascii -> bool) r b s :
  forallb P r = true -> forallb P s = true ->
  forallb P (replace_runs_from cls r b s) = true.
Proof.
  intros Hr. revert b. induction s as [|c s IH]; intros b; simpl; [done|].
  intros [Hc Hs]%andb_true_iff. destruct (cls c).
  - rewrite forallb_app, IH by done. by destruct b; rewrite ?Hr.
  - simpl. by rewrite Hc, IH.
Qed.

Lemma trim_keeps (P : ascii -> bool) s :
  forallb P s = true -> forallb P (trim s) = true.
Proof.
  intros H. unfold trim. rewrite forallb_rev.
  apply drop_while_sub. rewrite forallb_rev. by apply drop_while_sub.
Qed.

Lemma sanitizeName_slash_free s : Spec.slash_free (sanitizeName s) = true.
Proof.
  assert (forallb (fun c => negb (is_illegal c)) (sanitizeName s) = true) as H.
  { unfold sanitizeName. apply trim_keeps.
    apply replace_runs_from_keeps; [done|].
    by apply replace_runs_from_outside. }
  unfold Spec.slash_free. rewrite forallb_forall in H |- *.
  intros c Hc. specialize (H c Hc). apply negb_true_iff in H.
  apply negb_true_iff. destruct (is_slash c) eqn:E; [|done].
  apply slash_is_illegal in E. congruence.
Qed.

Lemma newBaseName_is_segment namePattern vars :
  Spec.is_segment (newBaseName namePattern vars).
Proof.
  unfold newBaseName.
  pose proof (sanitizeName_slash_free (applyVariables namePattern vars)) as H.
  destruct (sanitizeName _) as [|c s]; [by split|by split].
Qed.

Lemma string_of_uint_slash_free d :
  Spec.slash_free (str (NilEmpty.string_of_uint d)) = true.
Proof. unfold str. induction d; simpl; auto. Qed.

Lemma toString_slash_free n : Spec.slash_free (toString n) = true.
Proof. apply string_of_uint_slash_free. Qed.

Lemma slash_free_app a b :
  Spec.slash_free (a ++ b) = Spec.slash_free a && Spec.slash_free b.
Proof. apply forallb_app. Qed.

(** Every path the collision resolver tries for a file that stays in its
    folder is in that folder and has the extension of the file. *)
Lemma candidate_stays cur base c :
  Spec.is_segment base ->
  In c (Spec.candidates
          (normalizePath (parentPath cur ++ str "/" ++ base ++ str "."
                          ++ extension cur))
          (parentPath cur) base (extension cur)) ->
  parentPath c = parentPath cur /\ extension c = extension cur.
Proof.
  intros [Hne Hfree] Hin.
  destruct (extension_free cur) as [Hdot Hslash].
  assert (forall b, Spec.is_segment b ->
            parentPath (normalizePath (parentPath cur ++ str "/" ++ b
                                       ++ str "." ++ extension cur))
            = parentPath cur
            /\ extension (normalizePath (parentPath cur ++ str "/" ++ b
                                         ++ str "." ++ extension cur))
               = extension cur) as Hnamed.
  { intros b [Hbne Hbfree].
    assert (Spec.is_segment (b ++ str "." ++ extension cur)) as Hseg.
    { split; [by destruct b|]. rewrite !slash_free_app, Hbfree, Hslash. done. }
    destruct (parentPath_in_folder cur _ Hseg) as [Hparent Hname].
    split; [done|]. unfold extension at 1. rewrite Hname.
    by apply split_name_ext. }
  destruct Hin as [<-|Hin]; [by apply Hnamed|].
  apply in_map_iff in Hin as (k & <- & _). unfold suffixedPath.
  replace (parentPath cur ++ str "/" ++ base ++ str " " ++ toString k
           ++ str "." ++ extension cur)
    with (parentPath cur ++ str "/" ++ (base ++ str " " ++ toString k)
          ++ str "." ++ extension cur)
    by (by rewrite <- !app_assoc).
  apply Hnamed. split; [by destruct base|].
  rewrite !slash_free_app, Hfree, toString_slash_free. done.
Qed.

Lemma resolveCollision_choice a desiredPath currentFile folder base :
  resolveCollision a desiredPath currentFile folder base = path_of a currentFile
  \/ In (resolveCollision a desiredPath currentFile folder base)
        (Spec.candidates desiredPath folder base
           (extension (path_of a currentFile))).
Proof.
  unfold resolveCollision, maxRetries. rewrite resolveCollision_loop_find.
  fold (Spec.candidates desiredPath folder base (extension (path_of a currentFile))).
  destruct (List.find _ _) as [c|] eqn:E; [|by left].
  right. by apply find_some in E as [? _].
Qed.

Lemma planWith_original_stays a noteFile oldNoteName t np pp finalPath folder mode :
  planWith a noteFile oldNoteName t np pp LocOriginal
  = Move finalPath folder mode ->
  folder = parentPath (path_of a (file t))
  /\ parentPath finalPath = parentPath (path_of a (file t))
  /\ extension finalPath = extension (path_of a (file t)).
Proof.
  unfold planWith. cbn [targetFolderPath].
  set (cur := path_of a (file t)).
  set (base := newBaseName np _).
  destruct (JS.eqb _ cur); [done|].
  destruct (JS.eqb (resolveCollision _ _ _ _ _) cur) eqn:E; [done|].
  intros [= <- <- _]. split; [done|].
  destruct (resolveCollision_choice a
              (normalizePath (parentPath cur ++ str "/" ++ base ++ str "."
                              ++ extension cur))
              (file t) (parentPath cur) base) as [Heq|Hin].
  - apply jseqb_false in E. by fold cur in Heq.
  - fold cur in Hin. eapply candidate_stays; [|exact Hin].
    apply newBaseName_is_segment.
Qed.

End BaseNames.

(** ** Files that stay in their folder *)

Section KeptInFolder.

Lemma processTargets_invariant (P : Pass -> Prop) noteFile oldNoteName targets st :
  P st ->
  (forall st t, P st -> P (processTarget noteFile oldNoteName st t)) ->
  P (processTargets noteFile oldNoteName st targets).
Proof.
  intros Hst Hstep. revert st Hst. unfold processTargets.
  induction targets as [|t targets IH]; intros st Hst; [done|].
  cbn [fold_left]. apply IH. by apply Hstep.
Qed.

(** The target of a guarded rename is afterwards as before or at the
    final path. *)
Lemma renameTarget_target st t finalPath folder mode f :
  vault (app (plugin st)) !! file t = Some f ->
  let v' := vault (app (plugin (renameTarget st t finalPath folder mode))) in
  v' !! file t = Some f
  \/ v' !! file t = Some {| path := finalPath; kind := TFile |}.
Proof.
  intros Hf. unfold renameTarget. cbv zeta.
  set (unchecked := bool_decide _ && _).
  destruct (if unchecked then _ else _) as [a1|e] eqn:Hens; [|by left].
  assert (vault a1 !! file t = Some f) as Hf1.
  { destruct unchecked.
    - apply ensureFolderExists_frame in Hens as (_&_&_&[->| ->]); [done|].
      by apply lookup_app_l_Some.
    - by injection Hens as <-. }
  destruct (renameFile a1 (file t) finalPath) as [a2|e] eqn:Hren; simpl.
  - right. apply renameFile_frame in Hren as (_&_&_& ->).
    apply list_lookup_insert_eq. by apply lookup_lt_Some in Hf1.
  - by left.
Qed.

Lemma processTarget_original noteFile oldNoteName st t i rule parent ext :
  getRuleForExtension (settings (plugin st)) ext = Some rule ->
  locationMode rule = Some LocOriginal ->
  (exists f, vault (app (plugin st)) !! i = Some f
             /\ parentPath (path f) = parent /\ extension (path f) = ext) ->
  let st' := processTarget noteFile oldNoteName st t in
  exists f', vault (app (plugin st')) !! i = Some f'
             /\ parentPath (path f') = parent /\ extension (path f') = ext.
Proof.
  intros Hrule Hmode (f & Hf & Hparent & Hext). cbv zeta.
  destruct (decide (i = file t)) as [->|Hne].
  2: { destruct (processTarget_frame noteFile oldNoteName st t) as [_ [Hk _]].
       exists f. split; [by apply Hk|done]. }
  unfold processTarget. destruct (bool_decide _); [by exists f|].
  destruct (planTarget _ _ _ _) as [| |finalPath folder mode] eqn:Hplan;
    [by exists f|by exists f|].
  unfold planTarget in Hplan.
  rewrite (path_of_lookup _ _ _ Hf) in Hplan.
  destruct (getAbstractFileByPath _ _); [|done].
  rewrite Hext, Hrule, Hmode in Hplan. simpl in Hplan.
  apply planWith_original_stays in Hplan as (_ & Hp & He).
  rewrite (path_of_lookup _ _ _ Hf) in Hp, He.
  destruct (renameTarget_target st t finalPath folder mode f Hf) as [H|H].
  - by exists f.
  - eexists. split; [exact H|]. simpl. split; congruence.
Qed.

(** C8: a file whose rule has the location mode Original keeps its
    folder through a pass: the target folder of the rule is the folder
    the file is in (the root for a file of the root), and after the pass
    the file, renamed or not, with or without a suffix, is in the same
    folder and has the same extension. *)
Theorem original_mode_keeps_folder (p : Plugin) (noteFile : nat)
    (oldNoteName : option jsstring) (i : nat) (f : TAbstractFile)
    (rule : AttachmentRule) :
  vault (app p) !! i = Some f ->
  getRuleForExtension (settings p) (extension (path f)) = Some rule ->
  locationMode rule = Some LocOriginal ->
  (forall notePath,
     targetFolderPath (default LocPattern (locationMode rule))
       (pathPattern rule) notePath (path f)
     = parentPath (path f))
  /\ exists f',
       vault (app (snd (processNoteAttachments p noteFile oldNoteName))) !! i
       = Some f'
       /\ parentPath (path f') = parentPath (path f)
       /\ extension (path f') = extension (path f).
Proof.
  intros Hf Hrule Hmode. split; [intros notePath; by rewrite Hmode|].
  unfold processNoteAttachments.
  destruct (bool_decide _); [by exists f|].
  set (p1 := with_isProcessing p _).
  destruct (tryBlock_cases p1 noteFile oldNoteName)
    as [(e & _ & ->)|[[_ ->]|(cache & _ & ->)]]; [by exists f..|].
  cbv zeta. cbn [snd app with_isProcessing].
  apply (processTargets_invariant
           (fun st => settings (plugin st) = settings p
                      /\ exists f', vault (app (plugin st)) !! i = Some f'
                           /\ parentPath (path f') = parentPath (path f)
                           /\ extension (path f') = extension (path f))).
  - split; [done|]. by exists f.
  - intros st t [Hset Hinv]. split.
    + destruct (processTarget_frame noteFile oldNoteName st t) as [[-> _] _].
      done.
    + eapply processTarget_original; [by rewrite Hset| done | done].
Qed.

(** The theorem of C8 at [Example.keptInPlace]: the picture gets the name
    of the document in front and a suffix, and stays in its folder. *)
Lemma original_mode_keeps_folder_witness :
  map path (vault (app (snd (processNoteAttachments Example.keptInPlace 0 None))))
  = [str "Projects/Note.md"; str "Projects/img/Note pic 1.png";
     str "Projects"; str "Projects/img"; str "Projects/img/Note pic.png"]
  /\ exists f',
       vault (app (snd (processNoteAttachments Example.keptInPlace 0 None))) !! 1
       = Some f'
       /\ parentPath (path f') = parentPath (str "Projects/img/pic.png")
       /\ extension (path f') = extension (str "Projects/img/pic.png").
Proof.
  split; [by vm_compute|].
  apply (original_mode_keeps_folder Example.keptInPlace 0 None 1
           {| path := str "Projects/img/pic.png"; kind := TFile |}
           (Example.pngRule "${filename} ${original}" LocOriginal)).
  - reflexivity.
  - by vm_compute.
  - reflexivity.
Defined.

End KeptInFolder.

(** ** The debounce scheduler *)

Section Debounce.

Lemma nextDue_idle now objs i :
  Forall Spec.idle objs -> nextDue now objs i = None.
Proof.
  intros H. revert i. induction H as [|o objs Ho _ IH]; intros i; [done|].
  simpl. unfold Spec.idle in Ho. by rewrite Ho, IH.
Qed.

Lemma nextDue_after_idle now objs rest i :
  Forall Spec.idle objs ->
  nextDue now (objs ++ rest) i = nextDue now rest (i + length objs).
Proof.
  intros H. revert i. induction H as [|o objs Ho _ IH]; intros i.
  - simpl. by rewrite Nat.add_0_r.
  - simpl. unfold Spec.idle in Ho. rewrite Ho, IH. f_equal. lia.
Qed.

Lemma armed_lookup rt f oldName deadline now' :
  objects (Spec.armed rt f oldName deadline now') !! length (objects rt)
  = Some {| timeout := debounceDelay (settings (this rt));
            pending := Some (deadline, (f, Some oldName)) |}.
Proof.
  unfold Spec.armed. simpl. rewrite lookup_app_r by done.
  by rewrite Nat.sub_diag.
Qed.

Lemma armed_insert rt f oldName deadline now' o :
  <[length (objects rt) := o]> (objects (Spec.armed rt f oldName deadline now'))
  = objects rt ++ [o].
Proof.
  unfold Spec.armed. simpl. rewrite insert_app_r_alt by done.
  by rewrite Nat.sub_diag.
Qed.

(** The first event of a burst. *)
Lemma trigger_first rt f oldName :
  debouncers (this rt) !! path_of (app (this rt)) f = None ->
  triggerDebouncedProcessing f oldName rt
  = Spec.armed rt f oldName (now rt + debounceDelay (settings (this rt))) (now rt).
Proof.
  intros Hnone. unfold triggerDebouncedProcessing. rewrite Hnone.
  unfold callDebouncer. cbn [objects this now].
  rewrite lookup_app_r by done. rewrite Nat.sub_diag. cbn [lookup list_lookup].
  unfold Spec.armed. f_equal.
  rewrite insert_app_r_alt by done. by rewrite Nat.sub_diag.
Qed.

(** A later event of the burst restarts the timer. *)
Lemma trigger_again rt f old oldName deadline now' :
  triggerDebouncedProcessing f oldName (Spec.armed rt f old deadline now')
  = Spec.armed rt f oldName (now' + debounceDelay (settings (this rt))) now'.
Proof.
  unfold triggerDebouncedProcessing.
  assert (debouncers (this (Spec.armed rt f old deadline now'))
            !! path_of (app (this (Spec.armed rt f old deadline now'))) f
          = Some (length (objects rt))) as ->.
  { unfold Spec.armed. simpl. apply lookup_insert_eq. }
  unfold callDebouncer. rewrite armed_lookup. cbn [timeout].
  rewrite armed_insert. reflexivity.
Qed.

Lemma advance_armed rt f oldName deadline now' dt :
  advance dt (Spec.armed rt f oldName deadline now')
  = runDue (S (length (objects rt)))
      (Spec.armed rt f oldName deadline (now' + dt)).
Proof.
  unfold advance, Spec.armed. cbn [objects this now].
  rewrite length_app. cbn [length]. by rewrite Nat.add_1_r.
Qed.

Lemma nextDue_armed rt f oldName deadline now' :
  Forall Spec.idle (objects rt) ->
  nextDue now' (objects (Spec.armed rt f oldName deadline now')) 0
  = if deadline <=? now' then Some (deadline, length (objects rt)) else None.
Proof.
  intros Hidle. unfold Spec.armed. cbn [objects].
  rewrite nextDue_after_idle by done. simpl.
  by destruct (deadline <=? now').
Qed.

Lemma fire_armed rt f oldName deadline now' :
  fire (length (objects rt)) (Spec.armed rt f oldName deadline now')
  = (Some (f, Some oldName),
     {| this := debouncedCallback f (Some oldName)
                  (this (Spec.armed rt f oldName deadline now'));
        objects := objects rt
                   ++ [{| timeout := debounceDelay (settings (this rt));
                          pending := None |}];
        now := now' |}).
Proof.
  unfold fire. rewrite armed_lookup, armed_insert. reflexivity.
Qed.

(** Before the deadline nothing fires. *)
Lemma advance_early rt f oldName deadline now' gap :
  Forall Spec.idle (objects rt) -> now' + gap < deadline ->
  advance gap (Spec.armed rt f oldName deadline now')
  = ([], Spec.armed rt f oldName deadline (now' + gap)).
Proof.
  intros Hidle Hlt. rewrite advance_armed. cbn [runDue].
  change (now (Spec.armed rt f oldName deadline (now' + gap))) with (now' + gap).
  rewrite nextDue_armed by done.
  destruct (deadline <=? now' + gap) eqn:E; [apply Nat.leb_le in E; lia|].
  reflexivity.
Qed.

(** At the deadline the one pending timer fires, once. *)
Lemma advance_due rt f oldName deadline now' dt :
  Forall Spec.idle (objects rt) -> deadline <= now' + dt ->
  advance dt (Spec.armed rt f oldName deadline now')
  = ([(f, Some oldName)],
     {| this := debouncedCallback f (Some oldName)
                  (this (Spec.armed rt f oldName deadline now'));
        objects := objects rt
                   ++ [{| timeout := debounceDelay (settings (this rt));
                          pending := None |}];
        now := now' + dt |}).
Proof.
  intros Hidle Hle. rewrite advance_armed. cbn [runDue].
  change (now (Spec.armed rt f oldName deadline (now' + dt))) with (now' + dt).
  rewrite nextDue_armed by done.
  apply Nat.leb_le in Hle. rewrite Hle. rewrite fire_armed.
  set (rt1 := {| this := _; objects := _; now := _ |}).
  assert (runDue (length (objects rt)) rt1 = ([], rt1)) as ->.
  { destruct (length (objects rt)); [done|]. cbn [runDue].
    rewrite nextDue_idle; [done|].
    unfold rt1. cbn [objects]. apply Forall_app. split; [done|].
    by repeat constructor. }
  reflexivity.
Qed.

Lemma last_cons_default (a d : jsstring) l :
  List.last (a :: l) d = List.last l a.
Proof.
  revert a d. induction l as [|b l IH]; intros a d; [done|].
  change (List.last (a :: b :: l) d) with (List.last (b :: l) d).
  by rewrite !IH.
Qed.

(** Through a burst of events less than the delay apart the timer is
    restarted each time and never fires. *)
Lemma burst_armed rt f oldName events now0 :
  Forall Spec.idle (objects rt) ->
  Forall (fun ev => fst ev < debounceDelay (settings (this rt))) events ->
  exists now1,
    burst f events
      (Spec.armed rt f oldName (now0 + debounceDelay (settings (this rt))) now0)
    = ([], Spec.armed rt f (Spec.lastOldName oldName events)
             (now1 + debounceDelay (settings (this rt))) now1).
Proof.
  intros Hidle Hgaps. revert oldName now0.
  induction Hgaps as [|[gap old'] events Hgap _ IH]; intros oldName now0.
  - by exists now0.
  - cbn [burst]. simpl in Hgap.
    rewrite advance_early by (done || lia).
    rewrite trigger_again.
    destruct (IH old' (now0 + gap)) as [now1 ->].
    exists now1. unfold Spec.lastOldName. cbn [map snd].
    by rewrite last_cons_default.
Qed.

Lemma pendingCount_armed rt f oldName deadline now' :
  Forall Spec.idle (objects rt) ->
  Spec.pendingCount (Spec.armed rt f oldName deadline now') = 1.
Proof.
  intros Hidle. unfold Spec.pendingCount, Spec.armed. cbn [objects].
  rewrite List.filter_app, length_app. cbn.
  induction Hidle as [|o objs Ho _ IH]; [done|].
  cbn. unfold Spec.idle in Ho. rewrite Ho. simpl. exact IH.
Qed.

Lemma pendingCount_idle this' objs now' :
  Forall Spec.idle objs ->
  Spec.pendingCount {| this := this'; objects := objs; now := now' |} = 0.
Proof.
  intros Hidle. unfold Spec.pendingCount. cbn [objects].
  induction Hidle as [|o objs Ho _ IH]; [done|].
  cbn. unfold Spec.idle in Ho. by rewrite Ho.
Qed.

Lemma debouncedCallback_afterPass f oldName p :
  debouncedCallback f (Some oldName) p
  = Notions.afterPass f oldName (path_of (app p) f) p.
Proof. reflexivity. Qed.

(** X23: a burst of rename events for one document.  From a runtime
    without pending timers and without an entry for the document, the
    first event registers a debouncer under the path of the document;
    while events follow, each less than the delay after the one before,
    no pass runs, the plugin stays as it is and exactly one timer is
    pending; once the delay has passed after the last event the callback
    has run exactly once: the plugin is the one [processNoteAttachments]
    leaves for the document with the old name of the last event, the
    entry of the document is out of the registry and no timer is
    pending. *)
Theorem debounce_burst_one_pass (rt : Runtime) (f : nat) (x : TAbstractFile)
    (first : jsstring) (events : list (nat * jsstring)) (dt : nat) :
  let delay := debounceDelay (settings (this rt)) in
  vault (app (this rt)) !! f = Some x ->
  Forall Spec.idle (objects rt) ->
  debouncers (this rt) !! path x = None ->
  Forall (fun ev => fst ev < delay) events ->
  delay <= dt ->
  let rt1 := triggerDebouncedProcessing f first rt in
  let after := advance dt (snd (burst f events rt1)) in
  this rt1 = with_debouncers (this rt)
               (<[path x := length (objects rt)]> (debouncers (this rt)))
  /\ (forall k,
        let so_far := burst f (take k events) rt1 in
        fst so_far = [] /\ this (snd so_far) = this rt1
        /\ Spec.pendingCount (snd so_far) = 1)
  /\ fst after = [(f, Some (Spec.lastOldName first events))]
  /\ this (snd after)
     = Notions.afterPass f (Spec.lastOldName first events) (path x) (this rt1)
  /\ debouncers (this (snd after)) !! path x = None
  /\ Spec.pendingCount (snd after) = 0.
Proof.
  intros delay Hx Hidle Hnone Hgaps Hdt rt1 after.
  unfold after, rt1. clear after rt1. subst delay.
  pose proof (path_of_lookup _ _ _ Hx) as Hpath.
  rewrite <- Hpath in Hnone.
  rewrite trigger_first by done.
  split.
  { unfold Spec.armed. cbn [this]. by rewrite Hpath. }
  split.
  { intros k. cbv zeta.
    destruct (burst_armed rt f first (take k events) (now rt) Hidle)
      as [now1 ->]; [by apply Forall_take|].
    split_and!; [done|done|by apply pendingCount_armed]. }
  destruct (burst_armed rt f first events (now rt) Hidle Hgaps) as [now1 ->].
  cbn [fst snd]. rewrite advance_due by (done || lia).
  cbn [fst snd this]. split; [done|].
  assert (debouncedCallback f (Some (Spec.lastOldName first events))
            (this (Spec.armed rt f (Spec.lastOldName first events)
                     (now1 + debounceDelay (settings (this rt))) now1))
          = Notions.afterPass f (Spec.lastOldName first events) (path x)
              (this (Spec.armed rt f first
                       (now rt + debounceDelay (settings (this rt)))
                       (now rt)))) as ->.
  { rewrite debouncedCallback_afterPass. unfold Spec.armed.
    cbn [this app with_debouncers]. by rewrite Hpath. }
  split_and!; [done| |].
  - unfold Notions.afterPass. cbn [debouncers with_debouncers].
    apply lookup_delete_eq.
  - apply pendingCount_idle. apply Forall_app. split; [done|].
    by repeat constructor.
Qed.

(** The theorem at three rapid events for the document of
    [Example.quiet]: one pass, with the old name of the last event, has
    renamed the picture. *)
Lemma debounce_burst_one_pass_witness :
  fst (advance 2000
         (snd (burst 0 [(100, str "Draft 2"); (250, str "Draft 3")]
                 (triggerDebouncedProcessing 0 (str "Draft") Example.quiet))))
  = [(0, Some (str "Draft 3"))]
  /\ map path
       (vault (app (this (snd (advance 2000
         (snd (burst 0 [(100, str "Draft 2"); (250, str "Draft 3")]
                 (triggerDebouncedProcessing 0 (str "Draft")
                    Example.quiet))))))))
     = [str "Note.md"; str "assets/Note pic.png"; str "assets"]
  /\ debouncers
       (this (snd (advance 2000
                     (snd (burst 0 [(100, str "Draft 2"); (250, str "Draft 3")]
                             (triggerDebouncedProcessing 0 (str "Draft")
                                Example.quiet))))))
     !! str "Note.md" = None.
Proof.
  pose proof (debounce_burst_one_pass Example.quiet 0
                {| path := str "Note.md"; kind := TFile |} (str "Draft")
                [(100, str "Draft 2"); (250, str "Draft 3")] 2000)
    as H.
  cbv zeta in H.
  destruct H as (_ & _ & Hcalls & Hthis & Hregistry & _).
  - reflexivity.
  - constructor.
  - reflexivity.
  - constructor; [by apply Nat.ltb_lt|].
    constructor; [by apply Nat.ltb_lt|constructor].
  - by apply Nat.leb_le.
  - split; [exact Hcalls|]. split; [|exact Hregistry].
    rewrite Hthis. by vm_compute.
Defined.

End Debounce.

(** * Further properties of the code

  Properties of the functions of src/main.ts that the specification does
  not state, read off the code. *)

(** ** Paths as texts and as segments *)

Section PathTexts.

Lemma segment_starts_plain x :
  Spec.is_segment x -> exists c r, x = c :: r /\ is_slash c = false.
Proof.
  intros [Hne Hfree]. destruct x as [|c r]; [done|].
  exists c, r. split; [done|]. simpl in Hfree.
  apply andb_true_iff in Hfree as [Hc _]. by apply negb_true_iff.
Qed.

Lemma join_cons x y segs :
  join (x :: y :: segs) = x ++ "/"%char :: join (y :: segs).
Proof. done. Qed.

Lemma join_starts_plain segs :
  segs <> [] -> Forall Spec.is_segment segs ->
  exists c r, join segs = c :: r /\ is_slash c = false.
Proof.
  intros Hne Hall. destruct Hall as [|x segs Hx Hall]; [done|].
  destruct (segment_starts_plain x Hx) as (c & r & -> & Hc).
  destruct segs as [|y segs]; [by exists c, r|].
  rewrite join_cons. by eexists c, _.
Qed.

Lemma join_not_root segs :
  segs <> [] -> Forall Spec.is_segment segs ->
  join segs <> [] /\ join segs <> root.
Proof.
  intros Hne Hall.
  destruct (join_starts_plain segs Hne Hall) as (c & r & -> & Hc).
  split; [done|]. intros [= -> _]. done.
Qed.

(** Normalizing keeps the segments. *)
Lemma segments_normalizePath p : segments (normalizePath p) = segments p.
Proof.
  unfold normalizePath. destruct (segments p) as [|x l] eqn:E; [done|].
  rewrite <- E. apply segments_join, segments_are_segments.
Qed.

Lemma normalizePath_idem p : normalizePath (normalizePath p) = normalizePath p.
Proof. unfold normalizePath at 1. by rewrite segments_normalizePath. Qed.

Lemma segments_slash a b :
  segments (a ++ str "/" ++ b) = segments a ++ segments b.
Proof. unfold segments. by apply segments_from_slash. Qed.

(** Two texts that go on with a slash after a piece without one. *)
Lemma slash_split x y r1 r2 :
  Spec.slash_free x = true -> Spec.slash_free y = true ->
  x ++ "/"%char :: r1 = y ++ "/"%char :: r2 -> x = y /\ r1 = r2.
Proof.
  revert y. induction x as [|c x IH]; intros y Hx Hy Heq.
  - destruct y as [|d y]; [by injection Heq|].
    simpl in Heq. injection Heq as <- _. by simpl in Hy.
  - destruct y as [|d y].
    + simpl in Heq. injection Heq as -> _. by simpl in Hx.
    + simpl in *. injection Heq as -> Heq.
      apply andb_true_iff in Hx as [_ Hx]. apply andb_true_iff in Hy as [_ Hy].
      destruct (IH y Hx Hy Heq) as [-> ->]. done.
Qed.

Lemma slash_free_slash a b : Spec.slash_free (a ++ "/"%char :: b) = false.
Proof.
  unfold Spec.slash_free. rewrite forallb_app. simpl. apply andb_false_r.
Qed.

End PathTexts.

(** ** The scope, src/main.ts 379-393 *)

Section Under.

Lemma begins_nil_r A : A <> [] -> Notions.begins A [] = false.
Proof. by destruct A. Qed.

(** A joined path is at or under a joined folder exactly when the
    segments of the folder begin its segments. *)
Lemma join_under A B :
  A <> [] -> B <> [] ->
  Forall Spec.is_segment A -> Forall Spec.is_segment B ->
  (join B = join A \/ exists r, join B = join A ++ "/"%char :: r)
  <-> Notions.begins A B = true.
Proof.
  intros HA HB HsA. revert B HB.
  induction HsA as [|x A' [_ Hx] HsA' IH]; [done|]. clear HA.
  intros [|y B'] HB HsB; [done|]. clear HB.
  apply Forall_cons in HsB as [[_ Hy] HsB'].
  cbn [Notions.begins]. rewrite andb_true_iff, jseqb_true.
  destruct A' as [|z A''], B' as [|w B''].
  - simpl. split.
    + intros [->|[r ->]]; [done|]. by rewrite slash_free_slash in Hy.
    + intros [-> _]. by left.
  - rewrite join_cons. change (join [x]) with x. split.
    + intros [H|[r H]].
      * rewrite <- H in Hx. by rewrite slash_free_slash in Hx.
      * apply slash_split in H as [-> _]; done.
    + intros [-> _]. right. by eexists.
  - rewrite join_cons. change (join [y]) with y. split.
    + intros [H|[r H]].
      * rewrite H in Hy. by rewrite slash_free_slash in Hy.
      * rewrite <- app_assoc, <- app_comm_cons in H. rewrite H in Hy.
        by rewrite slash_free_slash in Hy.
    + by intros [_ ?].
  - rewrite !join_cons. rewrite <- IH by done. split.
    + intros [H|[r H]].
      * apply slash_split in H as [-> ->]; [|done..]. split; [done|by left].
      * rewrite <- app_assoc, <- app_comm_cons in H.
        apply slash_split in H as [-> ->]; [|done..].
        split; [done|]. right. by exists r.
    + intros [-> [->|[r ->]]]; [by left|].
      right. exists r. by rewrite <- app_assoc, <- app_comm_cons.
Qed.

Lemma root_not_under A :
  A <> [] -> Forall Spec.is_segment A ->
  root <> join A /\ forall r, root <> join A ++ "/"%char :: r.
Proof.
  intros HA HsA.
  destruct (join_starts_plain A HA HsA) as (c & r & -> & Hc).
  split; [by intros [= <- _]|]. intros r' [= <- _]. done.
Qed.

(** The test of [isScopeValid] for one watched folder. *)
Lemma isMatch_begins A p :
  A <> [] -> Forall Spec.is_segment A ->
  JS.eqb (normalizePath p) (join A)
  || startsWith (join A ++ str "/") (normalizePath p)
  = Notions.begins A (segments p).
Proof.
  intros HA HsA. apply eq_true_iff_eq.
  rewrite orb_true_iff, jseqb_true, startsWith_true.
  unfold normalizePath.
  destruct (segments p) as [|y B'] eqn:E.
  - rewrite begins_nil_r by done.
    destruct (root_not_under A HA HsA) as [H1 H2]. split; [|done].
    intros [H|[r H]]; [done|]. rewrite <- app_assoc in H. by apply H2 in H.
  - rewrite <- join_under; [|done|done|done|rewrite <- E; apply segments_are_segments].
    split; (intros [H|[r H]]; [by left|right; exists r]);
      [by rewrite <- app_assoc in H|by rewrite <- app_assoc].
Qed.

(** The watched paths that count, and their segments. *)
Lemma validWatchedPaths_segments watched :
  List.filter (fun p => negb (JS.eqb p []) && negb (JS.eqb p root))
              (map normalizePath watched)
  = map join (List.filter (fun w => negb (bool_decide (w = [])))
                          (map segments watched)).
Proof.
  induction watched as [|w watched IH]; [done|].
  cbn [map List.filter]. rewrite IH. unfold normalizePath at 1 2 3.
  destruct (segments w) as [|x l] eqn:E.
  - by rewrite bool_decide_eq_true_2.
  - rewrite bool_decide_eq_false_2 by done. cbn [negb].
    destruct (join_not_root (x :: l)) as [H1 H2];
      [done|rewrite <- E; apply segments_are_segments|].
    apply jseqb_false in H1, H2. by rewrite H1, H2.
Qed.

Lemma existsb_isMatch folders p :
  Forall (fun w => w <> [] /\ Forall Spec.is_segment w) folders ->
  existsb (fun folder => JS.eqb (normalizePath p) folder
                         || startsWith (folder ++ str "/") (normalizePath p))
          (map join folders)
  = existsb (fun w => Notions.begins w (segments p)) folders.
Proof.
  induction 1 as [|w ws [H1 H2] _ IH]; [done|].
  cbn [map existsb]. rewrite IH. f_equal. by apply isMatch_begins.
Qed.

(** X14: [isScopeValid] decides by folders, not by texts.  In the mode
    [vault] every path is in scope.  Otherwise the watched paths that
    have a segment are the folders that count (a watched path that is
    empty or made of slashes only counts for nothing, and without any
    folder that counts every path is in scope); a path is inside when the
    segments of one of these folders are the first segments of the path,
    whatever the slashes around and between the segments; the mode
    [include] takes the paths inside and the mode [exclude] the others.
    A path that only starts with the text of a watched folder is not
    inside. *)
Theorem isScopeValid_by_folders (s : PluginSettings) (filePath : jsstring) :
  isScopeValid s filePath = Notions.inScope s filePath.
Proof.
  unfold isScopeValid, Notions.inScope.
  destruct (scopeMode s) eqn:Hmode; [done| |].
  all: rewrite validWatchedPaths_segments.
  all: assert (Forall (fun w => w <> [] /\ Forall Spec.is_segment w)
                 (List.filter (fun w => negb (bool_decide (w = [])))
                    (map segments (watchedPaths s)))) as Hall.
  1,3: apply Forall_forall; intros w [Hw Hne]%list_elem_of_In%filter_In;
       split; [by apply negb_true_iff, bool_decide_eq_false in Hne|];
       apply in_map_iff in Hw as (w0 & <- & _); apply segments_are_segments.
  all: destruct (List.filter _ (map segments _)) as [|w ws] eqn:E; [done|].
  all: cbv zeta; rewrite <- (existsb_isMatch (w :: ws) filePath Hall).
  all: done.
Qed.

End Under.

(** ** The target folder, src/main.ts 346-355 *)

Section TargetFolder.

Lemma removelast_segments p :
  Forall Spec.is_segment (removelast (segments p)).
Proof. rewrite <- segments_parentPath. apply segments_are_segments. Qed.

Lemma parentPath_root p :
  parentPath p = root <-> removelast (segments p) = [].
Proof.
  unfold parentPath. pose proof (removelast_segments p) as H.
  destruct (removelast (segments p)) as [|x l]; [done|].
  split; [|done]. intros Heq.
  by destruct (join_not_root (x :: l)) as [_ ?].
Qed.

Lemma resolveTargetPath_segments pathPattern notePath :
  segments (resolveTargetPath pathPattern notePath)
  = if startsWith (str "./") pathPattern
    then removelast (segments notePath) ++ segments (drop 2 pathPattern)
    else segments pathPattern.
Proof.
  unfold resolveTargetPath.
  destruct (startsWith (str "./") pathPattern); [|apply segments_normalizePath].
  destruct (JS.eqb (parentPath notePath) root) eqn:E.
  - apply jseqb_true, parentPath_root in E. rewrite E.
    apply segments_normalizePath.
  - by rewrite segments_normalizePath, segments_slash, segments_parentPath.
Qed.

Lemma resolveTargetPath_normalized pathPattern notePath :
  normalizePath (resolveTargetPath pathPattern notePath)
  = resolveTargetPath pathPattern notePath.
Proof.
  unfold resolveTargetPath.
  destruct (startsWith _ _); [|apply normalizePath_idem].
  destruct (JS.eqb _ _); apply normalizePath_idem.
Qed.

(** X13: the folder [resolveTargetPath] gives, by its segments.  For a
    pattern that starts with [./] it is the folder of the document
    followed by the segments of the rest of the pattern, so the folder
    of the document itself for the pattern [./], and the pattern alone
    for a document of the root; for any other pattern it is the pattern,
    wherever the document is.  The result is a normalized path. *)
Theorem resolveTargetPath_folder (pathPattern notePath : jsstring) :
  segments (resolveTargetPath pathPattern notePath)
  = (if startsWith (str "./") pathPattern
     then removelast (segments notePath) ++ segments (drop 2 pathPattern)
     else segments pathPattern)
  /\ normalizePath (resolveTargetPath pathPattern notePath)
     = resolveTargetPath pathPattern notePath.
Proof.
  split; [apply resolveTargetPath_segments|apply resolveTargetPath_normalized].
Qed.

End TargetFolder.

(** ** The turns of the loop of a pass, src/main.ts 241-319 *)

Section MovePlans.

Lemma segments_in_folder folder nm :
  Spec.is_segment nm ->
  segments (normalizePath (folder ++ str "/" ++ nm)) = segments folder ++ [nm].
Proof.
  intros Hnm. rewrite segments_normalizePath. by apply segments_folder_name.
Qed.

Lemma name_in_folder folder nm :
  Spec.is_segment nm -> name (normalizePath (folder ++ str "/" ++ nm)) = nm.
Proof.
  intros Hnm. unfold name. rewrite segments_in_folder by done. apply last_last.
Qed.

(** Every path the collision resolver tries is a file name in the target
    folder, with the extension of the file: the new base name, or the
    new base name with a number, and the extension. *)
Lemma candidate_name folder base ext c :
  Spec.is_segment base ->
  Spec.dot_free ext = true -> Spec.slash_free ext = true ->
  In c (Spec.candidates
          (normalizePath (folder ++ str "/" ++ base ++ str "." ++ ext))
          folder base ext) ->
  extension c = ext
  /\ segments c = segments folder ++ [name c]
  /\ (name c = base ++ str "." ++ ext
      \/ exists k, 1 <= k < maxRetries
                   /\ name c = base ++ str " " ++ toString k ++ str "." ++ ext).
Proof.
  intros [Hne Hfree] Hdot Hslash Hin.
  assert (forall b, Spec.is_segment b ->
            let c := normalizePath (folder ++ str "/" ++ b ++ str "." ++ ext) in
            extension c = ext
            /\ segments c = segments folder ++ [name c]
            /\ name c = b ++ str "." ++ ext) as Hnamed.
  { intros b [Hbne Hbfree].
    assert (Spec.is_segment (b ++ str "." ++ ext)) as Hseg.
    { split; [by destruct b|]. rewrite !slash_free_app, Hbfree, Hslash. done. }
    cbv zeta. unfold extension. rewrite name_in_folder by done.
    split_and!; [by apply split_name_ext|by apply segments_in_folder|done]. }
  destruct Hin as [<-|Hin].
  - destruct (Hnamed base) as (H0 & H1 & H2); [done|].
    split_and!; [done|done|by left].
  - apply in_map_iff in Hin as (k & <- & Hk). apply in_seq in Hk.
    unfold suffixedPath.
    replace (folder ++ str "/" ++ base ++ str " " ++ toString k ++ str "." ++ ext)
      with (folder ++ str "/" ++ (base ++ str " " ++ toString k) ++ str "." ++ ext)
      by (by rewrite <- !app_assoc).
    destruct (Hnamed (base ++ str " " ++ toString k)) as (H0 & H1 & H2).
    { split; [by destruct base|].
      rewrite !slash_free_app, Hfree, toString_slash_free. done. }
    split_and!; [done|done|]. right. exists k.
    split; [unfold maxRetries in *; lia|].
    rewrite H2. by rewrite <- !app_assoc.
Qed.

(** The collision resolver gives the current path or a path that nothing
    occupies. *)
Lemma resolveCollision_free a desiredPath currentFile folder base :
  let finalPath := resolveCollision a desiredPath currentFile folder base in
  finalPath = path_of a currentFile
  \/ (getAbstractFileByPath a finalPath = None
      /\ In finalPath (Spec.candidates desiredPath folder base
                         (extension (path_of a currentFile)))).
Proof.
  cbv zeta. unfold resolveCollision, maxRetries.
  rewrite resolveCollision_loop_find.
  fold (Spec.candidates desiredPath folder base (extension (path_of a currentFile))).
  destruct (List.find _ _) as [c|] eqn:E; [|by left]. simpl.
  apply find_some in E as [Hin Hc]. unfold Spec.free_or_self in Hc.
  destruct (getAbstractFileByPath a c) as [existing|] eqn:Hex; [|by right].
  left. apply jseqb_true in Hc. rewrite <- Hc.
  symmetry. by apply getAbstractFileByPath_path in Hex.
Qed.

(** A planned move goes to a path other than the current one, that
    nothing occupies, in the target folder, with the same extension. *)
Lemma planWith_move a noteFile oldNoteName t np pp mode0 finalPath folder mode :
  planWith a noteFile oldNoteName t np pp mode0 = Move finalPath folder mode ->
  finalPath <> path_of a (file t)
  /\ getAbstractFileByPath a finalPath = None
  /\ extension finalPath = extension (path_of a (file t))
  /\ (exists nm, segments finalPath = segments folder ++ [nm])
  /\ mode = mode0
  /\ folder = targetFolderPath mode0 pp (path_of a noteFile) (path_of a (file t)).
Proof.
  unfold planWith.
  set (cur := path_of a (file t)).
  set (base := newBaseName np _).
  set (fd := targetFolderPath mode0 pp _ cur).
  destruct (JS.eqb _ cur); [done|].
  destruct (JS.eqb (resolveCollision _ _ _ _ _) cur) eqn:E; [done|].
  apply jseqb_false in E. intros [= <- <- <-].
  destruct (resolveCollision_free a
              (normalizePath (fd ++ str "/" ++ base ++ str "." ++ extension cur))
              (file t) fd base) as [Heq|[Hfree Hin]]; [done|].
  fold cur in Hin.
  destruct (extension_free cur) as [Hdot Hslash].
  destruct (candidate_name fd base (extension cur) _
              (newBaseName_is_segment _ _) Hdot Hslash Hin) as (Hext & Hseg & _).
  split_and!; try done. by eexists.
Qed.

Lemma planTarget_move p noteFile oldNoteName t finalPath folder mode :
  planTarget p noteFile oldNoteName t = Move finalPath folder mode ->
  finalPath <> path_of (app p) (file t)
  /\ getAbstractFileByPath (app p) finalPath = None
  /\ extension finalPath = extension (path_of (app p) (file t))
  /\ (exists nm, segments finalPath = segments folder ++ [nm]).
Proof.
  unfold planTarget.
  destruct (getAbstractFileByPath _ _); [|done].
  destruct (getRuleForExtension _ _) as [rule|].
  - intros H. apply planWith_move in H. by destruct H as (?&?&?&?&_).
  - destruct (rules _); [|done].
    intros H. apply planWith_move in H. by destruct H as (?&?&?&?&_).
Qed.

End MovePlans.

Section Turns.

Lemma getAbstractFileByPath_None a p :
  getAbstractFileByPath a p = None <-> ~ In p (map path (vault a)).
Proof.
  unfold getAbstractFileByPath. split.
  - intros H Hin. apply in_map_iff in Hin as (x & <- & Hx).
    eapply find_none in H; [|exact Hx]. simpl in H. by rewrite jseqb_refl in H.
  - intros H. destruct (List.find _ _) as [x|] eqn:E; [|done].
    apply find_some in E as [Hin Heq]. apply jseqb_true in Heq.
    exfalso. apply H. apply in_map_iff. eauto.
Qed.

Lemma ensureFolderExists_cases a folder a1 :
  ensureFolderExists a folder = Return a1 ->
  a1 = a
  \/ (getAbstractFileByPath a (normalizePath folder) = None
      /\ a1 = with_vault a (vault a ++ [{| path := normalizePath folder;
                                           kind := TFolder |}])).
Proof.
  unfold ensureFolderExists.
  destruct (_ || _); [intros [= <-]; by left|].
  destruct (getAbstractFileByPath a (normalizePath folder)) as [existing|].
  - destruct (is_file existing); [done|]. intros [= <-]. by left.
  - unfold createFolder. intros [= <-]. by right.
Qed.

(** A path in a folder is not the path of the folder. *)
Lemma in_folder_not_folder finalPath folder nm :
  segments finalPath = segments folder ++ [nm] ->
  finalPath <> normalizePath folder.
Proof.
  intros Hseg ->. rewrite segments_normalizePath in Hseg.
  apply (f_equal (@length _)) in Hseg. rewrite length_app in Hseg.
  simpl in Hseg. lia.
Qed.

(** The guarded rename of a planned move: the folder cannot be made and
    nothing happens, or the folder is there (made if needed) and the
    file is renamed; the rename itself does not fail. *)
Lemma renameTarget_cases st t finalPath folder mode :
  getAbstractFileByPath (app (plugin st)) finalPath = None ->
  (exists nm, segments finalPath = segments folder ++ [nm]) ->
  let st' := renameTarget st t finalPath folder mode in
  st' = st
  \/ exists added,
       (added = []
        \/ (getAbstractFileByPath (app (plugin st)) (normalizePath folder) = None
            /\ added = [{| path := normalizePath folder; kind := TFolder |}]))
       /\ vault (app (plugin st'))
          = <[file t := {| path := finalPath; kind := TFile |}]>
              (vault (app (plugin st)) ++ added)
       /\ renameCount st' = S (renameCount st)
       /\ processedPaths st' = {[finalPath]} ∪ processedPaths st.
Proof.
  intros Hfree [nm Hseg]. unfold renameTarget. cbv zeta.
  set (a := app (plugin st)) in *.
  set (unchecked := bool_decide _ && _).
  destruct (if unchecked then _ else _) as [a1|e] eqn:Hens; [|by left].
  assert (exists added,
            (added = []
             \/ (getAbstractFileByPath a (normalizePath folder) = None
                 /\ added = [{| path := normalizePath folder; kind := TFolder |}]))
            /\ vault a1 = vault a ++ added) as (added & Hadded & Hv1).
  { destruct unchecked.
    - apply ensureFolderExists_cases in Hens as [->|[Hnone ->]].
      + exists []. split; [by left|by rewrite app_nil_r].
      + eexists. split; [right; by split|done].
    - injection Hens as <-. exists []. split; [by left|by rewrite app_nil_r]. }
  assert (getAbstractFileByPath a1 finalPath = None) as Hfree1.
  { apply getAbstractFileByPath_None. rewrite Hv1, map_app, in_app_iff.
    apply getAbstractFileByPath_None in Hfree. intros [Hin|Hin]; [done|].
    destruct Hadded as [->|[_ ->]]; [done|].
    destruct Hin as [Heq|[]]. simpl in Heq.
    by apply (in_folder_not_folder finalPath folder nm). }
  unfold renameFile. rewrite Hfree1. right. exists added.
  simpl. by rewrite Hv1.
Qed.

(** One turn of the loop for a target that is an object of the vault:
    it leaves the vault and the counter alone, or it renames the file of
    the target. *)
Lemma processTarget_step noteFile oldNoteName st t f :
  vault (app (plugin st)) !! file t = Some f ->
  let st' := processTarget noteFile oldNoteName st t in
  (vault (app (plugin st')) = vault (app (plugin st))
   /\ renameCount st' = renameCount st
   /\ processedPaths st ⊆ processedPaths st')
  \/ exists finalPath added,
       (path f ∉ processedPaths st)
       /\ finalPath <> path f
       /\ extension finalPath = extension (path f)
       /\ getAbstractFileByPath (app (plugin st)) finalPath = None
       /\ (added = []
           \/ exists q,
                getAbstractFileByPath (app (plugin st)) q = None
                /\ q <> finalPath
                /\ added = [{| path := q; kind := TFolder |}])
       /\ vault (app (plugin st'))
          = <[file t := {| path := finalPath; kind := TFile |}]>
              (vault (app (plugin st)) ++ added)
       /\ renameCount st' = S (renameCount st)
       /\ processedPaths st' = {[finalPath]} ∪ processedPaths st.
Proof.
  intros Hf. cbv zeta. unfold processTarget.
  rewrite (path_of_lookup _ _ _ Hf).
  destruct (bool_decide (path f ∈ processedPaths st)) eqn:Hseen;
    [by left|].
  apply bool_decide_eq_false in Hseen.
  destruct (planTarget _ _ _ _) as [| |finalPath folder mode] eqn:Hplan.
  - by left.
  - left. simpl. split_and!; [done|done|]. apply union_subseteq_r.
  - apply planTarget_move in Hplan as (Hne & Hfree & Hext & Hseg).
    rewrite (path_of_lookup _ _ _ Hf) in Hne, Hext.
    destruct (renameTarget_cases st t finalPath folder mode Hfree Hseg)
      as [->|(added & Hadded & Hv & Hc & Hp)]; [by left|].
    right. exists finalPath, added. split_and!; try done.
    destruct Hadded as [->|[Hnone ->]]; [by left|].
    right. eexists. split_and!; [exact Hnone| |done].
    destruct Hseg as [nm Hseg]. intros Heq. symmetry in Heq.
    by apply (in_folder_not_folder finalPath folder nm).
Qed.

End Turns.

(** ** A whole pass, src/main.ts 188-332 *)

Section WholePass.

Lemma processTargets_rec (P : Pass -> Prop) noteFile oldNoteName targets st :
  P st ->
  (forall st t, In t targets -> P st ->
                P (processTarget noteFile oldNoteName st t)) ->
  P (processTargets noteFile oldNoteName st targets).
Proof.
  intros Hst Hstep.
  pose proof (passStates_invariant P noteFile oldNoteName st targets Hst Hstep)
    as Hall.
  pose proof (passStates_last noteFile oldNoteName st targets) as Hlast.
  rewrite Forall_forall in Hall. apply Hall.
  by apply last_Some_elem_of.
Qed.

(** What a call of [processNoteAttachments] comes to: nothing, or the
    loop over the targets of the document. *)
Lemma processNoteAttachments_cases p noteFile oldNoteName :
  processNoteAttachments p noteFile oldNoteName = (0, p)
  \/ exists cache,
       waitForCache (fileCache (app p) noteFile) 0 cachePolls
       = Return (Some cache)
       /\ let p1 := with_isProcessing p
                      ({[path_of (app p) noteFile]} ∪ isProcessing p) in
          let st := processTargets noteFile oldNoteName (startPass p1)
                      (targetsOf p noteFile cache) in
          fst (processNoteAttachments p noteFile oldNoteName) = renameCount st
          /\ app (snd (processNoteAttachments p noteFile oldNoteName))
             = app (plugin st)
          /\ settings (snd (processNoteAttachments p noteFile oldNoteName))
             = settings (plugin st)
          /\ debouncers (snd (processNoteAttachments p noteFile oldNoteName))
             = debouncers (plugin st).
Proof.
  unfold processNoteAttachments.
  destruct (bool_decide _) eqn:Hguard; [by left|].
  apply bool_decide_eq_false in Hguard.
  set (notePath := path_of (app p) noteFile) in *.
  set (p1 := with_isProcessing p ({[notePath]} ∪ isProcessing p)).
  assert (with_isProcessing p1 (isProcessing p1 ∖ {[notePath]}) = p) as Hback.
  { unfold p1. simpl. rewrite guard_release by done. by destruct p. }
  assert (path_of (app p1) noteFile = notePath) as Hpath by reflexivity.
  destruct (tryBlock_cases p1 noteFile oldNoteName)
    as [(e & _ & ->)|[[_ ->]|(cache & Hcache & ->)]];
    [left; by rewrite Hpath, Hback..|].
  right. exists cache. split; [exact Hcache|]. by cbv zeta.
Qed.

Lemma targetsOf_in_vault p noteFile cache t :
  In t (targetsOf p noteFile cache) ->
  exists f, vault (app p) !! file t = Some f /\ is_file f = true
            /\ path f <> path_of (app p) noteFile
            /\ extension (path f) <> str "md".
Proof. apply gatherTargets_file. Qed.

Lemma is_file_kind f : is_file f = true <-> kind f = TFile.
Proof. unfold is_file. by destruct (kind f). Qed.

(** The loop keeps every object of the vault, with its kind and its
    extension, changes only the files of targets, and adds only
    folders. *)
Lemma processTargets_keeps noteFile oldNoteName p1 targets :
  Forall (fun t => exists f, vault (app p1) !! file t = Some f
                             /\ is_file f = true) targets ->
  let v0 := vault (app p1) in
  let v := vault (app (plugin (processTargets noteFile oldNoteName
                                 (startPass p1) targets))) in
  length v0 <= length v
  /\ (forall i x, v0 !! i = Some x ->
        exists x', v !! i = Some x' /\ kind x' = kind x
                   /\ extension (path x') = extension (path x)
                   /\ (~ In i (map file targets) -> x' = x))
  /\ (forall i x', length v0 <= i -> v !! i = Some x' -> kind x' = TFolder).
Proof.
  intros Htargets v0. cbv zeta.
  apply (processTargets_rec
           (fun st =>
              let v := vault (app (plugin st)) in
              length v0 <= length v
              /\ (forall i x, v0 !! i = Some x ->
                    exists x', v !! i = Some x' /\ kind x' = kind x
                               /\ extension (path x') = extension (path x)
                               /\ (~ In i (map file targets) -> x' = x))
              /\ (forall i x', length v0 <= i -> v !! i = Some x' ->
                               kind x' = TFolder))).
  { cbv zeta. simpl. split; [done|]. split.
    - intros i x Hx. by exists x.
    - intros i x' Hi Hx'. apply lookup_lt_Some in Hx'. fold v0 in Hx'. lia. }
  intros st t Hin (Hlen & Hkept & Hnew). cbv zeta.
  rewrite Forall_forall in Htargets.
  destruct (Htargets t (proj2 (list_elem_of_In _ _) Hin)) as (f0 & Hf0 & Hfile0).
  destruct (Hkept _ _ Hf0) as (f & Hf & Hkind & Hext & _).
  destruct (processTarget_step noteFile oldNoteName st t f Hf)
    as [(-> & _ & _)|(finalPath & added & _ & _ & Hext' & _ & Hadded & -> & _ & _)];
    [done|].
  assert (file t < length v0) as Hj by (by apply lookup_lt_Some in Hf0).
  split; [rewrite length_insert, length_app; lia|]. split.
  - intros i x Hx. destruct (decide (i = file t)) as [->|Hne].
    + eexists. split; [apply list_lookup_insert_eq; rewrite length_app; lia|].
      assert (x = f0) as -> by (unfold v0 in Hx; congruence).
      simpl. split_and!.
      * symmetry. by apply is_file_kind.
      * congruence.
      * intros Hnot. exfalso. apply Hnot. by apply in_map.
    + destruct (Hkept _ _ Hx) as (x' & Hx' & ?).
      exists x'. split; [|done].
      rewrite list_lookup_insert_ne by done. by apply lookup_app_l_Some.
  - intros i x' Hi Hx'.
    rewrite list_lookup_insert_ne in Hx' by lia.
    apply lookup_app_Some in Hx' as [Hx'|[Hge Hx']]; [by eapply Hnew|].
    destruct Hadded as [->|(q & _ & _ & ->)]; [done|].
    apply list_lookup_singleton_Some in Hx' as [_ <-]. done.
Qed.

End WholePass.

Section KeptVault.

Lemma targetFiles_cache p noteFile cache :
  waitForCache (fileCache (app p) noteFile) 0 cachePolls = Return (Some cache) ->
  Notions.targetFiles p noteFile = map file (targetsOf p noteFile cache).
Proof. unfold Notions.targetFiles. by intros ->. Qed.

Lemma targetFiles_are_attachments p noteFile i x :
  vault (app p) !! i = Some x ->
  In i (Notions.targetFiles p noteFile) ->
  kind x = TFile /\ extension (path x) <> str "md" /\ i <> noteFile.
Proof.
  intros Hx. unfold Notions.targetFiles.
  destruct (waitForCache _ _ _) as [[cache|]|]; [|done..].
  intros (t & <- & Hin)%in_map_iff.
  destruct (targetsOf_in_vault _ _ _ _ Hin) as (f & Hf & Hfile & Hne & Hmd).
  assert (f = x) as -> by congruence.
  split_and!; [by apply is_file_kind|done|].
  intros Heq. rewrite <- Heq in Hne. by rewrite (path_of_lookup _ _ _ Hx) in Hne.
Qed.

Lemma processNoteAttachments_keeps p noteFile oldNoteName :
  let v := vault (app p) in
  let v' := vault (app (snd (processNoteAttachments p noteFile oldNoteName))) in
  (forall i x, v !! i = Some x ->
     exists x', v' !! i = Some x' /\ kind x' = kind x
                /\ extension (path x') = extension (path x)
                /\ (~ In i (Notions.targetFiles p noteFile) -> x' = x))
  /\ (forall i x, v !! i = Some x ->
        kind x = TFolder \/ extension (path x) = str "md" \/ i = noteFile ->
        v' !! i = Some x)
  /\ (forall i x', length v <= i -> v' !! i = Some x' -> kind x' = TFolder)
  /\ length v <= length v'.
Proof.
  intros v v'.
  assert ((forall i x, v !! i = Some x ->
             exists x', v' !! i = Some x' /\ kind x' = kind x
                        /\ extension (path x') = extension (path x)
                        /\ (~ In i (Notions.targetFiles p noteFile) -> x' = x))
          /\ (forall i x', length v <= i -> v' !! i = Some x' ->
                           kind x' = TFolder)
          /\ length v <= length v') as (Hkept & Hnew & Hlen).
  { unfold v'.
    destruct (processNoteAttachments_cases p noteFile oldNoteName)
      as [->|(cache & Hcache & _ & -> & _)].
    - simpl. split_and!; [|  |done].
      + intros i x Hx. by exists x.
      + intros i x' Hi Hx'. apply lookup_lt_Some in Hx'. fold v in Hx'. lia.
    - rewrite (targetFiles_cache _ _ _ Hcache).
      set (p1 := with_isProcessing p _).
      destruct (processTargets_keeps noteFile oldNoteName p1
                  (targetsOf p noteFile cache)) as (H0 & H1 & H2);
        [|by split_and!].
      apply Forall_forall. intros t Hin%list_elem_of_In.
      destruct (targetsOf_in_vault _ _ _ _ Hin) as (f & Hf & Hfile & _).
      by exists f. }
  split; [done|]. split; [|done].
  intros i x Hx Hwhat.
  destruct (Hkept i x Hx) as (x' & Hx' & _ & _ & Hsame).
  rewrite Hx'. f_equal. apply Hsame. intros Hin.
  destruct (targetFiles_are_attachments p noteFile i x Hx Hin) as (Hk & Hmd & Hn).
  destruct Hwhat as [Hfolder|[Hext|Hnote]]; congruence.
Qed.

(** A pass changes nothing of the plugin but the vault. *)
Lemma processNoteAttachments_frame p noteFile oldNoteName :
  is_Some (vault (app p) !! noteFile) ->
  Spec.same_but_vault p (snd (processNoteAttachments p noteFile oldNoteName)).
Proof.
  intros [nf Hnf].
  pose proof (processNoteAttachments_keeps p noteFile oldNoteName)
    as (_ & Hnote & _).
  specialize (Hnote noteFile nf Hnf (or_intror (or_intror eq_refl))).
  revert Hnote. unfold processNoteAttachments.
  destruct (bool_decide _) eqn:Hguard; [intros _; apply same_but_vault_refl|].
  apply bool_decide_eq_false in Hguard.
  set (notePath := path_of (app p) noteFile) in *.
  set (p1 := with_isProcessing p ({[notePath]} ∪ isProcessing p)).
  assert (Spec.same_but_vault p1 (snd (tryBlock p1 noteFile oldNoteName)))
    as Hsame.
  { destruct (tryBlock_cases p1 noteFile oldNoteName)
      as [(e & _ & ->)|[[_ ->]|(cache & _ & ->)]];
      [apply same_but_vault_refl..|].
    cbv zeta. cbn [snd].
    apply (processTargets_invariant
             (fun st => Spec.same_but_vault p1 (plugin st))).
    - apply same_but_vault_refl.
    - intros st t Hst. eapply same_but_vault_trans; [exact Hst|].
      apply processTarget_frame. }
  destruct (tryBlock p1 noteFile oldNoteName) as [r p2]. cbn [snd] in *.
  intros Hnote. cbn [app with_isProcessing] in Hnote.
  rewrite (path_of_lookup _ _ _ Hnote).
  rewrite <- (path_of_lookup _ _ _ Hnf). fold notePath.
  destruct Hsame as (Hs & Hp & Hd & Hc & Hl & Ht).
  unfold p1 in *. cbn [settings isProcessing debouncers app with_isProcessing] in *.
  repeat split; cbn; try done.
  rewrite Hp. by apply guard_release.
Qed.

(** X9: what a pass does to the vault.  Every object stays, with its
    kind and its extension; only files that are targets of the document
    can get another path, so no folder, no markdown file and not the
    document itself; and the objects that come to the vault are
    folders. *)
Theorem pass_keeps_vault (p : Plugin) (noteFile : nat)
    (oldNoteName : option jsstring) :
  let v := vault (app p) in
  let v' := vault (app (snd (processNoteAttachments p noteFile oldNoteName))) in
  (forall i x, v !! i = Some x ->
     exists x', v' !! i = Some x' /\ kind x' = kind x
                /\ extension (path x') = extension (path x)
                /\ (~ In i (Notions.targetFiles p noteFile) -> x' = x))
  /\ (forall i x, v !! i = Some x ->
        kind x = TFolder \/ extension (path x) = str "md" \/ i = noteFile ->
        v' !! i = Some x)
  /\ (forall i x', length v <= i -> v' !! i = Some x' -> kind x' = TFolder).
Proof.
  pose proof (processNoteAttachments_keeps p noteFile oldNoteName)
    as (H1 & H2 & H3 & _).
  by split_and!.
Qed.

End KeptVault.

Section Counting.

Lemma path_of_vault a a' i : vault a' = vault a -> path_of a' i = path_of a i.
Proof. unfold path_of. by intros ->. Qed.

Lemma moved_vault a0 a a' :
  vault a' = vault a -> Notions.moved a0 a' = Notions.moved a0 a.
Proof.
  intros Hv. unfold Notions.moved. apply filter_ext. intros i.
  by rewrite (path_of_vault _ _ _ Hv).
Qed.

Lemma moved_nil a : Notions.moved a a = [].
Proof.
  unfold Notions.moved. induction (seq 0 (length (vault a))) as [|i l IH]; [done|].
  simpl. by rewrite jseqb_refl.
Qed.

Lemma moved_In a0 a i :
  In i (Notions.moved a0 a)
  <-> i < length (vault a0) /\ path_of a0 i <> path_of a i.
Proof.
  unfold Notions.moved. rewrite filter_In, in_seq, negb_true_iff, jseqb_false.
  split; [intros [[_ ?] ?]|intros [? ?]]; split; try done; lia.
Qed.

(** One more element passes the filter. *)
Lemma filter_one_more (P Q : nat -> bool) (l : list nat) j :
  NoDup l -> In j l -> P j = false -> Q j = true ->
  (forall i, In i l -> i <> j -> Q i = P i) ->
  length (List.filter Q l) = S (length (List.filter P l)).
Proof.
  intros Hnd Hin HP HQ Hother.
  induction l as [|i l IH]; [done|].
  apply NoDup_cons in Hnd as [Hi Hnd]. simpl.
  destruct (decide (i = j)) as [->|Hne].
  - rewrite HP, HQ. simpl. f_equal. f_equal.
    apply filter_ext_in. intros k Hk. apply Hother; [by right|]. intros ->.
    by apply Hi, list_elem_of_In.
  - rewrite (Hother i) by (done || by left).
    destruct Hin as [Heq|Hin]; [done|].
    assert (length (List.filter Q l) = S (length (List.filter P l))) as Hrec.
    { apply IH; [done|done|]. intros k Hk. apply Hother. by right. }
    destruct (P i); simpl; by rewrite Hrec.
Qed.

Lemma path_of_moved (v added : list TAbstractFile) a a' j x i :
  vault a = v -> vault a' = <[j := x]> (v ++ added) ->
  j < length v -> i < length v ->
  path_of a' i = if decide (i = j) then path x else path_of a i.
Proof.
  intros Hv Hv' Hj Hi. unfold path_of. rewrite Hv, Hv'.
  destruct (decide (i = j)) as [->|Hne].
  - rewrite list_lookup_insert_eq; [done|rewrite length_app; lia].
  - rewrite list_lookup_insert_ne by done.
    by rewrite lookup_app_l by done.
Qed.

(** The counter of the loop is the number of objects that have moved,
    and the path of each of them is marked as processed. *)
Lemma processTargets_counts noteFile oldNoteName p1 targets :
  Forall (fun t => is_Some (vault (app p1) !! file t)) targets ->
  let st := processTargets noteFile oldNoteName (startPass p1) targets in
  renameCount st = length (Notions.moved (app p1) (app (plugin st))).
Proof.
  intros Htargets.
  apply (processTargets_rec
           (fun st =>
              length (vault (app p1)) <= length (vault (app (plugin st)))
              /\ renameCount st = length (Notions.moved (app p1) (app (plugin st)))
              /\ (forall i, In i (Notions.moved (app p1) (app (plugin st))) ->
                            path_of (app (plugin st)) i ∈ processedPaths st))).
  { simpl. rewrite moved_nil. by split_and!. }
  intros st t Hin (Hlen & Hcount & Hmarked).
  rewrite Forall_forall in Htargets.
  pose proof (Htargets t (proj2 (list_elem_of_In _ _) Hin)) as Hj.
  apply lookup_lt_is_Some in Hj.
  destruct (lookup_lt_is_Some_2 (vault (app (plugin st))) (file t)) as [f Hf];
    [lia|].
  destruct (processTarget_step noteFile oldNoteName st t f Hf)
    as [(Hv & Hc & Hsub)
       |(finalPath & added & Hseen & Hne & _ & _ & _ & Hv & Hc & Hp)].
  - rewrite (moved_vault _ _ _ Hv), Hv, Hc. split_and!; [done|done|].
    intros i Hi. rewrite (path_of_vault _ _ _ Hv). apply Hsub. by apply Hmarked.
  - set (st' := processTarget noteFile oldNoteName st t) in *.
    assert (forall i, i < length (vault (app p1)) ->
              path_of (app (plugin st')) i
              = if decide (i = file t) then finalPath
                else path_of (app (plugin st)) i) as Hpath.
    { intros i Hi.
      rewrite (path_of_moved (vault (app (plugin st))) added
                 (app (plugin st)) (app (plugin st')) (file t)
                 {| path := finalPath; kind := TFile |} i); [done..|lia|lia]. }
    assert (~ In (file t) (Notions.moved (app p1) (app (plugin st)))) as Hfresh.
    { intros Hm. apply Hmarked in Hm.
      by rewrite (path_of_lookup _ _ _ Hf) in Hm. }
    assert (path_of (app p1) (file t) = path f) as Hold.
    { destruct (decide (path_of (app p1) (file t) = path f)) as [|Hd]; [done|].
      exfalso. apply Hfresh. apply moved_In. split; [done|].
      by rewrite (path_of_lookup _ _ _ Hf). }
    split_and!.
    + rewrite Hv, length_insert, length_app. lia.
    + rewrite Hc, Hcount. symmetry. unfold Notions.moved.
      apply (filter_one_more _ _ _ (file t)).
      * apply NoDup_ListNoDup, seq_NoDup.
      * apply in_seq. lia.
      * apply negb_false_iff, jseqb_true.
        by rewrite (path_of_lookup _ _ _ Hf).
      * rewrite Hpath by done. rewrite decide_True by done.
        apply negb_true_iff, jseqb_false. congruence.
      * intros i [_ Hi]%in_seq Hni.
        rewrite Hpath by done. by rewrite decide_False.
    + intros i [Hi Hd]%moved_In. rewrite Hp.
      rewrite Hpath in Hd |- * by done.
      destruct (decide (i = file t)) as [->|Hni].
      * apply elem_of_union_l. by apply elem_of_singleton.
      * apply elem_of_union_r. apply Hmarked. by apply moved_In.
Qed.

End Counting.

Section CountedRenames.

Lemma processNoteAttachments_counts p noteFile oldNoteName :
  fst (processNoteAttachments p noteFile oldNoteName)
  = length (Notions.moved (app p)
              (app (snd (processNoteAttachments p noteFile oldNoteName)))).
Proof.
  destruct (processNoteAttachments_cases p noteFile oldNoteName)
    as [->|(cache & Hcache & -> & -> & _)].
  - simpl. by rewrite moved_nil.
  - set (p1 := with_isProcessing p _).
    apply (processTargets_counts noteFile oldNoteName p1).
    apply Forall_forall. intros t Hin%list_elem_of_In.
    destruct (targetsOf_in_vault _ _ _ _ Hin) as (f & Hf & _).
    by exists f.
Qed.

(** X10: the number [processNoteAttachments] returns is the number of
    objects of the vault that have another path after the call than
    before it, and each of these objects is a target of the document.  A
    file that the document refers to more than once is renamed, and
    counted, once; a rename that was planned and not done is not
    counted; and a call that returns 0 has moved nothing. *)
Theorem renamed_count_is_moved (p : Plugin) (noteFile : nat)
    (oldNoteName : option jsstring) :
  let p' := snd (processNoteAttachments p noteFile oldNoteName) in
  fst (processNoteAttachments p noteFile oldNoteName)
  = length (Notions.moved (app p) (app p'))
  /\ (forall i, In i (Notions.moved (app p) (app p')) ->
                In i (Notions.targetFiles p noteFile))
  /\ (fst (processNoteAttachments p noteFile oldNoteName) = 0 ->
      forall i, i < length (vault (app p)) ->
                path_of (app p') i = path_of (app p) i).
Proof.
  cbv zeta.
  pose proof (processNoteAttachments_counts p noteFile oldNoteName) as Hcount.
  split; [exact Hcount|]. split.
  - intros i [Hi Hd]%moved_In.
    destruct (in_dec Nat.eq_dec i (Notions.targetFiles p noteFile)) as [|Hout];
      [done|].
    destruct (lookup_lt_is_Some_2 (vault (app p)) i Hi) as [x Hx].
    destruct (processNoteAttachments_keeps p noteFile oldNoteName)
      as (Hkept & _).
    destruct (Hkept i x Hx) as (x' & Hx' & _ & _ & Hsame).
    rewrite (Hsame Hout) in Hx'.
    by rewrite (path_of_lookup _ _ _ Hx), (path_of_lookup _ _ _ Hx') in Hd.
  - intros Hzero i Hi. rewrite Hzero in Hcount.
    destruct (decide (path_of (app p) i
                      = path_of (app (snd (processNoteAttachments p noteFile
                                             oldNoteName))) i)) as [|Hd];
      [done|].
    assert (In i (Notions.moved (app p)
                    (app (snd (processNoteAttachments p noteFile oldNoteName)))))
      as Hin by (by apply moved_In).
    destruct (Notions.moved _ _); [done|discriminate].
Qed.

End CountedRenames.

Section DistinctPaths.

Lemma elem_of_insert_inv (l : list jsstring) j y x :
  x ∈ <[j := y]> l -> x = y \/ x ∈ l.
Proof.
  revert j. induction l as [|z l IH]; intros j; [by right|].
  destruct j as [|j]; simpl; rewrite !elem_of_cons.
  - intros [->|Hin]; [by left|right; by right].
  - intros [->|Hin]; [right; by left|].
    destruct (IH _ Hin) as [->|?]; [by left|right; by right].
Qed.

Lemma NoDup_insert_fresh (l : list jsstring) j y :
  NoDup l -> y ∉ l -> NoDup (<[j := y]> l).
Proof.
  intros Hnd. revert j.
  induction Hnd as [|x l Hx Hnd IH]; intros j Hy; [constructor|].
  apply not_elem_of_cons in Hy as [Hne Hy].
  destruct j as [|j]; simpl.
  - by constructor.
  - constructor; [|by apply IH].
    intros [->|Hin]%elem_of_insert_inv; done.
Qed.

Lemma map_path_insert (v : list TAbstractFile) j x :
  map path (<[j := x]> v) = <[j := path x]> (map path v).
Proof.
  revert j. induction v as [|y v IH]; intros j; [done|].
  destruct j as [|j]; simpl; [done|]. by rewrite IH.
Qed.

Lemma getAbstractFileByPath_free a p :
  getAbstractFileByPath a p = None <-> p ∉ map path (vault a).
Proof. rewrite getAbstractFileByPath_None. by rewrite list_elem_of_In. Qed.

(** The loop keeps the paths of the vault distinct. *)
Lemma processTargets_distinct noteFile oldNoteName p1 targets :
  Forall (fun t => is_Some (vault (app p1) !! file t)) targets ->
  NoDup (map path (vault (app p1))) ->
  let st := processTargets noteFile oldNoteName (startPass p1) targets in
  NoDup (map path (vault (app (plugin st)))).
Proof.
  intros Htargets Hnd.
  apply (processTargets_rec
           (fun st =>
              length (vault (app p1)) <= length (vault (app (plugin st)))
              /\ NoDup (map path (vault (app (plugin st)))))).
  { by split. }
  intros st t Hin (Hlen & Hdist).
  rewrite Forall_forall in Htargets.
  pose proof (Htargets t (proj2 (list_elem_of_In _ _) Hin)) as Hj.
  apply lookup_lt_is_Some in Hj.
  destruct (lookup_lt_is_Some_2 (vault (app (plugin st))) (file t)) as [f Hf];
    [lia|].
  destruct (processTarget_step noteFile oldNoteName st t f Hf)
    as [(-> & _ & _)
       |(finalPath & added & _ & _ & _ & Hfree & Hadded & -> & _ & _)];
    [done|].
  split; [rewrite length_insert, length_app; lia|].
  rewrite map_path_insert, map_app. apply getAbstractFileByPath_free in Hfree.
  destruct Hadded as [->|(q & Hq & Hne & ->)].
  - simpl. rewrite app_nil_r. by apply NoDup_insert_fresh.
  - apply getAbstractFileByPath_free in Hq. apply NoDup_insert_fresh.
    + apply NoDup_app. split; [done|]. split; [|apply NoDup_singleton].
      intros x Hx. simpl. intros ->%list_elem_of_singleton. done.
    + rewrite elem_of_app. simpl.
      intros [?|?%list_elem_of_singleton]; [done|]. congruence.
Qed.

(** X11: a pass keeps the paths of the vault distinct: when no two
    objects of the vault have the same path before the call, no two have
    after it.  A file is renamed only to a path that nothing occupies,
    and a folder is made only where nothing is. *)
Theorem pass_keeps_paths_distinct (p : Plugin) (noteFile : nat)
    (oldNoteName : option jsstring) :
  NoDup (map path (vault (app p))) ->
  NoDup (map path
           (vault (app (snd (processNoteAttachments p noteFile oldNoteName))))).
Proof.
  intros Hnd.
  destruct (processNoteAttachments_cases p noteFile oldNoteName)
    as [->|(cache & Hcache & _ & -> & _)]; [done|].
  set (p1 := with_isProcessing p _).
  apply (processTargets_distinct noteFile oldNoteName p1); [|done].
  apply Forall_forall. intros t Hin%list_elem_of_In.
  destruct (targetsOf_in_vault _ _ _ _ Hin) as (f & Hf & _).
  by exists f.
Qed.

Lemma pass_keeps_paths_distinct_witness :
  NoDup (map path
           (vault (app (snd (processNoteAttachments Example.namedAfterNote 0 None))))).
Proof.
  apply (pass_keeps_paths_distinct Example.namedAfterNote 0 None).
  apply (bool_decide_unpack _). by vm_compute.
Defined.

End DistinctPaths.

(** ** A planned move, carried out, src/main.ts 303-318 *)

Section CarriedOut.

Lemma ensureFolderExists_throws a folder e :
  ensureFolderExists a folder = Throw e ->
  exists x, getAbstractFileByPath a (normalizePath folder) = Some x
            /\ kind x = TFile.
Proof.
  unfold ensureFolderExists. destruct (_ || _); [done|].
  destruct (getAbstractFileByPath a (normalizePath folder)) as [x|]; [|done].
  destruct (is_file x) eqn:Hfile; [|done].
  intros _. exists x. split; [done|]. by apply is_file_kind.
Qed.

(** X20: a planned move is carried out unless a file is in the way
    of the target folder.  The host makes a folder where nothing is and
    renames a file to a path that nothing occupies.  So for a target
    that is in the vault and whose path is not marked as processed, when
    the plan is a move, the turn of the loop renames the file to the
    planned path, counts it and marks the new path as processed, after
    making the target folder if it was not checked before in this pass
    and is not there; or, in the mode [pattern], a file is at the path
    of the target folder, the error is caught and the turn changes
    nothing, so the pass goes on with the next target. *)
Theorem planned_move_is_carried_out (noteFile : nat)
    (oldNoteName : option jsstring) (st : Pass) (t : AttachmentInfo)
    (f : TAbstractFile) (finalPath folder : jsstring) (mode : LocationMode) :
  vault (app (plugin st)) !! file t = Some f ->
  (path f ∉ processedPaths st) ->
  planTarget (plugin st) noteFile oldNoteName t = Move finalPath folder mode ->
  let st' := processTarget noteFile oldNoteName st t in
  (vault (app (plugin st')) !! file t
   = Some {| path := finalPath; kind := TFile |}
   /\ renameCount st' = S (renameCount st)
   /\ processedPaths st' = {[finalPath]} ∪ processedPaths st
   /\ (forall i x, i <> file t -> vault (app (plugin st)) !! i = Some x ->
                   vault (app (plugin st')) !! i = Some x))
  \/ (st' = st /\ mode = LocPattern /\ (folder ∉ checkedFolders st)
      /\ exists x,
           getAbstractFileByPath (app (plugin st)) (normalizePath folder)
           = Some x
           /\ kind x = TFile).
Proof.
  intros Hf Hseen Hplan. cbv zeta.
  destruct (planTarget_move _ _ _ _ _ _ _ Hplan) as (_ & Hfree & _ & Hseg).
  unfold processTarget. rewrite (path_of_lookup _ _ _ Hf).
  rewrite bool_decide_eq_false_2 by done. rewrite Hplan.
  destruct (renameTarget_cases st t finalPath folder mode Hfree Hseg)
    as [Hsame|(added & Hadded & Hv & Hc & Hp)].
  - right. split; [done|].
    revert Hsame. unfold renameTarget.
    destruct (bool_decide (folder ∉ checkedFolders st)) eqn:Hchecked.
    2: { cbn [andb]. unfold renameFile. rewrite Hfree.
         intros Heq. apply (f_equal renameCount) in Heq. simpl in Heq. lia. }
    apply bool_decide_eq_true in Hchecked.
    destruct mode.
    2: { cbn [andb]. unfold renameFile. rewrite Hfree.
         intros Heq. apply (f_equal renameCount) in Heq. simpl in Heq. lia. }
    cbn [andb].
    destruct (ensureFolderExists (app (plugin st)) folder) as [a1|e] eqn:Hens.
    + destruct (renameFile a1 (file t) finalPath) as [a2|e'] eqn:Hren.
      * intros Heq. apply (f_equal renameCount) in Heq. simpl in Heq. lia.
      * intros Heq. apply (f_equal checkedFolders) in Heq. simpl in Heq.
        exfalso. apply Hchecked. rewrite <- Heq.
        apply elem_of_union_l. by apply elem_of_singleton.
    + intros _. split_and!; [done|done|].
      by apply ensureFolderExists_throws in Hens.
  - left. split_and!; [|done|done|].
    + rewrite Hv. apply list_lookup_insert_eq.
      rewrite length_app. apply lookup_lt_Some in Hf. lia.
    + intros i x Hi Hx. rewrite Hv. rewrite list_lookup_insert_ne by done.
      by apply lookup_app_l_Some.
Qed.

Lemma planned_move_is_carried_out_witness :
  map path
    (vault (app (plugin (processTarget 0 None (startPass Example.defaultPlugin)
                           {| file := 1; originalPath := str "pic.png";
                              index := 0 |}))))
  = [str "Note.md"; str "assets/Note pic.png"; str "assets"].
Proof.
  destruct (planned_move_is_carried_out 0 None (startPass Example.defaultPlugin)
              {| file := 1; originalPath := str "pic.png"; index := 0 |}
              {| path := str "pic.png"; kind := TFile |}
              (str "assets/Note pic.png") (str "assets") LocPattern)
    as [_|[Hsame _]]; [reflexivity|by vm_compute|by vm_compute| |].
  - by vm_compute.
  - exfalso. apply (f_equal renameCount) in Hsame. by vm_compute in Hsame.
Defined.

End CarriedOut.

(** ** The allowlist, src/main.ts 246-256 *)

Section AllowlistPolicy.

(** A target without a rule, under a rule list that is not empty, is
    skipped. *)
Lemma processTarget_no_rule noteFile oldNoteName st t :
  getRuleForExtension (settings (plugin st))
    (extension (path_of (app (plugin st)) (file t))) = None ->
  rules (settings (plugin st)) <> [] ->
  processTarget noteFile oldNoteName st t = st.
Proof.
  intros Hrule Hrules. unfold processTarget.
  destruct (bool_decide _); [done|].
  unfold planTarget. rewrite Hrule.
  destruct (getAbstractFileByPath _ _); [|done].
  by destruct (rules (settings (plugin st))).
Qed.

(** The plan under an empty rule list. *)
Lemma planTarget_no_rules p noteFile oldNoteName t x :
  rules (settings p) = [] ->
  vault (app p) !! file t = Some x ->
  planTarget p noteFile oldNoteName t
  = planWith (app p) noteFile oldNoteName t
      (defaultNamePattern (settings p)) (defaultPathPattern (settings p))
      LocPattern.
Proof.
  intros Hrules Hx. unfold planTarget.
  destruct (getAbstractFileByPath _ _) eqn:Hfind.
  - unfold getRuleForExtension. by rewrite Hrules.
  - exfalso. apply getAbstractFileByPath_None in Hfind. apply Hfind.
    rewrite (path_of_lookup _ _ _ Hx). apply in_map.
    apply list_elem_of_In. by eapply list_elem_of_lookup_2.
Qed.

(** C4: the allowlist.  Under a rule list that is not empty, a file
    whose extension no rule lists is skipped: the turn of the loop for
    it changes nothing, and the file is where it was after the whole
    pass.  Under an empty rule list the default name pattern and the
    default path pattern are applied to every target that is in the
    vault and not yet marked, whatever its extension: after the turn the
    file is at the path the collision resolver gives for the name and
    the folder of the default patterns, that path is marked as processed
    and the rename is counted when the path has changed; or a file is in
    the way of the target folder and the turn changes nothing. *)
Theorem allowlist_policy (p : Plugin) (noteFile : nat)
    (oldNoteName : option jsstring) :
  (rules (settings p) <> [] ->
   forall i x,
     vault (app p) !! i = Some x ->
     getRuleForExtension (settings p) (extension (path x)) = None ->
     (forall st t, plugin st = p -> file t = i ->
                   processTarget noteFile oldNoteName st t = st)
     /\ vault (app (snd (processNoteAttachments p noteFile oldNoteName))) !! i
        = Some x)
  /\ (rules (settings p) = [] ->
      forall st t x,
        plugin st = p ->
        vault (app p) !! file t = Some x ->
        path x ∉ processedPaths st ->
        let notePath := path_of (app p) noteFile in
        let base :=
          newBaseName (defaultNamePattern (settings p))
            (variables (app p) notePath (path x) oldNoteName (index t)) in
        let folder :=
          resolveTargetPath (defaultPathPattern (settings p)) notePath in
        let desiredPath :=
          normalizePath (folder ++ str "/" ++ base ++ str "."
                         ++ extension (path x)) in
        let finalPath :=
          resolveCollision (app p) desiredPath (file t) folder base in
        let st' := processTarget noteFile oldNoteName st t in
        (path_of (app (plugin st')) (file t) = finalPath
         /\ finalPath ∈ processedPaths st'
         /\ renameCount st'
            = (if bool_decide (finalPath = path x) then renameCount st
               else S (renameCount st)))
        \/ (st' = st /\ finalPath <> path x
            /\ (folder ∉ checkedFolders st)
            /\ exists y,
                 getAbstractFileByPath (app p) (normalizePath folder) = Some y
                 /\ kind y = TFile)).
Proof.
  split.
  - intros Hrules i x Hx Hrule. split.
    + intros st t <- <-. apply processTarget_no_rule; [|done].
      by rewrite (path_of_lookup _ _ _ Hx).
    + destruct (processNoteAttachments_cases p noteFile oldNoteName)
        as [->|(cache & _ & Hloop)]; [done|].
      cbv zeta in Hloop. destruct Hloop as (_ & -> & _).
      apply (processTargets_rec
               (fun st => vault (app (plugin st)) !! i = Some x
                          /\ settings (plugin st) = settings p)).
      * by split.
      * intros st t _ [Hi Hs].
        destruct (decide (file t = i)) as [<-|Hne].
        -- rewrite processTarget_no_rule; [done| |by rewrite Hs].
           by rewrite Hs, (path_of_lookup _ _ _ Hi).
        -- destruct (processTarget_frame noteFile oldNoteName st t)
             as [(Hs' & _) [Hk _]].
           split; [by apply Hk|congruence].
  - intros Hrules st t x <- Hx Hseen notePath base folder desiredPath finalPath.
    cbv zeta.
    pose proof (path_of_lookup _ _ _ Hx) as Hpath.
    pose proof (planTarget_no_rules (plugin st) noteFile oldNoteName t x
                  Hrules Hx) as Hplan.
    assert (planWith (app (plugin st)) noteFile oldNoteName t
              (defaultNamePattern (settings (plugin st)))
              (defaultPathPattern (settings (plugin st))) LocPattern
            = if JS.eqb desiredPath (path x) then InPlace
              else if JS.eqb finalPath (path x) then InPlace
                   else Move finalPath folder LocPattern) as Hwith.
    { unfold planWith. rewrite Hpath. reflexivity. }
    rewrite Hwith in Hplan. clear Hwith.
    assert (JS.eqb desiredPath (path x) = true -> finalPath = path x) as Hsame.
    { intros Heq%jseqb_true. unfold finalPath, resolveCollision, maxRetries.
      cbn [resolveCollision_loop]. rewrite Heq.
      destruct (getAbstractFileByPath _ (path x)) as [existing|] eqn:Hfind;
        [|done].
      apply getAbstractFileByPath_path in Hfind.
      by rewrite Hpath, Hfind, jseqb_refl. }
    unfold processTarget. rewrite Hpath.
    rewrite bool_decide_eq_false_2 by done.
    destruct (JS.eqb desiredPath (path x)) eqn:Hdesired.
    { rewrite Hplan. left. cbn [plugin processedPaths renameCount].
      rewrite (Hsame eq_refl), Hpath.
      rewrite bool_decide_eq_true_2 by done.
      split_and!; [done| |done]. apply elem_of_union_l. by apply elem_of_singleton. }
    destruct (JS.eqb finalPath (path x)) eqn:Hfinal.
    { rewrite Hplan. left. cbn [plugin processedPaths renameCount].
      apply jseqb_true in Hfinal. rewrite Hfinal, Hpath.
      rewrite bool_decide_eq_true_2 by done.
      split_and!; [done| |done]. apply elem_of_union_l. by apply elem_of_singleton. }
    apply jseqb_false in Hfinal.
    destruct (planTarget_move _ _ _ _ _ _ _ Hplan) as (_ & Hfree & _ & Hseg).
    rewrite Hplan.
    destruct (renameTarget_cases st t finalPath folder LocPattern Hfree Hseg)
      as [Hstay|(added & Hadded & Hv & Hc & Hp)].
    + right. split; [done|]. split; [done|].
      revert Hstay. unfold renameTarget.
      destruct (bool_decide (folder ∉ checkedFolders st)) eqn:Hchecked.
      2: { cbn [andb]. unfold renameFile. rewrite Hfree.
           intros Heq. apply (f_equal renameCount) in Heq. simpl in Heq. lia. }
      apply bool_decide_eq_true in Hchecked. cbn [andb].
      destruct (ensureFolderExists (app (plugin st)) folder) as [a1|e] eqn:Hens.
      * destruct (renameFile a1 (file t) finalPath) as [a2|e'] eqn:Hren.
        -- intros Heq. apply (f_equal renameCount) in Heq. simpl in Heq. lia.
        -- intros Heq. apply (f_equal checkedFolders) in Heq. simpl in Heq.
           exfalso. apply Hchecked. rewrite <- Heq.
           apply elem_of_union_l. by apply elem_of_singleton.
      * intros _. split; [done|]. by apply ensureFolderExists_throws in Hens.
    + left. rewrite bool_decide_eq_false_2 by done. split_and!; [|  |done].
      * unfold path_of. rewrite Hv.
        rewrite list_lookup_insert_eq; [done|].
        rewrite length_app. apply lookup_lt_Some in Hx. lia.
      * rewrite Hp. apply elem_of_union_l. by apply elem_of_singleton.
Qed.

(** The theorem at a document that embeds a picture and links a text
    file.  Under the default settings, which have rules but none for
    txt, a pass leaves the text file where it is and renames the
    picture; without any rule the pass takes the default patterns for
    both and moves both to the attachments folder. *)
Lemma allowlist_policy_witness :
  vault (app (snd (processNoteAttachments Example.textUnderRules 0 None))) !! 2
  = Some {| path := str "data.txt"; kind := TFile |}
  /\ map path (vault (app (snd (processNoteAttachments Example.textUnderRules 0 None))))
     = [str "Note.md"; str "assets/Note pic.png"; str "data.txt"; str "assets"]
  /\ path_of
       (app (plugin (processTarget 0 None (startPass Example.textWithoutRules)
                       {| file := 2; originalPath := str "data.txt";
                          index := 1 |}))) 2
     = str "attachments/Note data.txt"
  /\ processNoteAttachments Example.textWithoutRules 0 None
     = (2, with_app Example.textWithoutRules
             (with_vault Example.noteWithText
                [ {| path := str "Note.md"; kind := TFile |};
                  {| path := str "attachments/Note pic.png"; kind := TFile |};
                  {| path := str "attachments/Note data.txt"; kind := TFile |};
                  {| path := str "attachments"; kind := TFolder |} ])).
Proof.
  split.
  { destruct (allowlist_policy Example.textUnderRules 0 None) as [Hskip _].
    apply Hskip; [discriminate|reflexivity|by vm_compute]. }
  split; [by vm_compute|]. split; [|by vm_compute].
  destruct (allowlist_policy Example.textWithoutRules 0 None) as [_ Hdefault].
  destruct (Hdefault eq_refl (startPass Example.textWithoutRules)
              {| file := 2; originalPath := str "data.txt"; index := 1 |}
              {| path := str "data.txt"; kind := TFile |})
    as [(Hpath & _)|(Hsame & _)]; [reflexivity|reflexivity|by vm_compute| |].
  - etransitivity; [exact Hpath|by vm_compute].
  - exfalso. apply (f_equal renameCount) in Hsame. by vm_compute in Hsame.
Defined.

End AllowlistPolicy.

(** ** The cache of the document, src/main.ts 194-204 *)

Section Polling.







End Polling.

(** ** The in-flight guard, src/main.ts 189-190 and 325-331 *)

Section HeldGuard.



End HeldGuard.

(** ** The targets, src/main.ts 206-231 *)

Section Targets.

Lemma gatherTargets_sound a notePath refs i0 t :
  In t (gatherTargets a notePath refs i0) ->
  exists ref f,
    refs !! (index t - i0) = Some ref /\ i0 <= index t
    /\ linkpathDest a (before_first "^" (before_first "#" (link ref))) notePath
       = Some (file t)
    /\ vault a !! file t = Some f
    /\ originalPath t = path f
    /\ kind f = TFile
    /\ extension (path f) <> str "md"
    /\ path f <> notePath.
Proof.
  revert i0. induction refs as [|ref refs IH]; intros i0; [done|].
  cbn [gatherTargets]. intros [Hin|Hin]%in_app_or.
  - destruct (linkpathDest a _ notePath) as [f|] eqn:Hdest; [|done].
    destruct (vault a !! f) as [x|] eqn:Hx; [|done].
    destruct (is_file x) eqn:Hfile; [|done].
    destruct (JS.eqb (extension (path x)) (str "md")) eqn:Hmd; [done|].
    destruct (JS.eqb (path x) notePath) eqn:Hnote; [done|].
    destruct Hin as [<-|[]]. exists ref, x. simpl.
    rewrite Nat.sub_diag. apply jseqb_false in Hmd, Hnote.
    split_and!; try done. by apply is_file_kind.
  - destruct (IH _ Hin) as (ref' & f & Href & Hle & H).
    exists ref', f. split; [|split; [lia|exact H]].
    replace (index t - i0) with (S (index t - S i0)) by lia. done.
Qed.

Lemma gatherTargets_complete a notePath refs i0 k ref f x :
  refs !! k = Some ref ->
  linkpathDest a (before_first "^" (before_first "#" (link ref))) notePath
  = Some f ->
  vault a !! f = Some x ->
  kind x = TFile -> extension (path x) <> str "md" -> path x <> notePath ->
  In {| file := f; originalPath := path x; index := i0 + k |}
     (gatherTargets a notePath refs i0).
Proof.
  intros Href Hdest Hx Hkind Hmd Hnote. revert i0 k Href.
  induction refs as [|r refs IH]; intros i0 k Href; [done|].
  cbn [gatherTargets]. apply in_or_app. destruct k as [|k].
  - left. injection Href as ->. rewrite Hdest, Hx.
    apply is_file_kind in Hkind. apply jseqb_false in Hmd, Hnote.
    rewrite Hkind, Hmd, Hnote. simpl. left. by rewrite Nat.add_0_r.
  - right. replace (i0 + S k) with (S i0 + k) by lia. by apply IH.
Qed.

Lemma gatherTargets_ascending a notePath refs i0 i j t1 t2 :
  gatherTargets a notePath refs i0 !! i = Some t1 ->
  gatherTargets a notePath refs i0 !! j = Some t2 ->
  i < j -> index t1 < index t2.
Proof.
  revert i0 i j. induction refs as [|ref refs IH]; intros i0 i j; [done|].
  cbn [gatherTargets].
  set (found := match linkpathDest a _ notePath with
                | Some f => _ | None => [] end).
  assert (found = []
          \/ exists t0, found = [t0] /\ index t0 = i0) as [->|(t0 & -> & Ht0)].
  { unfold found. destruct (linkpathDest a _ notePath) as [f|]; [|by left].
    destruct (vault a !! f) as [x|]; [|by left].
    destruct (_ && _); [|by left]. right. by eexists. }
  - apply IH.
  - intros H1 H2 Hij. destruct j as [|j]; [lia|].
    simpl in H2. destruct i as [|i].
    + injection H1 as <-.
      apply list_elem_of_lookup_2, list_elem_of_In in H2.
      destruct (gatherTargets_sound _ _ _ _ _ H2) as (_ & _ & _ & Hle & _).
      lia.
    + simpl in H1. apply (IH (S i0) i j); [done|done|lia].
Qed.

(** X7: the targets of a pass.  A target is a reference of the
    document, embeds first and links after them, whose link text, cut
    at the first [#] and then at the first [^], leads to a file of the
    vault that is not a markdown file and not the document; every such
    reference gives a target.  The index of a target is the position of
    its reference among all the references of the document, so the
    targets come in ascending order of index, and references that are
    not targets use up positions. *)
Theorem targets_are_attachments (p : Plugin) (noteFile : nat)
    (cache : CachedMetadata) :
  let notePath := path_of (app p) noteFile in
  let refs := combinedReferences cache in
  let leads_to ref f :=
    linkpathDest (app p)
      (before_first "^" (before_first "#" (link ref))) notePath = Some f in
  let attachment (x : TAbstractFile) :=
    kind x = TFile /\ extension (path x) <> str "md" /\ path x <> notePath in
  refs = default [] (embeds cache) ++ default [] (links cache)
  /\ Forall (fun t => exists ref x,
               refs !! index t = Some ref /\ leads_to ref (file t)
               /\ vault (app p) !! file t = Some x
               /\ originalPath t = path x /\ attachment x)
            (targetsOf p noteFile cache)
  /\ (forall k ref f x,
        refs !! k = Some ref -> leads_to ref f ->
        vault (app p) !! f = Some x -> attachment x ->
        In {| file := f; originalPath := path x; index := k |}
           (targetsOf p noteFile cache))
  /\ (forall i j t1 t2,
        targetsOf p noteFile cache !! i = Some t1 ->
        targetsOf p noteFile cache !! j = Some t2 ->
        i < j -> index t1 < index t2).
Proof.
  intros notePath refs leads_to attachment. split; [done|]. split; [|split].
  - apply Forall_forall. intros t Hin%list_elem_of_In.
    destruct (gatherTargets_sound _ _ _ _ _ Hin)
      as (ref & x & Href & _ & Hdest & Hx & Ho & Hk & Hmd & Hnote).
    rewrite Nat.sub_0_r in Href. exists ref, x. by split_and!.
  - intros k ref f x Href Hdest Hx (Hk & Hmd & Hnote).
    by apply (gatherTargets_complete _ _ _ 0 k ref f x).
  - apply gatherTargets_ascending.
Qed.

End Targets.

(** ** Folders, src/main.ts 423-432 *)

Section Folders.

Lemma find_app_None {A} (f : A -> bool) l k :
  List.find f l = None -> List.find f (l ++ k) = List.find f k.
Proof.
  induction l as [|x l IH]; [done|]. simpl. destruct (f x); [done|]. exact IH.
Qed.

Lemma getAbstractFileByPath_created a p :
  getAbstractFileByPath a p = None ->
  getAbstractFileByPath
    (with_vault a (vault a ++ [{| path := p; kind := TFolder |}])) p
  = Some {| path := p; kind := TFolder |}.
Proof.
  unfold getAbstractFileByPath. intros Hnone. simpl.
  rewrite find_app_None by done. simpl. by rewrite jseqb_refl.
Qed.

(** X17: [ensureFolderExists] does nothing for the empty path, the
    root and the dot.  For any other path it looks at the normalized
    path: when a folder is there it changes nothing; when nothing is
    there it makes the folder, and the vault only gets this one object
    more; when a file is there it throws and no folder is made.  When it
    returns, a folder is at the normalized path, and a second call
    changes nothing more. *)
Theorem ensureFolderExists_makes_folder (a : App) (p : jsstring) :
  (p = [] \/ p = root \/ p = str "." -> ensureFolderExists a p = Return a)
  /\ (p <> [] -> p <> root -> p <> str "." ->
      match ensureFolderExists a p with
      | Return a' =>
          (exists x, getAbstractFileByPath a' (normalizePath p) = Some x
                     /\ kind x = TFolder)
          /\ (a' = a
              \/ (getAbstractFileByPath a (normalizePath p) = None
                  /\ a' = with_vault a
                            (vault a ++ [{| path := normalizePath p;
                                            kind := TFolder |}])))
          /\ ensureFolderExists a' p = Return a'
      | Throw _ =>
          exists x, getAbstractFileByPath a (normalizePath p) = Some x
                    /\ kind x = TFile
      end).
Proof.
  split.
  - intros [->|[->| ->]]; reflexivity.
  - intros H1 H2 H3. unfold ensureFolderExists.
    apply jseqb_false in H1, H2, H3. rewrite H1, H2, H3. cbn [orb].
    destruct (getAbstractFileByPath a (normalizePath p)) as [x|] eqn:Hx.
    + destruct (is_file x) eqn:Hfile.
      * exists x. split; [done|]. by apply is_file_kind.
      * split_and!.
        -- exists x. split; [done|]. unfold is_file in Hfile.
           by destruct (kind x).
        -- by left.
        -- by rewrite Hx, Hfile.
    + unfold createFolder.
      pose proof (getAbstractFileByPath_created a _ Hx) as Hnew.
      split_and!.
      * by eexists.
      * by right.
      * by rewrite Hnew.
Qed.

End Folders.

(** ** The date, src/main.ts 411-417 *)

Section Dates.

Lemma toString_four_digits y :
  1 <= y / 1000 <= 9 ->
  toString y = map Notions.digit [y / 1000; y / 100 mod 10; y / 10 mod 10; y mod 10].
Proof.
  intros Hy.
  assert (forallb (fun y => JS.eqb (toString y)
                              (map Notions.digit [y / 1000; y / 100 mod 10;
                                               y / 10 mod 10; y mod 10]))
                  (seq 1000 (9 * 1000)) = true) as Hall by (by vm_compute).
  rewrite forallb_forall in Hall. apply jseqb_true, Hall, in_seq.
  pose proof (Nat.div_mod_eq y 1000) as Hdiv.
  pose proof (Nat.mod_upper_bound y 1000) as Hmod.
  set (q := y / 1000) in *. set (r := y mod 1000) in *. lia.
Qed.

Lemma padStart2_two_digits n :
  n < 100 -> padStart2 (toString n) = map Notions.digit [n / 10; n mod 10].
Proof.
  intros Hn.
  assert (forallb (fun n => JS.eqb (padStart2 (toString n))
                              (map Notions.digit [n / 10; n mod 10]))
                  (seq 0 100) = true) as Hall by (by vm_compute).
  rewrite forallb_forall in Hall. apply jseqb_true, Hall, in_seq. lia.
Qed.

(** X16: for a date with a year of four digits, [getFormattedDate]
    gives eight decimal digits: the four of the year, two for the month
    counted from 1 and two for the day of the month, each of the two
    with a zero in front when it is below ten. *)
Theorem getFormattedDate_digits (d : Date) :
  1 <= fullYear d / 1000 <= 9 -> month d < 12 -> 1 <= date d <= 31 ->
  getFormattedDate d
  = map Notions.digit
      [fullYear d / 1000; fullYear d / 100 mod 10; fullYear d / 10 mod 10;
       fullYear d mod 10;
       (month d + 1) / 10; (month d + 1) mod 10;
       date d / 10; date d mod 10].
Proof.
  intros Hy Hm Hd. unfold getFormattedDate.
  rewrite toString_four_digits by done.
  rewrite !padStart2_two_digits by lia. reflexivity.
Qed.

Lemma getFormattedDate_digits_witness :
  getFormattedDate Example.january5 = str "20260105".
Proof.
  rewrite (getFormattedDate_digits Example.january5);
    [reflexivity|simpl; lia..].
Defined.

End Dates.

(** ** The rule of an extension, src/main.ts 395-400 *)

Section Rules.

Lemma to_lower_idem c : to_lower (to_lower c) = to_lower c.
Proof. destruct c as [[] [] [] [] [] [] [] []]; by vm_compute. Qed.

Lemma toLowerCase_idem s : toLowerCase (toLowerCase s) = toLowerCase s.
Proof.
  unfold toLowerCase. induction s as [|c s IH]; [done|].
  simpl. by rewrite to_lower_idem, IH.
Qed.

Lemma rule_lists r ext :
  existsb (fun e => JS.eqb (toLowerCase e) (toLowerCase ext)) (extensions r)
  = true
  <-> Notions.lists r ext.
Proof.
  rewrite existsb_exists. unfold Notions.lists.
  split; intros (e & Hin & He); exists e; split; try done; by apply jseqb_true.
Qed.

Lemma find_first {A} (f : A -> bool) l x :
  List.find f l = Some x ->
  exists before after,
    l = before ++ x :: after /\ f x = true
    /\ Forall (fun y => f y = false) before.
Proof.
  induction l as [|y l IH]; [done|]. simpl.
  destruct (f y) eqn:Hy.
  - intros [= ->]. by exists [], l.
  - intros H. destruct (IH H) as (before & after & -> & Hx & Hb).
    exists (y :: before), after. split_and!; [done|done|by constructor].
Qed.

(** X15: [getRuleForExtension] takes the rules in their order and
    gives the first one that lists the extension, letter case apart on
    both sides; the rules before it do not list the extension, and there
    is no rule exactly when no rule lists it.  So the answer is the same
    for an extension and for its lower-case form. *)
Theorem getRuleForExtension_first_match (s : PluginSettings) (ext : jsstring) :
  getRuleForExtension s (toLowerCase ext) = getRuleForExtension s ext
  /\ match getRuleForExtension s ext with
     | Some r =>
         exists before after,
           rules s = before ++ r :: after
           /\ Notions.lists r ext
           /\ Forall (fun r' => ~ Notions.lists r' ext) before
     | None => Forall (fun r => ~ Notions.lists r ext) (rules s)
     end.
Proof.
  split.
  - unfold getRuleForExtension. by rewrite toLowerCase_idem.
  - unfold getRuleForExtension.
    destruct (List.find _ (rules s)) as [r|] eqn:E.
    + apply find_first in E as (before & after & Hr & Hlists & Hb).
      exists before, after. split_and!; [done|by apply rule_lists|].
      eapply Forall_impl; [exact Hb|]. intros r' Hr' Hl.
      apply rule_lists in Hl. simpl in Hr'. congruence.
    + apply Forall_forall. intros r Hin%list_elem_of_In Hl.
      apply rule_lists in Hl. eapply find_none in E; [|exact Hin].
      simpl in E. congruence.
Qed.

End Rules.

(** ** The old name of a renamed document, src/main.ts 141-145 *)

Section OldName.

Lemma take_drop_while p (s : jsstring) : take_while p s ++ drop_while p s = s.
Proof.
  induction s as [|c s IH]; [done|]. simpl.
  destruct (p c); [|done]. simpl. by rewrite IH.
Qed.

Lemma drop_while_head p (s : jsstring) c r :
  drop_while p s = c :: r -> p c = false.
Proof.
  induction s as [|d s IH]; [done|]. simpl.
  destruct (p d) eqn:Hd; [exact IH|]. by intros [= <- _].
Qed.

(** A name with an extension is the base name, a dot and the extension. *)
Lemma split_name_inv n :
  snd (split_name n) <> [] ->
  n = fst (split_name n) ++ str "." ++ snd (split_name n)
  /\ fst (split_name n) <> [].
Proof.
  unfold split_name.
  set (not_dot := fun c => negb (is_char "." c)).
  pose proof (take_drop_while not_dot (rev n)) as Hsplit.
  destruct (take_while not_dot (rev n)) as [|e es] eqn:Et; [done|].
  destruct (drop_while not_dot (rev n)) as [|d [|b bs]] eqn:Ed; [done|done|].
  intros _. cbn [fst snd].
  apply drop_while_head in Ed. unfold not_dot in Ed.
  apply negb_false_iff, is_char_true in Ed. subst d.
  apply (f_equal (@rev ascii)) in Hsplit. rewrite rev_involutive in Hsplit.
  rewrite <- Hsplit. rewrite rev_app_distr.
  change (rev ("."%char :: b :: bs)) with (rev (b :: bs) ++ ["."%char]).
  rewrite <- app_assoc. split; [done|].
  intros H. apply (f_equal (@length _)) in H. rewrite length_rev in H. done.
Qed.

Lemma split_from_word (c : ascii) cur w s :
  forallb (fun x => negb (is_char c x)) w = true ->
  split_from c cur (w ++ s) = split_from c (cur ++ w) s.
Proof.
  revert cur. induction w as [|x w IH]; intros cur; simpl.
  - by rewrite app_nil_r.
  - intros [Hx Hw]%andb_true_iff. apply negb_true_iff in Hx. rewrite Hx.
    rewrite IH by done. by rewrite <- app_assoc.
Qed.

Lemma split_from_sep (c : ascii) cur s :
  split_from c cur (c :: s) = cur :: split_from c [] s.
Proof. simpl. unfold is_char. by rewrite Ascii.eqb_refl. Qed.

Lemma segment_no_slash w :
  Spec.slash_free w = true ->
  forallb (fun x => negb (is_char "/" x)) w = true.
Proof.
  unfold Spec.slash_free. rewrite !forallb_forall. intros H x Hx.
  specialize (H x Hx). apply negb_true_iff in H. apply negb_true_iff.
  unfold is_slash in H. by apply orb_false_iff in H as [? _].
Qed.

(** Splitting a joined path at the slashes gives its segments back. *)
Lemma split_join segs :
  segs <> [] -> Forall Spec.is_segment segs ->
  split "/" (join segs) = segs.
Proof.
  intros Hne Hall. induction Hall as [|x segs [_ Hx] Hall IH]; [done|].
  apply segment_no_slash in Hx.
  destruct segs as [|y segs].
  - simpl. unfold split. rewrite <- (app_nil_r x) at 1.
    by rewrite split_from_word.
  - rewrite join_cons. unfold split in *.
    rewrite split_from_word, split_from_sep by done. by rewrite IH.
Qed.

Lemma normalized_is_joined p :
  normalizePath p = p -> segments p <> [] -> p = join (segments p).
Proof.
  unfold normalizePath. by destruct (segments p).
Qed.

Lemma remove_suffix_app b t : remove_suffix t (b ++ t) = b.
Proof.
  unfold remove_suffix, endsWith. rewrite rev_app_distr, startsWith_app.
  rewrite length_app, Nat.add_sub. by rewrite take_app_length.
Qed.

Lemma split_root : split "/" root = [[]; []].
Proof. reflexivity. Qed.

Lemma getFileNameFromPath_name p :
  normalizePath p = p ->
  getFileNameFromPath p = remove_suffix (str ".md") (name p).
Proof.
  intros Hnorm. unfold getFileNameFromPath. cbv zeta.
  destruct (segments p) as [|x l] eqn:Hsegs.
  - unfold normalizePath in Hnorm. rewrite Hsegs in Hnorm. rewrite <- Hnorm.
    reflexivity.
  - assert (segments p <> []) as Hne by (by rewrite Hsegs).
    rewrite (normalized_is_joined p Hnorm Hne) at 1.
    by rewrite split_join by (done || apply segments_are_segments).
Qed.

(** The base name of [base.ext]. *)
Lemma split_name_base base ext :
  base <> [] -> ext <> [] -> Spec.dot_free ext = true ->
  fst (split_name (base ++ str "." ++ ext)) = base.
Proof.
  intros Hbase Hne Hext.
  pose proof (split_name_ext base ext Hbase Hext) as Hsnd.
  destruct (split_name_inv (base ++ str "." ++ ext)) as [Hname _];
    [by rewrite Hsnd|].
  rewrite Hsnd in Hname. by apply app_inv_tail in Hname.
Qed.

(** X1: the old document name of a rename event.  For a
    normalized old path [getFileNameFromPath] gives the name of the file
    without a final [.md]: for a name that is a base name followed by
    [.md] it is that base name, which is the base name the host gives
    the file; a name that does not end in [.md], in these letters, is
    given whole, extension included. *)
Theorem getFileNameFromPath_is_basename (p : jsstring) :
  normalizePath p = p ->
  getFileNameFromPath p = remove_suffix (str ".md") (name p)
  /\ (forall base, base <> [] -> name p = base ++ str ".md" ->
        getFileNameFromPath p = base /\ basename p = base)
  /\ (endsWith (str ".md") (name p) = false -> getFileNameFromPath p = name p).
Proof.
  intros Hnorm.
  pose proof (getFileNameFromPath_name p Hnorm) as Hname.
  split; [done|]. split.
  - intros base Hbase Hp. rewrite Hname, Hp. split; [apply remove_suffix_app|].
    unfold basename. rewrite Hp.
    by apply (split_name_base base (str "md")).
  - intros Hends. rewrite Hname. unfold remove_suffix. by rewrite Hends.
Qed.

Lemma getFileNameFromPath_is_basename_witness :
  getFileNameFromPath (str "Projects/Old draft.md") = str "Old draft"
  /\ basename (str "Projects/Old draft.md") = str "Old draft"
  /\ getFileNameFromPath (str "Projects/scan.pdf") = str "scan.pdf".
Proof.
  destruct (getFileNameFromPath_is_basename (str "Projects/Old draft.md") eq_refl)
    as (_ & Hmd & _).
  destruct (Hmd (str "Old draft")) as [H1 H2]; [discriminate|reflexivity|].
  split; [exact H1|]. split; [exact H2|].
  destruct (getFileNameFromPath_is_basename (str "Projects/scan.pdf") eq_refl)
    as (_ & _ & Hother).
  by apply Hother.
Defined.

End OldName.

(** ** The old name of the document in a pass, src/main.ts 258-266 *)

Section OldNameMatters.

Lemma variables_without_old a notePath attachmentPath old index :
  getCleanOriginalName (basename attachmentPath) (Some old)
  = basename attachmentPath ->
  variables a notePath attachmentPath (Some old) index
  = variables a notePath attachmentPath None index.
Proof. unfold variables. cbv zeta. by intros ->. Qed.

Lemma planTarget_without_old p noteFile old t :
  getCleanOriginalName (basename (path_of (app p) (file t))) (Some old)
  = basename (path_of (app p) (file t)) ->
  planTarget p noteFile (Some old) t = planTarget p noteFile None t.
Proof.
  intros Hclean. unfold planTarget, planWith.
  by rewrite (variables_without_old _ _ _ _ _ Hclean).
Qed.

(** A target is at its first path until its path is marked. *)
Lemma processTargets_without_old noteFile old p1 targets :
  Forall (fun t => exists f, vault (app p1) !! file t = Some f
                             /\ originalPath t = path f
                             /\ getCleanOriginalName (basename (path f)) (Some old)
                                = basename (path f)) targets ->
  processTargets noteFile (Some old) (startPass p1) targets
  = processTargets noteFile None (startPass p1) targets.
Proof.
  intros Htargets. unfold processTargets.
  assert (forall before todo st,
            targets = before ++ todo ->
            length (vault (app p1)) <= length (vault (app (plugin st))) ->
            (forall t, In t targets ->
               path_of (app (plugin st)) (file t) ∈ processedPaths st
               \/ path_of (app (plugin st)) (file t) = originalPath t) ->
            fold_left (processTarget noteFile (Some old)) todo st
            = fold_left (processTarget noteFile None) todo st) as Hloop.
  { intros before todo. revert before.
    induction todo as [|t todo IH]; intros before st Hsplit Hlen Hinv; [done|].
    cbn [fold_left].
    assert (In t targets) as Hin.
    { rewrite Hsplit. apply in_or_app. right. by left. }
    rewrite Forall_forall in Htargets.
    destruct (Htargets t (proj2 (list_elem_of_In _ _) Hin))
      as (f0 & Hf0 & Horig & Hclean).
    assert (processTarget noteFile (Some old) st t
            = processTarget noteFile None st t) as Hsame.
    { unfold processTarget.
      destruct (bool_decide _) eqn:Hseen; [done|].
      apply bool_decide_eq_false in Hseen.
      destruct (Hinv t Hin) as [Hmarked|Hfirst]; [done|].
      rewrite (planTarget_without_old _ _ old t); [done|].
      by rewrite Hfirst, Horig. }
    rewrite Hsame.
    apply (IH (before ++ [t])); [by rewrite <- app_assoc| |].
    - destruct (lookup_lt_is_Some_2 (vault (app (plugin st))) (file t))
        as [f Hf]; [apply lookup_lt_Some in Hf0; lia|].
      destruct (processTarget_step noteFile None st t f Hf)
        as [(-> & _ & _)|(fp & added & _ & _ & _ & _ & _ & -> & _ & _)];
        [done|].
      rewrite length_insert, length_app. lia.
    - intros u Hu.
      destruct (Htargets u (proj2 (list_elem_of_In _ _) Hu))
        as (g0 & Hg0 & _ & _).
      destruct (lookup_lt_is_Some_2 (vault (app (plugin st))) (file t))
        as [f Hf]; [apply lookup_lt_Some in Hf0; lia|].
      destruct (processTarget_step noteFile None st t f Hf)
        as [(Hv & _ & Hsub)|(fp & added & _ & _ & _ & _ & _ & Hv & _ & Hp)].
      + rewrite (path_of_vault _ _ _ Hv).
        destruct (Hinv u Hu) as [Hm|Hf']; [left; by apply Hsub|by right].
      + assert (file u < length (vault (app (plugin st)))) as Hlt
          by (apply lookup_lt_Some in Hg0; lia).
        assert (file t < length (vault (app (plugin st)))) as Hlt'
          by (by apply lookup_lt_Some in Hf).
        rewrite (path_of_moved _ added (app (plugin st)) _ (file t)
                   {| path := fp; kind := TFile |} (file u) eq_refl Hv Hlt' Hlt).
        rewrite Hp. destruct (decide (file u = file t)) as [Heq|Hne].
        * left. apply elem_of_union_l. by apply elem_of_singleton.
        * destruct (Hinv u Hu) as [Hm|Hf'];
            [left; by apply elem_of_union_r|by right]. }
  apply (Hloop [] targets); [done|done|].
  intros t Hin. right. rewrite Forall_forall in Htargets.
  destruct (Htargets t (proj2 (list_elem_of_In _ _) Hin)) as (f & Hf & -> & _).
  simpl. by apply path_of_lookup.
Qed.

(** X21: the old name matters only where it occurs.  When the name
    of no target contains the old document name, a pass with this old
    name does what a pass without an old name does, which is what the
    manual command runs: the same renames, the same count and the same
    plugin afterwards. *)
Theorem old_name_matters_only_where_it_occurs (p : Plugin) (noteFile : nat)
    (old : jsstring) :
  (forall cache,
     waitForCache (fileCache (app p) noteFile) 0 cachePolls
     = Return (Some cache) ->
     Forall (fun t => includes old (basename (originalPath t)) = false
                      /\ basename (originalPath t) <> [])
            (targetsOf p noteFile cache)) ->
  processNoteAttachments p noteFile (Some old)
  = processNoteAttachments p noteFile None.
Proof.
  intros Habsent. unfold processNoteAttachments.
  destruct (bool_decide _); [done|].
  set (p1 := with_isProcessing p _).
  assert (tryBlock p1 noteFile (Some old) = tryBlock p1 noteFile None) as ->;
    [|done].
  destruct (tryBlock_cases p1 noteFile (Some old))
    as [(e & He & ->)|[[He ->]|(cache & He & ->)]];
    destruct (tryBlock_cases p1 noteFile None)
      as [(e' & He' & ->)|[[He' ->]|(cache' & He' & ->)]];
    try congruence.
  assert (cache' = cache) as -> by congruence.
  cbv zeta. rewrite processTargets_without_old; [done|].
  specialize (Habsent cache He).
  apply Forall_forall. intros t Ht.
  rewrite Forall_forall in Habsent. destruct (Habsent t Ht) as [Hinc Hne].
  destruct (gatherTargets_sound _ _ _ _ _ (proj1 (list_elem_of_In _ _) Ht))
    as (_ & f & _ & _ & _ & Hf & Ho & _).
  exists f. split_and!; [done|done|].
  rewrite <- Ho. unfold getCleanOriginalName.
  destruct old as [|c old]; [done|]. rewrite Hinc.
  by destruct (basename (originalPath t)).
Qed.

Lemma old_name_matters_only_where_it_occurs_witness :
  processNoteAttachments Example.defaultPlugin 0 (Some (str "Draft"))
  = processNoteAttachments Example.defaultPlugin 0 None.
Proof.
  apply (old_name_matters_only_where_it_occurs Example.defaultPlugin 0
           (str "Draft")).
  intros cache Hcache. vm_compute in Hcache. injection Hcache as <-.
  apply Forall_forall. intros t Hin%list_elem_of_In. revert t Hin.
  assert (forall t,
            In t (targetsOf Example.defaultPlugin 0
                    {| embeds := Some [ {| link := str "pic.png" |} ];
                       links := None |}) ->
            t = {| file := 1; originalPath := str "pic.png"; index := 0 |})
    as Hone.
  { intros t [<-|[]]. reflexivity. }
  intros t Hin. rewrite (Hone t Hin). split; [reflexivity|discriminate].
Defined.

End OldNameMatters.

(** ** The rename event and the unloading, src/main.ts 116-139 *)

Section RenameEvent.

Lemma advance_idle rt dt :
  Forall Spec.idle (objects rt) ->
  advance dt rt
  = ([], {| this := this rt; objects := objects rt; now := now rt + dt |}).
Proof.
  intros Hidle. unfold advance.
  destruct (length (objects rt)); [done|].
  cbn [runDue]. cbn [now objects]. by rewrite nextDue_idle.
Qed.

(** X2: the handler of the rename event.  The event is ignored when
    automatic renaming is off, when the renamed object is not a markdown
    file, and when its new path is out of scope.  Otherwise, from a
    runtime without pending timers and without an entry for the new
    path, the event registers one debouncer under the new path of the
    document and starts its timer, and changes nothing else of the
    plugin.  Before the delay is over no pass runs and the plugin stays
    as it is; once it is over the callback has run once, and the plugin
    is the one [processNoteAttachments] leaves for the renamed document
    with the old name [getFileNameFromPath] takes from the old path,
    with the entry of the document out of the registry. *)
Theorem rename_event_schedules_one_pass (rt : Runtime) (f : nat)
    (x : TAbstractFile) (oldPath : jsstring) :
  vault (app (this rt)) !! f = Some x ->
  let watched :=
    enableAutoRename (settings (this rt))
    && (is_file x && JS.eqb (extension (path x)) (str "md"))
    && isScopeValid (settings (this rt)) (path x) in
  let delay := debounceDelay (settings (this rt)) in
  let oldName := getFileNameFromPath oldPath in
  let rt1 := onRename f oldPath rt in
  (watched = false -> rt1 = rt)
  /\ (watched = true ->
      Forall Spec.idle (objects rt) ->
      debouncers (this rt) !! path x = None ->
      this rt1 = with_debouncers (this rt)
                   (<[path x := length (objects rt)]> (debouncers (this rt)))
      /\ Spec.pendingCount rt1 = 1
      /\ (forall gap, gap < delay ->
            fst (advance gap rt1) = []
            /\ this (snd (advance gap rt1)) = this rt1
            /\ Spec.pendingCount (snd (advance gap rt1)) = 1)
      /\ (forall dt, delay <= dt ->
            fst (advance dt rt1) = [(f, Some oldName)]
            /\ this (snd (advance dt rt1))
               = Notions.afterPass f oldName (path x) (this rt1)
            /\ Spec.pendingCount (snd (advance dt rt1)) = 0)).
Proof.
  intros Hx watched delay oldName rt1. subst rt1. unfold onRename.
  rewrite Hx. split.
  - unfold watched. intros Hw.
    destruct (enableAutoRename _); [|done]. cbn [negb andb] in *.
    destruct (is_file x && _); [|done]. cbn [andb] in Hw. by rewrite Hw.
  - unfold watched. intros Hw Hidle Hnone.
    apply andb_true_iff in Hw as [[-> ->]%andb_true_iff ->]. cbn [negb].
    pose proof (path_of_lookup _ _ _ Hx) as Hpath.
    rewrite <- Hpath in Hnone.
    rewrite trigger_first by done. fold oldName delay. split_and!.
    + unfold Spec.armed. cbn [this]. by rewrite Hpath.
    + by apply pendingCount_armed.
    + intros gap Hgap. rewrite advance_early; [|done|lia].
      cbn [fst snd]. split_and!; [done|done|by apply pendingCount_armed].
    + intros dt Hdt. rewrite advance_due; [|done|lia].
      cbn [fst snd this]. split_and!; [done| |].
      * rewrite debouncedCallback_afterPass. unfold Spec.armed.
        cbn [this app with_debouncers]. by rewrite Hpath.
      * apply pendingCount_idle. apply Forall_app. split; [done|].
        by repeat constructor.
Qed.

(** The theorem at the document of [Example.quiet], renamed from
    [Old draft.md]: after the delay the one pass has renamed the
    picture and the registry is empty again. *)
Lemma rename_event_schedules_one_pass_witness :
  fst (advance 2000 (onRename 0 (str "Old draft.md") Example.quiet))
  = [(0, Some (str "Old draft"))]
  /\ map path
       (vault (app (this (snd (advance 2000
                                 (onRename 0 (str "Old draft.md")
                                    Example.quiet))))))
     = [str "Note.md"; str "assets/Note pic.png"; str "assets"]
  /\ debouncers (this (snd (advance 2000
                              (onRename 0 (str "Old draft.md")
                                 Example.quiet))))
     = ∅.
Proof.
  pose proof (rename_event_schedules_one_pass Example.quiet 0
                {| path := str "Note.md"; kind := TFile |}
                (str "Old draft.md") eq_refl) as [_ Hon].
  destruct Hon as (_ & _ & _ & Hdue); [reflexivity|constructor|reflexivity|].
  destruct (Hdue 2000) as (Hcalls & Hthis & _); [by apply Nat.leb_le|].
  split; [exact Hcalls|]. rewrite Hthis. split; by vm_compute.
Defined.

End RenameEvent.

Section Unload.

Lemma onunload_objects (objs : list Debouncer) (registry : gmap jsstring nat) :
  let objs' : list Debouncer :=
    map_fold (fun _ d os => alter cancel d os) objs registry in
  length objs' = length objs
  /\ (forall key d o, registry !! key = Some d -> objs' !! d = Some o ->
                      pending o = None)
  /\ (forall d o, objs' !! d = Some o ->
        pending o = None \/ objs !! d = Some o).
Proof.
  cbv zeta.
  apply (map_fold_weak_ind
           (fun (objs' : list Debouncer) (registry : gmap jsstring nat) =>
              length objs' = length objs
              /\ (forall key d o, registry !! key = Some d ->
                                  objs' !! d = Some o -> pending o = None)
              /\ (forall d o, objs' !! d = Some o ->
                    pending o = None \/ objs !! d = Some o))).
  - split_and!; [done|done|]. intros d o Hd. by right.
  - intros key d m r Hfresh (Hlen & Hreg & Hrest). split_and!.
    + by rewrite length_alter.
    + intros key' d' o Hkey Ho.
      destruct (decide (d' = d)) as [->|Hne].
      * rewrite list_lookup_alter_eq in Ho.
        destruct (r !! d); [|done]. by injection Ho as <-.
      * rewrite list_lookup_alter_ne in Ho by done.
        apply lookup_insert_Some in Hkey as [[_ ->]|[_ Hkey]]; [done|].
        by eapply Hreg.
    + intros d' o Ho. destruct (decide (d' = d)) as [->|Hne].
      * rewrite list_lookup_alter_eq in Ho.
        destruct (r !! d); [|done]. injection Ho as <-. by left.
      * rewrite list_lookup_alter_ne in Ho by done. by apply Hrest.
Qed.

(** X4: [onunload] empties the registry and the set of documents
    being processed and cancels the timer of every debouncer of the
    registry.  When every timer that is pending belongs to a debouncer
    of the registry, none is pending afterwards and no pass runs any
    more, however long one waits. *)
Theorem onunload_cancels_timers (rt : Runtime) :
  (forall d o, objects rt !! d = Some o -> is_Some (pending o) ->
               exists key, debouncers (this rt) !! key = Some d) ->
  debouncers (this (onunload rt)) = ∅
  /\ isProcessing (this (onunload rt)) = ∅
  /\ app (this (onunload rt)) = app (this rt)
  /\ settings (this (onunload rt)) = settings (this rt)
  /\ Spec.pendingCount (onunload rt) = 0
  /\ (forall dt, fst (advance dt (onunload rt)) = []).
Proof.
  intros Hregistered.
  assert (Forall Spec.idle (objects (onunload rt))) as Hidle.
  { unfold onunload. cbn [objects].
    destruct (onunload_objects (objects rt) (debouncers (this rt)))
      as (_ & Hreg & Hrest).
    apply Forall_forall. intros o Ho. apply list_elem_of_lookup in Ho as [d Ho].
    unfold Spec.idle.
    destruct (Hrest d o Ho) as [Hnone|Hold]; [done|].
    destruct (pending o) as [pd|] eqn:Hp; [|done].
    destruct (Hregistered d o Hold) as [key Hkey]; [by rewrite Hp|].
    rewrite <- Hp. by eapply Hreg. }
  split_and!; try reflexivity.
  - destruct (onunload rt) as [th objs nw] eqn:E. simpl in Hidle.
    by apply pendingCount_idle.
  - intros dt. by rewrite advance_idle.
Qed.

Lemma onunload_cancels_timers_witness :
  Spec.pendingCount Example.waiting = 1
  /\ Spec.pendingCount (onunload Example.waiting) = 0
  /\ fst (advance 5000 (onunload Example.waiting)) = [].
Proof.
  split; [by vm_compute|].
  destruct (onunload_cancels_timers Example.waiting) as (_ & _ & _ & _ & Hp & Ha).
  - intros [|d] o Hd Hpending.
    + exists (str "Note.md"). by vm_compute.
    + by destruct d.
  - split; [exact Hp|apply Ha].
Defined.

End Unload.

(** ** Two renames in a row, src/main.ts 116-163 *)

Section TwoRenames.

Lemma getAbstractFileByPath_vault a a' p :
  vault a' = vault a -> getAbstractFileByPath a' p = getAbstractFileByPath a p.
Proof. unfold getAbstractFileByPath. by intros ->. Qed.


Lemma runDue_idle fuel rt :
  Forall Spec.idle (objects rt) -> runDue fuel rt = ([], rt).
Proof.
  intros Hidle. destruct fuel; [done|]. cbn [runDue]. by rewrite nextDue_idle.
Qed.

(** The timer that is due first fires and the others follow. *)
Lemma runDue_fire fuel rt d deadline deadline' f oldName t :
  nextDue (now rt) (objects rt) 0 = Some (deadline, d) ->
  objects rt !! d
  = Some {| timeout := t; pending := Some (deadline', (f, oldName)) |} ->
  runDue (S fuel) rt
  = let rt1 := {| this := debouncedCallback f oldName (this rt);
                  objects := <[d := {| timeout := t; pending := None |}]>
                               (objects rt);
                  now := now rt |} in
    ((f, oldName) :: fst (runDue fuel rt1), snd (runDue fuel rt1)).
Proof.
  intros Hnext Hd. cbn [runDue]. rewrite Hnext. unfold fire. rewrite Hd.
  cbv zeta. by destruct (runDue fuel _).
Qed.

(** Two timers are due, the first one first. *)
Lemma advance_two p objs o0 o1 f0 old0 f1 old1 deadline0 deadline1 now0 dt :
  Forall Spec.idle objs ->
  pending o0 = Some (deadline0, (f0, old0)) ->
  pending o1 = Some (deadline1, (f1, old1)) ->
  deadline0 <= deadline1 -> deadline1 <= now0 + dt ->
  advance dt {| this := p; objects := objs ++ [o0; o1]; now := now0 |}
  = ([(f0, old0); (f1, old1)],
     {| this := debouncedCallback f1 old1 (debouncedCallback f0 old0 p);
        objects := objs ++ [cancel o0; cancel o1];
        now := now0 + dt |}).
Proof.
  intros Hidle H0 H1 Hle Hdue. unfold advance. cbn [this objects now].
  rewrite length_app. cbn [length].
  replace (length objs + 2) with (S (S (length objs))) by lia.
  assert ((deadline0 <=? now0 + dt) = true) as Hd0 by (apply Nat.leb_le; lia).
  assert ((deadline1 <=? now0 + dt) = true) as Hd1 by (by apply Nat.leb_le).
  assert ((deadline1 <? deadline0) = false) as Hord by (apply Nat.ltb_ge; lia).
  destruct o0 as [t0 pd0]. cbn [pending] in H0. subst pd0.
  destruct o1 as [t1 pd1]. cbn [pending] in H1. subst pd1.
  unfold cancel. cbn [timeout].
  rewrite (runDue_fire _ _ (length objs) deadline0 deadline0 f0 old0 t0).
  2: { cbn [now objects]. rewrite nextDue_after_idle by done. cbn [nextDue pending].
       by rewrite Hd0, Hd1, Hord. }
  2: { cbn [objects]. rewrite lookup_app_r by done. by rewrite Nat.sub_diag. }
  cbv zeta. cbn [this objects now].
  rewrite insert_app_r_alt by done. rewrite Nat.sub_diag.
  cbn [insert list_insert].
  rewrite (runDue_fire _ _ (S (length objs)) deadline1 deadline1 f1 old1 t1).
  2: { cbn [now objects]. rewrite nextDue_after_idle by done. cbn [nextDue pending].
       by rewrite Hd1. }
  2: { cbn [objects]. rewrite lookup_app_r by lia.
       by replace (S (length objs) - length objs) with 1 by lia. }
  cbv zeta. cbn [this objects now].
  rewrite insert_app_r_alt by lia.
  replace (S (length objs) - length objs) with 1 by lia.
  cbn [insert list_insert].
  rewrite runDue_idle; [done|].
  cbn [objects]. apply Forall_app. split; [done|]. by repeat constructor.
Qed.

(** Of two pending timers only the first is due. *)
Lemma advance_first_of_two p objs o0 o1 f0 old0 f1 old1 deadline0 deadline1 now0 dt :
  Forall Spec.idle objs ->
  pending o0 = Some (deadline0, (f0, old0)) ->
  pending o1 = Some (deadline1, (f1, old1)) ->
  deadline0 <= now0 + dt -> now0 + dt < deadline1 ->
  advance dt {| this := p; objects := objs ++ [o0; o1]; now := now0 |}
  = ([(f0, old0)],
     {| this := debouncedCallback f0 old0 p;
        objects := objs ++ [cancel o0; o1];
        now := now0 + dt |}).
Proof.
  intros Hidle H0 H1 Hdue Hearly. unfold advance. cbn [this objects now].
  rewrite length_app. cbn [length].
  replace (length objs + 2) with (S (S (length objs))) by lia.
  assert ((deadline0 <=? now0 + dt) = true) as Hd0 by (by apply Nat.leb_le).
  assert ((deadline1 <=? now0 + dt) = false) as Hd1 by (apply Nat.leb_gt; lia).
  destruct o0 as [t0 pd0]. cbn [pending] in H0. subst pd0.
  destruct o1 as [t1 pd1]. cbn [pending] in H1. subst pd1.
  unfold cancel. cbn [timeout].
  rewrite (runDue_fire _ _ (length objs) deadline0 deadline0 f0 old0 t0).
  2: { cbn [now objects]. rewrite nextDue_after_idle by done. cbn [nextDue pending].
       by rewrite Hd0, Hd1. }
  2: { cbn [objects]. rewrite lookup_app_r by done. by rewrite Nat.sub_diag. }
  cbv zeta. cbn [this objects now].
  rewrite insert_app_r_alt by done. rewrite Nat.sub_diag.
  cbn [insert list_insert].
  assert (runDue (S (length objs))
            {| this := debouncedCallback f0 old0 p;
               objects := objs ++ [{| timeout := t0; pending := None |};
                                   {| timeout := t1;
                                      pending := Some (deadline1, (f1, old1)) |}];
               now := now0 + dt |}
          = ([], {| this := debouncedCallback f0 old0 p;
               objects := objs ++ [{| timeout := t0; pending := None |};
                                   {| timeout := t1;
                                      pending := Some (deadline1, (f1, old1)) |}];
               now := now0 + dt |})) as ->.
  { cbn [runDue now objects]. rewrite nextDue_after_idle by done.
    cbn [nextDue pending]. by rewrite Hd1. }
  reflexivity.
Qed.

(** Of two pending timers none is due. *)
Lemma advance_none_of_two p objs o0 o1 f0 old0 f1 old1 deadline0 deadline1 now0 dt :
  Forall Spec.idle objs ->
  pending o0 = Some (deadline0, (f0, old0)) ->
  pending o1 = Some (deadline1, (f1, old1)) ->
  now0 + dt < deadline0 -> now0 + dt < deadline1 ->
  advance dt {| this := p; objects := objs ++ [o0; o1]; now := now0 |}
  = ([], {| this := p; objects := objs ++ [o0; o1]; now := now0 + dt |}).
Proof.
  intros Hidle H0 H1 He0 He1. unfold advance. cbn [this objects now].
  rewrite length_app. cbn [length].
  replace (length objs + 2) with (S (S (length objs))) by lia.
  cbn [runDue now objects]. rewrite nextDue_after_idle by done.
  cbn [nextDue]. rewrite H0, H1.
  assert ((deadline0 <=? now0 + dt) = false) as -> by (apply Nat.leb_gt; lia).
  assert ((deadline1 <=? now0 + dt) = false) as -> by (apply Nat.leb_gt; lia).
  reflexivity.
Qed.


Lemma idle_not_pending objs :
  Forall Spec.idle objs ->
  List.filter (fun o => bool_decide (is_Some (pending o))) objs = [].
Proof.
  induction 1 as [|o objs Ho _ IH]; [done|].
  simpl. unfold Spec.idle in Ho. by rewrite Ho.
Qed.



End TwoRenames.

(** ** A rename while a timer is pending, src/main.ts 147-163 *)

Section StaleKey.

(** C9: the claim fails on the code when a document is renamed again
    while a timer for it is pending.  The callback of a debouncer takes
    the entry of the path the document has when the timer fires out of
    the registry (line 154), not the entry the debouncer was registered
    under (line 159).  With the default delay of 2000 ms the document is
    renamed to [B.md] at 0 ms and to [C.md] at 100 ms.  At 2000 ms the
    timer made for [B.md] fires and takes the entry of [C.md] out, whose
    timer is pending until 2100 ms.  The document is renamed to [D.md]
    at 2010 ms and back to [C.md] at 2020 ms: the registry has no entry
    for [C.md], so a second debouncer is made for it, and two timers
    made for [C.md] are pending at once.  Both fire, at 2100 ms and at
    4020 ms: two passes for two events for [C.md] that are 1920 ms
    apart.  In the end no timer is pending and the entries of [B.md] and
    [D.md], whose timers have fired, are still in the registry. *)
Theorem stale_key_two_timers :
  (* the second rename registers a debouncer for [C.md] *)
  debouncers (this Example.twiceRenamed) !! str "C.md" = Some 1
  (* the timer of the first rename fires at 2000 ms and takes that entry
     out, while its timer is pending *)
  /\ fst (advance 1900 Example.twiceRenamed) = [(0, Some (str "Note"))]
  /\ debouncers (this Example.firstFired) !! str "C.md" = None
  /\ debouncers (this Example.firstFired) !! str "B.md" = Some 0
  (* at 2020 ms the document is at [C.md] again and a second debouncer is
     registered for [C.md]; the timers of both are pending *)
  /\ now Example.renamedBack = 2020
  /\ path_of (app (this Example.renamedBack)) 0 = str "C.md"
  /\ debouncers (this Example.renamedBack) !! str "C.md" = Some 3
  /\ map pending (objects Example.renamedBack)
     = [None; Some (2100, (0, Some (str "B")));
        Some (4010, (0, Some (str "C"))); Some (4020, (0, Some (str "D")))]
  (* both fire: two passes for the two events for [C.md] *)
  /\ fst (advance 80 Example.renamedBack) = [(0, Some (str "B"))]
  /\ map path (vault (app (this Example.renamedBack)))
     = [str "C.md"; str "assets/C pic.png"; str "assets"]
  /\ map path (vault (app (this (snd (advance 80 Example.renamedBack)))))
     = [str "C.md"; str "assets/C C pic.png"; str "assets"]
  /\ fst (advance 2000 (snd (advance 80 Example.renamedBack)))
     = [(0, Some (str "C")); (0, Some (str "D"))]
  (* and entries whose timers have fired stay in the registry *)
  /\ Spec.pendingCount (snd (advance 2000 (snd (advance 80 Example.renamedBack))))
     = 0
  /\ debouncers (this (snd (advance 2000
                              (snd (advance 80 Example.renamedBack)))))
     = {[ str "B.md" := 0; str "D.md" := 2 ]}.
Proof. by vm_compute. Qed.

End StaleKey.

(** ** Two documents, src/main.ts 147-163 *)

Section PerDocument.

(** X22: the debouncing is per document.  From a runtime without pending
    timers and without entries for them, an event for one document and,
    [gap] ms later and before its delay is over, an event for a markdown
    document at another path start two timers, one registered for each
    path.  The second event does not restart the timer of the first
    document: that timer fires [delay] after its own event, when the
    timer of the second document is still pending, and the plugin is
    then the one the pass for the first document leaves; [delay] after
    the second event both callbacks have run, once each and in the order
    of the events, each pass with its own old name. *)
Theorem debounce_is_per_document (rt : Runtime) (f g : nat)
    (x y : TAbstractFile) (oldF oldG : jsstring) (gap : nat) :
  let p := this rt in
  let delay := debounceDelay (settings p) in
  vault (app p) !! f = Some x -> vault (app p) !! g = Some y ->
  extension (path y) = str "md" ->
  path x <> path y ->
  Forall Spec.idle (objects rt) ->
  debouncers p !! path x = None -> debouncers p !! path y = None ->
  gap < delay ->
  let rt1 := triggerDebouncedProcessing f oldF rt in
  let rt3 := triggerDebouncedProcessing g oldG (snd (advance gap rt1)) in
  let p3 := this rt3 in
  fst (advance gap rt1) = []
  /\ p3 = with_debouncers p
            (<[path y := S (length (objects rt))]>
               (<[path x := length (objects rt)]> (debouncers p)))
  /\ Spec.pendingCount rt3 = 2
  /\ (forall dt, gap + dt < delay ->
        fst (advance dt rt3) = [] /\ this (snd (advance dt rt3)) = p3)
  /\ (forall dt, delay <= gap + dt -> dt < delay ->
        fst (advance dt rt3) = [(f, Some oldF)]
        /\ this (snd (advance dt rt3)) = Notions.afterPass f oldF (path x) p3
        /\ Spec.pendingCount (snd (advance dt rt3)) = 1)
  /\ (forall dt, delay <= dt ->
        fst (advance dt rt3) = [(f, Some oldF); (g, Some oldG)]
        /\ this (snd (advance dt rt3))
           = Notions.afterPass g oldG (path y)
               (Notions.afterPass f oldF (path x) p3)
        /\ Spec.pendingCount (snd (advance dt rt3)) = 0).
Proof.
  intros p delay Hx Hy Hmd Hne Hidle HregF HregG Hgap rt1 rt3 p3.
  subst p3 rt3 rt1.
  pose proof (path_of_lookup _ _ _ Hx) as HpF.
  pose proof (path_of_lookup _ _ _ Hy) as HpG.
  fold p in HpF, HpG.
  rewrite trigger_first by (fold p; by rewrite HpF). fold p delay.
  rewrite advance_early by (done || lia). cbn [fst snd].
  set (o0 := {| timeout := delay;
                pending := Some (now rt + delay, (f, Some oldF)) |}).
  set (o1 := {| timeout := delay;
                pending := Some (now rt + gap + delay, (g, Some oldG)) |}).
  set (p3 := with_debouncers p
               (<[path y := S (length (objects rt))]>
                  (<[path x := length (objects rt)]> (debouncers p)))).
  assert (triggerDebouncedProcessing g oldG
            (Spec.armed rt f oldF (now rt + delay) (now rt + gap))
          = {| this := p3; objects := objects rt ++ [o0; o1];
               now := now rt + gap |}) as ->.
  { unfold triggerDebouncedProcessing.
    cbn [Spec.armed this app with_debouncers debouncers objects now settings].
    fold p delay o0. rewrite HpF, HpG.
    rewrite lookup_insert_ne by done. rewrite HregG.
    unfold callDebouncer. cbn [objects this now].
    rewrite lookup_app_r by done. rewrite Nat.sub_diag.
    cbn [lookup list_lookup timeout].
    rewrite insert_app_r_alt by done. rewrite Nat.sub_diag.
    cbn [insert list_insert]. fold o1.
    rewrite <- app_assoc. cbn [List.app].
    rewrite length_app, Nat.add_1_r. reflexivity. }
  cbn [this].
  assert (vault (app p3) !! f = Some x) as Hx3 by exact Hx.
  assert (vault (app p3) !! g = Some y) as Hy3 by exact Hy.
  assert (debouncedCallback f (Some oldF) p3
          = Notions.afterPass f oldF (path x) p3) as HcbF.
  { rewrite debouncedCallback_afterPass. by rewrite (path_of_lookup _ _ _ Hx3). }
  assert (vault (app (Notions.afterPass f oldF (path x) p3)) !! g = Some y)
    as Hy4.
  { unfold Notions.afterPass. cbn [app with_debouncers].
    destruct (processNoteAttachments_keeps p3 f (Some oldF)) as (_ & Hnote & _).
    apply Hnote; [done|]. right. by left. }
  split_and!.
  - reflexivity.
  - reflexivity.
  - unfold Spec.pendingCount. cbn [objects].
    rewrite List.filter_app, idle_not_pending by done. reflexivity.
  - intros dt Hdt.
    rewrite (advance_none_of_two p3 (objects rt) o0 o1 f _ g _ (now rt + delay)
               (now rt + gap + delay)) by (done || lia).
    done.
  - intros dt Hdue Hearly.
    rewrite (advance_first_of_two p3 (objects rt) o0 o1 f _ g _ (now rt + delay)
               (now rt + gap + delay)) by (done || lia).
    cbn [fst snd this]. split_and!; [done|exact HcbF|].
    unfold Spec.pendingCount. cbn [objects].
    rewrite List.filter_app, idle_not_pending by done. reflexivity.
  - intros dt Hdt.
    rewrite (advance_two p3 (objects rt) o0 o1 f _ g _ (now rt + delay)
               (now rt + gap + delay)) by (done || lia).
    cbn [fst snd this]. split_and!; [done| |].
    + rewrite HcbF, debouncedCallback_afterPass.
      by rewrite (path_of_lookup _ _ _ Hy4).
    + apply pendingCount_idle. apply Forall_app. split; [done|].
      by repeat constructor.
Qed.

(** The theorem at the two documents of [Example.quietTwo], with events
    a tenth of a second apart: 1950 ms after the second event the first
    document has had its pass and the second has not, and 50 ms later
    both have. *)
Lemma debounce_is_per_document_witness :
  fst (advance 1950
         (triggerDebouncedProcessing 1 (str "Plan")
            (snd (advance 100
                    (triggerDebouncedProcessing 0 (str "Draft")
                       Example.quietTwo)))))
  = [(0, Some (str "Draft"))]
  /\ map path
       (vault (app (this (snd (advance 1950
         (triggerDebouncedProcessing 1 (str "Plan")
            (snd (advance 100
                    (triggerDebouncedProcessing 0 (str "Draft")
                       Example.quietTwo)))))))))
     = [str "First.md"; str "Second.md"; str "assets/First a.png";
        str "b.png"; str "assets"]
  /\ map path
       (vault (app (this (snd (advance 2000
         (triggerDebouncedProcessing 1 (str "Plan")
            (snd (advance 100
                    (triggerDebouncedProcessing 0 (str "Draft")
                       Example.quietTwo)))))))))
     = [str "First.md"; str "Second.md"; str "assets/First a.png";
        str "assets/Second b.png"; str "assets"].
Proof.
  pose proof (debounce_is_per_document Example.quietTwo 0 1
                {| path := str "First.md"; kind := TFile |}
                {| path := str "Second.md"; kind := TFile |}
                (str "Draft") (str "Plan") 100) as H.
  cbv zeta in H.
  destruct H as (_ & _ & _ & _ & Hfirst & Hboth);
    [reflexivity|reflexivity|reflexivity|discriminate|constructor
    |reflexivity|reflexivity|by apply Nat.ltb_lt|].
  destruct (Hfirst 1950) as (Hcalls & Hthis & _);
    [by apply Nat.leb_le|by apply Nat.ltb_lt|].
  destruct (Hboth 2000) as (_ & Hthis' & _); [by apply Nat.leb_le|].
  split; [exact Hcalls|]. split.
  - rewrite Hthis. by vm_compute.
  - rewrite Hthis'. by vm_compute.
Defined.

End PerDocument.

(** ** All the documents in scope, src/main.ts 165-183 *)

Section AllNotes.

Lemma vault_kept_refl v : Notions.vault_kept v v.
Proof.
  split_and!; [done| |].
  - intros i x Hx. by exists x.
  - intros i x' Hi Hx'. apply lookup_lt_Some in Hx'. lia.
Qed.

Lemma vault_kept_trans v1 v2 v3 :
  Notions.vault_kept v1 v2 -> Notions.vault_kept v2 v3 -> Notions.vault_kept v1 v3.
Proof.
  intros (Hl1 & Hk1 & Hn1) (Hl2 & Hk2 & Hn2). split_and!; [lia| |].
  - intros i x Hx.
    destruct (Hk1 i x Hx) as (x' & Hx' & Hkind' & Hext' & Hsame').
    destruct (Hk2 i x' Hx') as (x'' & Hx'' & Hkind'' & Hext'' & Hsame'').
    exists x''. split_and!; [done|congruence|congruence|].
    intros Hwhat. pose proof (Hsame' Hwhat) as Heq. subst x'.
    by apply Hsame''.
  - intros i x'' Hi Hx''.
    destruct (decide (i < length v2)) as [Hlt|Hge].
    + destruct (lookup_lt_is_Some_2 v2 i Hlt) as [x' Hx'].
      pose proof (Hn1 i x' Hi Hx') as Hfolder.
      destruct (Hk2 i x' Hx') as (y & Hy & Hkind & _).
      assert (y = x'') as -> by congruence. congruence.
    + apply (Hn2 i x''); [lia|done].
Qed.

Lemma processNoteAttachments_vault_kept p noteFile oldNoteName :
  Notions.vault_kept (vault (app p))
    (vault (app (snd (processNoteAttachments p noteFile oldNoteName)))).
Proof.
  destruct (processNoteAttachments_keeps p noteFile oldNoteName)
    as (Hkept & Hsame & Hnew & Hlen).
  split_and!; [done| |done].
  intros i x Hx. destruct (Hkept i x Hx) as (x' & Hx' & Hkind & Hext & _).
  exists x'. split_and!; [done..|].
  intros Hwhat.
  assert (vault (app (snd (processNoteAttachments p noteFile oldNoteName))) !! i
          = Some x) as Hx''.
  { apply Hsame; [done|]. destruct Hwhat; [by left|right; by left]. }
  congruence.
Qed.

Lemma getMarkdownFiles_in_vault a f :
  In f (getMarkdownFiles a) ->
  exists x, vault a !! f = Some x /\ kind x = TFile
            /\ extension (path x) = str "md".
Proof.
  unfold getMarkdownFiles. intros [_ Hf]%filter_In.
  destruct (vault a !! f) as [x|]; [|done].
  apply andb_true_iff in Hf as [Hfile Hmd].
  exists x. split_and!; [done|by apply is_file_kind|by apply jseqb_true].
Qed.

(** An object that has moved over two steps has moved in one of them. *)
Lemma moved_twice a0 a1 a2 :
  length (vault a0) <= length (vault a1) ->
  length (Notions.moved a0 a2)
  <= length (Notions.moved a0 a1) + length (Notions.moved a1 a2).
Proof.
  intros Hlen. unfold Notions.moved.
  replace (length (vault a1))
    with (length (vault a0) + (length (vault a1) - length (vault a0))) by lia.
  rewrite seq_app, List.filter_app, length_app.
  generalize (length (List.filter
                        (fun i => negb (JS.eqb (path_of a1 i) (path_of a2 i)))
                        (seq (0 + length (vault a0))
                           (length (vault a1) - length (vault a0))))).
  intros extra.
  induction (seq 0 (length (vault a0))) as [|i l IH]; [simpl; lia|].
  simpl.
  destruct (JS.eqb (path_of a0 i) (path_of a2 i)) eqn:E02;
    destruct (JS.eqb (path_of a0 i) (path_of a1 i)) eqn:E01;
    destruct (JS.eqb (path_of a1 i) (path_of a2 i)) eqn:E12;
    simpl; try lia.
  apply jseqb_true in E01, E12. apply jseqb_false in E02. congruence.
Qed.

(** The plugin through the loop of [processAllNotesInScope]. *)
Lemma processAll_loop p notes :
  Forall (fun f => is_Some (vault (app p) !! f)) notes ->
  let r := fold_left
             (fun (acc : nat * Plugin) f =>
                let '(count, q) := processNoteAttachments (snd acc) f None in
                (fst acc + count, q))
             notes (0, p) in
  Spec.same_but_vault p (snd r)
  /\ Notions.vault_kept (vault (app p)) (vault (app (snd r)))
  /\ length (Notions.moved (app p) (app (snd r))) <= fst r.
Proof.
  intros Hnotes. cbv zeta.
  assert (Spec.same_but_vault p (snd (0, p))
          /\ Notions.vault_kept (vault (app p)) (vault (app (snd (0, p))))
          /\ length (Notions.moved (app p) (app (snd (0, p)))) <= fst (0, p))
    as Hstart.
  { simpl. rewrite moved_nil.
    split_and!; [apply same_but_vault_refl|apply vault_kept_refl|done]. }
  revert Hstart. generalize (0, p) as acc.
  induction Hnotes as [|f notes Hf _ IH]; intros acc Hacc; [done|].
  cbn [fold_left]. apply IH. destruct acc as [total q].
  cbn [fst snd] in *. destruct Hacc as (Hsame & Hkept & Hcount).
  assert (is_Some (vault (app q) !! f)) as Hfq.
  { destruct Hf as [x Hx]. destruct Hkept as (_ & Hk & _).
    destruct (Hk f x Hx) as (x' & Hx' & _). by exists x'. }
  pose proof (processNoteAttachments_frame q f None Hfq) as Hframe.
  pose proof (processNoteAttachments_vault_kept q f None) as Hkept'.
  pose proof (processNoteAttachments_counts q f None) as Hcount'.
  destruct (processNoteAttachments q f None) as [count q'].
  cbn [fst snd] in *. split_and!.
  - by eapply same_but_vault_trans.
  - by eapply vault_kept_trans.
  - pose proof (moved_twice (app p) (app q) (app q')) as Htwice.
    destruct Hkept as (Hlen & _). lia.
Qed.

(** The loop of [processAllNotesInScope] adds up the counts of the
    passes. *)
Lemma processAll_passes notes total p :
  fold_left
    (fun (acc : nat * Plugin) f =>
       let '(count, q) := processNoteAttachments (snd acc) f None in
       (fst acc + count, q))
    notes (total, p)
  = (total + list_sum (fst (Notions.passes p notes)),
     snd (Notions.passes p notes)).
Proof.
  revert total p. induction notes as [|f notes IH]; intros total p.
  - simpl. by rewrite Nat.add_0_r.
  - cbn [fold_left Notions.passes snd fst].
    destruct (processNoteAttachments p f None) as [count q].
    rewrite IH. destruct (Notions.passes q notes) as [counts r].
    cbn [fst snd]. unfold list_sum. cbn [fold_right]. f_equal. lia.
Qed.

Lemma passes_length p notes :
  length (fst (Notions.passes p notes)) = length notes.
Proof.
  revert p. induction notes as [|f notes IH]; intros p; [done|].
  cbn [Notions.passes]. destruct (processNoteAttachments p f None) as [count q].
  specialize (IH q). destruct (Notions.passes q notes) as [counts r].
  simpl in *. by rewrite IH.
Qed.

(** X5: [processAllNotesInScope] runs one pass, without an old name,
    for each markdown file that is in scope when it starts, in the order
    of the vault, each pass on the plugin the pass before has left.
    When there is no such file it shows one notice and changes nothing.
    Otherwise it shows the number of documents and, at the end, the sum
    of the counts of the passes, and the plugin is the one the last pass
    leaves.  The sum is at least the number of objects that have moved
    (a file that two passes move is counted twice).  The run changes
    nothing of the plugin but the vault; in the vault every object
    stays, with its kind and its extension, folders and markdown files
    stay as they are, and only folders are added. *)
Theorem processAllNotesInScope_keeps_documents (p : Plugin) :
  let notes :=
    List.filter (fun f => isScopeValid (settings p) (path_of (app p) f))
                (getMarkdownFiles (app p)) in
  let r := processAllNotesInScope p in
  let counts := fst (Notions.passes p notes) in
  (notes = [] -> r = ([NoNotesFound], p))
  /\ (notes <> [] ->
      r = ([ProcessingNotes (length notes);
            ProcessedNotes (length notes) (list_sum counts)],
           snd (Notions.passes p notes)))
  /\ length counts = length notes
  /\ length (Notions.moved (app p) (app (snd r))) <= list_sum counts
  /\ Spec.same_but_vault p (snd r)
  /\ Notions.vault_kept (vault (app p)) (vault (app (snd r))).
Proof.
  cbv zeta. unfold processAllNotesInScope.
  remember (List.filter (fun f => isScopeValid (settings p) (path_of (app p) f))
                        (getMarkdownFiles (app p))) as notes eqn:Hdef.
  assert (Forall (fun f => is_Some (vault (app p) !! f)) notes) as Hnotes.
  { apply Forall_forall. intros f Hin%list_elem_of_In. rewrite Hdef in Hin.
    apply filter_In in Hin as [Hf _].
    destruct (getMarkdownFiles_in_vault _ _ Hf) as (x & Hx & _). by exists x. }
  pose proof (processAll_loop p notes Hnotes) as Hloop. cbv zeta in Hloop.
  rewrite processAll_passes in Hloop. cbn [fst snd] in Hloop.
  rewrite Nat.add_0_l in Hloop.
  pose proof (passes_length p notes) as Hlen.
  clear Hdef Hnotes. destruct notes as [|f notes'].
  - simpl. rewrite moved_nil.
    split_and!; [done|done|done|done|apply same_but_vault_refl|apply vault_kept_refl].
  - rewrite processAll_passes. rewrite Nat.add_0_l.
    cbn [fst snd] in *. destruct Hloop as (Hsame & Hkept & Hcount).
    split_and!; [done|done|done|done|done|done].
Qed.

(** The theorem at the two documents of [Example.quietTwo]: two passes,
    one rename each. *)
Lemma processAllNotesInScope_keeps_documents_witness :
  fst (processAllNotesInScope (this Example.quietTwo))
  = [ProcessingNotes 2; ProcessedNotes 2 2]
  /\ map path (vault (app (snd (processAllNotesInScope (this Example.quietTwo)))))
     = [str "First.md"; str "Second.md"; str "assets/First a.png";
        str "assets/Second b.png"; str "assets"].
Proof.
  destruct (processAllNotesInScope_keeps_documents (this Example.quietTwo))
    as (_ & Hrun & _).
  rewrite Hrun by (by vm_compute). split; by vm_compute.
Defined.

End AllNotes.

(** ** Loading and saving the settings, src/main.ts 434-449 *)

Section Settings.

Lemma withLocationMode_idem r :
  withLocationMode (withLocationMode r) = withLocationMode r.
Proof. reflexivity. Qed.

Lemma find_map {A} (f : A -> bool) (g : A -> A) l :
  (forall x, f (g x) = f x) ->
  List.find f (map g l) = option_map g (List.find f l).
Proof.
  intros Hfg. induction l as [|x l IH]; [done|]. simpl.
  rewrite Hfg. by destruct (f x).
Qed.

(** The rule of an extension under rules with the location mode filled
    in is the rule without it, filled in. *)
Lemma getRuleForExtension_filled s s' ext :
  rules s' = map withLocationMode (rules s) ->
  getRuleForExtension s' ext
  = option_map withLocationMode (getRuleForExtension s ext).
Proof.
  intros Hrules. unfold getRuleForExtension. rewrite Hrules.
  by apply find_map.
Qed.

Lemma planTarget_filled p s' noteFile oldNoteName t :
  rules s' = map withLocationMode (rules (settings p)) ->
  defaultNamePattern s' = defaultNamePattern (settings p) ->
  defaultPathPattern s' = defaultPathPattern (settings p) ->
  planTarget (with_settings p s') noteFile oldNoteName t
  = planTarget p noteFile oldNoteName t.
Proof.
  intros Hrules Hname Hpath. unfold planTarget.
  cbn [app settings with_settings].
  destruct (getAbstractFileByPath _ _); [|done].
  rewrite (getRuleForExtension_filled (settings p) s') by done.
  destruct (getRuleForExtension (settings p) _) as [rule|]; simpl.
  - by destruct (locationMode rule).
  - rewrite Hrules, Hname, Hpath. by destruct (rules (settings p)).
Qed.

(** X18: loading the settings.  Without saved data the settings are
    the defaults.  What [saveSettings] has saved is loaded back as it
    was, but that a rule without a location mode has the mode [pattern]
    afterwards; the settings loaded have a location mode in every rule,
    saving and loading them again changes nothing, and the plan for a
    target is the same under the settings loaded as under the settings
    saved. *)
Theorem loadSettings_round_trip (s : PluginSettings) :
  let s' := loadSettings (Some (saveSettings s)) in
  loadSettings None = DEFAULT_SETTINGS
  /\ s' = {| scopeMode := scopeMode s;
             watchedPaths := watchedPaths s;
             rules := map withLocationMode (rules s);
             defaultNamePattern := defaultNamePattern s;
             defaultPathPattern := defaultPathPattern s;
             enableAutoRename := enableAutoRename s;
             debounceDelay := debounceDelay s |}
  /\ Forall (fun r => is_Some (locationMode r)) (rules s')
  /\ (Forall (fun r => is_Some (locationMode r)) (rules s) -> s' = s)
  /\ loadSettings (Some (saveSettings s')) = s'
  /\ (forall p noteFile oldNoteName t,
        settings p = s ->
        planTarget (with_settings p s') noteFile oldNoteName t
        = planTarget p noteFile oldNoteName t).
Proof.
  cbv zeta. split_and!.
  - reflexivity.
  - reflexivity.
  - simpl. apply Forall_forall. intros r Hr%list_elem_of_In.
    apply in_map_iff in Hr as (r0 & <- & _). by eexists.
  - intros Hall. unfold loadSettings, saveSettings. simpl.
    destruct s as [sm wp rs dn dp ea dd]. simpl in *. f_equal.
    induction Hall as [|r rs [m Hm] _ IH]; [done|].
    simpl. rewrite IH. f_equal. destruct r. simpl in *. by rewrite Hm.
  - unfold loadSettings, saveSettings. simpl. f_equal.
    rewrite map_map. apply map_ext. intros r. apply withLocationMode_idem.
  - intros p noteFile oldNoteName t <-. by apply planTarget_filled.
Qed.

End Settings.

(** ** The lists of the settings tab, src/main.ts 509-545 *)

Section SettingsTab.

Lemma drop_while_idem p (s : jsstring) :
  drop_while p (drop_while p s) = drop_while p s.
Proof.
  induction s as [|c s IH]; [done|]. simpl.
  destruct (p c) eqn:Hc; [done|]. simpl. by rewrite Hc.
Qed.

Lemma drop_while_snoc p (a : jsstring) c :
  p c = false -> drop_while p (a ++ [c]) = drop_while p a ++ [c].
Proof.
  intros Hc. induction a as [|d a IH]; simpl; [by rewrite Hc|].
  by destruct (p d).
Qed.

Lemma trim_idem s : trim (trim s) = trim s.
Proof.
  unfold trim.
  assert (drop_while is_space
            (rev (drop_while is_space (rev (drop_while is_space s))))
          = rev (drop_while is_space (rev (drop_while is_space s)))) as ->.
  { destruct (drop_while is_space s) as [|c u] eqn:Hu; [done|].
    pose proof (drop_while_head _ _ _ _ Hu) as Hc.
    simpl. rewrite drop_while_snoc by done.
    rewrite rev_app_distr. simpl. by rewrite Hc. }
  by rewrite rev_involutive, drop_while_idem.
Qed.

Lemma trim_pad pad e :
  forallb is_space pad = true -> trim (pad ++ e) = trim e.
Proof.
  intros Hpad. unfold trim. do 2 f_equal.
  induction pad as [|c pad IH]; [done|]. simpl in *.
  apply andb_true_iff in Hpad as [-> Hpad]. auto.
Qed.

Lemma split_from_free (c : ascii) cur s :
  forallb (fun x => negb (is_char c x)) cur = true ->
  Forall (fun e => forallb (fun x => negb (is_char c x)) e = true)
         (split_from c cur s).
Proof.
  revert cur. induction s as [|x s IH]; intros cur Hcur; simpl.
  - by repeat constructor.
  - destruct (is_char c x) eqn:Hx.
    + constructor; [done|]. by apply IH.
    + apply IH. rewrite forallb_app. simpl. by rewrite Hcur, Hx.
Qed.

(** Splitting the text of a joined list gives the elements back, the
    padding of the separator in front of all but the first. *)
Lemma split_join_with (c : ascii) pad cur x rest :
  forallb (fun y => negb (is_char c y)) pad = true ->
  Forall (fun e => forallb (fun y => negb (is_char c y)) e = true) (x :: rest) ->
  split_from c cur (join_with (c :: pad) (x :: rest))
  = (cur ++ x) :: map (fun e => pad ++ e) rest.
Proof.
  intros Hpad Hall. revert cur x Hall.
  induction rest as [|y rest IH]; intros cur x Hall.
  - apply Forall_cons in Hall as [Hx _]. simpl.
    rewrite <- (app_nil_r x) at 1. by rewrite split_from_word.
  - apply Forall_cons in Hall as [Hx Hall].
    change (join_with (c :: pad) (x :: y :: rest))
      with (x ++ (c :: pad) ++ join_with (c :: pad) (y :: rest)).
    rewrite split_from_word by done.
    change ((c :: pad) ++ ?r) with (c :: (pad ++ r)).
    rewrite split_from_sep, split_from_word by done.
    by rewrite IH.
Qed.

(** What the tab keeps of a text: the pieces between the separators,
    trimmed, the empty ones dropped. *)
Lemma parse_show (c : ascii) pad l :
  forallb (fun y => negb (is_char c y)) pad = true ->
  forallb is_space pad = true ->
  Forall (fun e => e <> [] /\ trim e = e
                   /\ forallb (fun y => negb (is_char c y)) e = true) l ->
  List.filter (fun e => negb (JS.eqb e []))
              (map trim (split c (join_with (c :: pad) l)))
  = l.
Proof.
  intros Hpad Hspace Hall.
  assert (List.filter (fun e => negb (JS.eqb e [])) (map trim l) = l) as Hsame.
  { induction Hall as [|e l (Hne & Htrim & _) _ IH]; [done|].
    simpl. rewrite Htrim. apply jseqb_false in Hne. rewrite Hne. simpl.
    by rewrite IH. }
  destruct l as [|x rest]; [done|].
  unfold split. rewrite split_join_with; [|done|].
  - etransitivity; [|exact Hsame]. f_equal. simpl. f_equal.
    rewrite map_map. apply map_ext. intros e. by apply trim_pad.
  - eapply Forall_impl; [exact Hall|]. by intros e (_ & _ & ?).
Qed.

Lemma parsed_elements (c : ascii) val :
  Forall (fun e => e <> [] /\ trim e = e
                   /\ forallb (fun y => negb (is_char c y)) e = true)
         (List.filter (fun e => negb (JS.eqb e []))
                      (map trim (split c val))).
Proof.
  apply Forall_forall. intros e [He Hne]%list_elem_of_In%filter_In.
  apply in_map_iff in He as (e0 & <- & He0).
  split_and!.
  - by apply negb_true_iff, jseqb_false in Hne.
  - apply trim_idem.
  - apply trim_keeps.
    pose proof (split_from_free c [] val eq_refl) as Hfree.
    rewrite Forall_forall in Hfree. by apply Hfree, list_elem_of_In.
Qed.

(** Joining the pieces of a text with the separator gives the text
    back. *)
Lemma join_split_from (c : ascii) cur s :
  join_with [c] (split_from c cur s) = cur ++ s.
Proof.
  revert cur. induction s as [|x s IH]; intros cur.
  - simpl. by rewrite app_nil_r.
  - cbn [split_from]. destruct (is_char c x) eqn:Hx.
    + apply is_char_true in Hx as ->.
      specialize (IH []).
      destruct (split_from c [] s) as [|y rest] eqn:Hs.
      { by destruct s; simpl in Hs; try destruct (is_char c _). }
      change (join_with [c] (cur :: y :: rest))
        with (cur ++ [c] ++ join_with [c] (y :: rest)).
      by rewrite IH.
    + rewrite IH. by rewrite <- app_assoc.
Qed.

(** Splitting a text made of pieces without the separator gives the
    pieces. *)
Lemma split_pieces (c : ascii) pieces :
  pieces <> [] ->
  Forall (fun e => Notions.without c e = true) pieces ->
  split c (join_with [c] pieces) = pieces.
Proof.
  intros Hne Hall. destruct pieces as [|x rest]; [done|].
  unfold split. rewrite (split_join_with c [] [] x rest); [|done|done].
  simpl. f_equal. by rewrite map_id.
Qed.

Lemma kept_pieces (c : ascii) pieces :
  Forall (fun e => Notions.without c e = true) pieces ->
  List.filter (fun e => negb (JS.eqb e []))
              (map trim (split c (join_with [c] pieces)))
  = List.filter (fun e => negb (JS.eqb e [])) (map trim pieces).
Proof.
  intros Hall. destruct pieces as [|x rest]; [done|].
  by rewrite split_pieces.
Qed.

(** X19: the lists of the settings tab.  Every text is its lines
    joined by line ends, and its pieces joined by commas.  For a text
    made of the lines [lines] the tab keeps the lines trimmed, without
    the empty ones, as the watched folders; for a text made of the
    pieces [pieces] between commas it keeps the pieces trimmed, without
    the empty ones, as the extensions of a rule.  So what is kept has
    no empty element, no white space around an element and no separator
    in it; and a list of such elements, shown (one on a line, or with a
    comma and a space between them) and read back, is the same list:
    leaving the field without a change changes nothing. *)
Theorem settings_tab_lists_round_trip (val : jsstring) :
  let kept := fun pieces : list jsstring =>
    List.filter (fun e => negb (JS.eqb e [])) (map trim pieces) in
  let clean := fun (c : ascii) (e : jsstring) =>
    e <> [] /\ trim e = e /\ Notions.without c e = true in
  (val = join_with ["010"%char] (split "010" val)
   /\ Forall (fun e => Notions.without "010" e = true) (split "010" val)
   /\ val = join_with [","%char] (split "," val)
   /\ Forall (fun e => Notions.without "," e = true) (split "," val))
  /\ (forall lines,
        Forall (fun e => Notions.without "010" e = true) lines ->
        editedWatchedPaths (join_with ["010"%char] lines) = kept lines)
  /\ (forall pieces,
        Forall (fun e => Notions.without "," e = true) pieces ->
        editedExtensions (join_with [","%char] pieces) = kept pieces)
  /\ Forall (clean "010"%char) (editedWatchedPaths val)
  /\ Forall (clean ","%char) (editedExtensions val)
  /\ (forall watched, Forall (clean "010"%char) watched ->
        editedWatchedPaths (shownWatchedPaths watched) = watched)
  /\ (forall exts, Forall (clean ","%char) exts ->
        editedExtensions (shownExtensions exts) = exts).
Proof.
  cbv zeta.
  unfold editedWatchedPaths, shownWatchedPaths, editedExtensions,
    shownExtensions.
  split_and!.
  - unfold split. by rewrite join_split_from.
  - apply (split_from_free "010" [] val eq_refl).
  - unfold split. by rewrite join_split_from.
  - apply (split_from_free "," [] val eq_refl).
  - intros lines Hall. by apply kept_pieces.
  - intros pieces Hall. by apply kept_pieces.
  - apply parsed_elements.
  - apply parsed_elements.
  - intros watched Hall. by apply (parse_show "010" []).
  - intros exts Hall. by apply (parse_show "," (str " ")).
Qed.

(** The theorem at a text of three lines, one of them empty, and at a
    text of four pieces between commas. *)
Lemma settings_tab_lists_round_trip_witness :
  editedWatchedPaths
    (join_with ["010"%char] [str " Projects/Active "; []; str "Inbox"])
  = [str "Projects/Active"; str "Inbox"]
  /\ editedExtensions
       (join_with [","%char] [str "png"; str " JPG "; []; str "gif"])
     = [str "png"; str "JPG"; str "gif"]
  /\ shownExtensions [str "png"; str "JPG"; str "gif"] = str "png, JPG, gif".
Proof.
  destruct (settings_tab_lists_round_trip []) as (_ & Hlines & Hpieces & _).
  split; [|split; [|reflexivity]].
  - rewrite Hlines; [reflexivity|]. by repeat constructor.
  - rewrite Hpieces; [reflexivity|]. by repeat constructor.
Defined.

End SettingsTab.

(** ** What a planned move is, src/main.ts 246-301 *)

Section Plans.

Lemma planWith_destination a noteFile oldNoteName t np pp mode0 finalPath folder mode :
  planWith a noteFile oldNoteName t np pp mode0 = Move finalPath folder mode ->
  let cur := path_of a (file t) in
  let base := newBaseName np
                (variables a (path_of a noteFile) cur oldNoteName (index t)) in
  mode = mode0
  /\ folder = targetFolderPath mode0 pp (path_of a noteFile) cur
  /\ segments finalPath = segments folder ++ [name finalPath]
  /\ (name finalPath = base ++ str "." ++ extension cur
      \/ exists k, 1 <= k < maxRetries
                   /\ name finalPath
                      = base ++ str " " ++ toString k ++ str "." ++ extension cur).
Proof.
  unfold planWith. cbv zeta.
  set (cur := path_of a (file t)).
  set (base := newBaseName np _).
  set (fd := targetFolderPath mode0 pp _ cur).
  destruct (JS.eqb _ cur); [done|].
  destruct (JS.eqb (resolveCollision _ _ _ _ _) cur) eqn:E; [done|].
  apply jseqb_false in E. intros [= <- <- <-].
  destruct (resolveCollision_free a
              (normalizePath (fd ++ str "/" ++ base ++ str "." ++ extension cur))
              (file t) fd base) as [Heq|[Hfree Hin]]; [done|].
  fold cur in Hin.
  destruct (extension_free cur) as [Hdot Hslash].
  destruct (candidate_name fd base (extension cur) _
              (newBaseName_is_segment _ _) Hdot Hslash Hin) as (_ & Hseg & Hname).
  by split_and!.
Qed.

(** X8: where a planned move goes.  When the loop plans to move a
    target, the patterns and the location mode are those of the first
    rule that lists the extension of the file, or the defaults with the
    mode [pattern] when there is no rule at all; the target folder is
    the folder of the file in the mode [original] and the folder
    [resolveTargetPath] gives in the mode [pattern]; and the new path is
    a file name directly in the target folder, made of the new base
    name, or of the new base name, a space and a number from 1 to 499,
    and the extension of the file.  The new path is not the current
    path, nothing occupies it, and it has the extension of the file. *)
Theorem planned_move_destination (p : Plugin) (noteFile : nat)
    (oldNoteName : option jsstring) (t : AttachmentInfo)
    (finalPath folder : jsstring) (mode : LocationMode) :
  planTarget p noteFile oldNoteName t = Move finalPath folder mode ->
  let notePath := path_of (app p) noteFile in
  let cur := path_of (app p) (file t) in
  let '(namePattern, pathPattern, locationMode) :=
    Notions.inForce (settings p) (extension cur) in
  let base := newBaseName namePattern
                (variables (app p) notePath cur oldNoteName (index t)) in
  mode = locationMode
  /\ folder = match mode with
              | LocOriginal => parentPath cur
              | LocPattern => resolveTargetPath pathPattern notePath
              end
  /\ segments finalPath = segments folder ++ [name finalPath]
  /\ (name finalPath = base ++ str "." ++ extension cur
      \/ exists k, 1 <= k < 500
                   /\ name finalPath
                      = base ++ str " " ++ toString k ++ str "." ++ extension cur)
  /\ finalPath <> cur
  /\ getAbstractFileByPath (app p) finalPath = None
  /\ extension finalPath = extension cur.
Proof.
  intros Hplan. cbv zeta.
  destruct (planTarget_move _ _ _ _ _ _ _ Hplan) as (Hne & Hfree & Hext & _).
  revert Hplan. unfold planTarget, Notions.inForce.
  destruct (getAbstractFileByPath (app p) (path_of (app p) (file t)));
    [|done].
  destruct (getRuleForExtension _ _) as [rule|].
  - intros H. apply planWith_destination in H as (-> & -> & Hseg & Hname).
    split_and!; [done| |exact Hseg|exact Hname|done..].
    unfold targetFolderPath. by destruct (default LocPattern (locationMode rule)).
  - destruct (rules _); [|done].
    intros H. apply planWith_destination in H as (-> & -> & Hseg & Hname).
    split_and!; [done|done|exact Hseg|exact Hname|done..].
Qed.

Lemma planned_move_destination_witness :
  planTarget Example.defaultPlugin 0 None
    {| file := 1; originalPath := str "pic.png"; index := 0 |}
  = Move (str "assets/Note pic.png") (str "assets") LocPattern
  /\ name (str "assets/Note pic.png") = str "Note pic.png"
  /\ getAbstractFileByPath (app Example.defaultPlugin) (str "assets/Note pic.png")
     = None.
Proof.
  assert (planTarget Example.defaultPlugin 0 None
            {| file := 1; originalPath := str "pic.png"; index := 0 |}
          = Move (str "assets/Note pic.png") (str "assets") LocPattern) as Hplan
    by (by vm_compute).
  split; [exact Hplan|]. split; [reflexivity|].
  pose proof (planned_move_destination _ _ _ _ _ _ _ Hplan) as H.
  cbv zeta in H.
  destruct (Notions.inForce _ _) as [[np pp] lm].
  by destruct H as (_ & _ & _ & _ & _ & Hfree & _).
Defined.

End Plans.

(** ** The new base name, src/main.ts 268-269 and 419-421 *)

Section FileNames.

Lemma replace_runs_from_none (cls : ascii -> bool) r b s :
  forallb (fun c => negb (cls c)) s = true ->
  replace_runs_from cls r b s = s.
Proof.
  revert b. induction s as [|c s IH]; intros b; [done|]. simpl.
  intros [Hc Hs]%andb_true_iff. apply negb_true_iff in Hc. rewrite Hc.
  by rewrite IH.
Qed.

Lemma collapsed_not_space s :
  Spec.starts_in is_space (replace_runs_from is_space [" "%char] true s) = false.
Proof.
  induction s as [|c s IH]; [done|]. simpl.
  destruct (is_space c) eqn:Hc; [exact IH|]. simpl. exact Hc.
Qed.

Lemma collapsed_spaced b s :
  Notions.spaced (replace_runs_from is_space [" "%char] b s) = true.
Proof.
  revert b. induction s as [|c s IH]; intros b; [done|]. simpl.
  destruct (is_space c) eqn:Hc.
  - destruct b; [apply IH|]. cbn [List.app Notions.spaced].
    rewrite IH, collapsed_not_space. done.
  - cbn [Notions.spaced]. by rewrite Hc, IH.
Qed.

Lemma spaced_collapse s :
  Notions.spaced s = true ->
  replace_runs_from is_space [" "%char] false s = s
  /\ (Spec.starts_in is_space s = false ->
      replace_runs_from is_space [" "%char] true s = s).
Proof.
  induction s as [|c s IH]; [done|]. cbn [Notions.spaced].
  intros [Hc Hs]%andb_true_iff. destruct (IH Hs) as [IH1 IH2].
  cbn [replace_runs_from Spec.starts_in].
  destruct (is_space c) eqn:Hsp.
  - simpl in Hc. apply andb_true_iff in Hc as [Hc Hnext].
    apply is_char_true in Hc. subst c. apply negb_true_iff in Hnext.
    split; [|done]. by rewrite IH2.
  - split; [|intros _]; by rewrite IH1.
Qed.

Lemma spaced_app_r a b : Notions.spaced (a ++ b) = true -> Notions.spaced b = true.
Proof.
  induction a as [|c a IH]; [done|]. simpl.
  intros [_ H]%andb_true_iff. auto.
Qed.

Lemma spaced_app_l a b : Notions.spaced (a ++ b) = true -> Notions.spaced a = true.
Proof.
  induction a as [|c a IH]; [done|]. simpl.
  intros [Hc H]%andb_true_iff. rewrite (IH H), andb_true_r.
  destruct (negb (is_space c)); [done|]. simpl in *.
  apply andb_true_iff in Hc as [-> Hnext]. simpl.
  destruct a as [|d a]; [done|]. exact Hnext.
Qed.

(** A text is white space, the trimmed text and white space. *)
Lemma trim_inside s :
  exists pre post, s = pre ++ trim s ++ post.
Proof.
  unfold trim.
  exists (take_while is_space s),
         (rev (take_while is_space (rev (drop_while is_space s)))).
  rewrite <- rev_app_distr, take_drop_while, rev_involutive.
  by rewrite take_drop_while.
Qed.

Lemma trim_spaced s : Notions.spaced s = true -> Notions.spaced (trim s) = true.
Proof.
  intros Hs. destruct (trim_inside s) as (pre & post & Heq).
  rewrite Heq in Hs. by apply spaced_app_r, spaced_app_l in Hs.
Qed.

Lemma sanitizeName_legal s :
  forallb (fun c => negb (is_illegal c)) (sanitizeName s) = true.
Proof.
  unfold sanitizeName. apply trim_keeps.
  apply replace_runs_from_keeps; [done|].
  by apply replace_runs_from_outside.
Qed.

Lemma sanitizeName_spaced s : Notions.spaced (sanitizeName s) = true.
Proof. unfold sanitizeName. apply trim_spaced, collapsed_spaced. Qed.

Lemma sanitizeName_idem s : sanitizeName (sanitizeName s) = sanitizeName s.
Proof.
  unfold sanitizeName at 1. unfold replace_runs.
  rewrite (replace_runs_from_none is_illegal) by apply sanitizeName_legal.
  change (str " ") with [" "%char].
  rewrite (proj1 (spaced_collapse _ (sanitizeName_spaced s))).
  unfold sanitizeName. apply trim_idem.
Qed.

(** X12: the new base name of a file is a usable name that stays as it
    is.  Whatever the pattern and the variables, it is not empty, has
    none of the characters [sanitizeName] takes out, has no white space
    but single spaces, none of them at its ends, and [sanitizeName]
    leaves it unchanged; so does [sanitizeName] leave unchanged any name
    it has made. *)
Theorem newBaseName_is_clean (namePattern : jsstring)
    (vars : gmap string jsstring) :
  let base := newBaseName namePattern vars in
  base <> []
  /\ forallb (fun c => negb (is_illegal c)) base = true
  /\ Notions.spaced base = true
  /\ trim base = base
  /\ sanitizeName base = base
  /\ (forall s, sanitizeName (sanitizeName s) = sanitizeName s).
Proof.
  cbv zeta. unfold newBaseName.
  pose proof (sanitizeName_legal (applyVariables namePattern vars)) as Hlegal.
  pose proof (sanitizeName_spaced (applyVariables namePattern vars)) as Hspaced.
  pose proof (sanitizeName_idem (applyVariables namePattern vars)) as Hidem.
  assert (trim (sanitizeName (applyVariables namePattern vars))
          = sanitizeName (applyVariables namePattern vars)) as Htrim
    by (unfold sanitizeName; apply trim_idem).
  destruct (sanitizeName (applyVariables namePattern vars)) as [|c b].
  - split_and!; [done|done|done|done|by vm_compute|apply sanitizeName_idem].
  - split_and!; [done|done|done|done|done|apply sanitizeName_idem].
Qed.

End FileNames.
